(** * mrjob on Spark: the step pipeline of [mrjob/spark/mrjob_spark_harness.py]

    The harness runs the steps of an MRJob on a Spark RDD.  This file embeds
    its functions ([main], [_run_step], [_run_mapper], [_run_combiner],
    [_shuffle_and_sort], [_run_reducer], [_discard_key_and_flatten_values],
    [_check_step]) over a list-of-partitions model of an RDD, and proves the
    properties the specification states about them. *)

From Stdlib Require Import Strings.Ascii Strings.String Strings.Byte.
From Stdlib Require Import List Bool Arith PeanoNat ZArith NArith Lia.
From Stdlib Require Import Permutation Sorted.
Import ListNotations.

Set Implicit Arguments.

(** ** Byte strings *)

Module Bytes.

(** A Python [bytes] object. *)
Definition bytes := list byte.

Definition bytes_eq_dec : forall a b : bytes, {a = b} + {a <> b} :=
  list_eq_dec Byte.byte_eq_dec.

(** [b'\t'] *)
Definition TAB : byte := x09.

(** [line.split(b'\t')]: the pieces between the TAB bytes, in order.  The
    last case of the inner match is never taken, as the recursive call
    never returns the empty list. *)
Fixpoint split_tab (line : bytes) : list bytes :=
  match line with
  | [] => [[]]
  | b :: rest =>
      if Byte.eqb b TAB then [] :: split_tab rest
      else match split_tab rest with
           | piece :: pieces => (b :: piece) :: pieces
           | [] => [[b]]
           end
  end.

(** [a <= b] on [bytes]: lexicographic on the unsigned byte values, a
    proper prefix first. *)
Fixpoint bytes_leb (a b : bytes) : bool :=
  match a, b with
  | [], _ => true
  | _ :: _, [] => false
  | x :: a', y :: b' =>
      if N.ltb (Byte.to_N x) (Byte.to_N y) then true
      else if N.eqb (Byte.to_N x) (Byte.to_N y) then bytes_leb a' b'
      else false
  end.

Definition bytes_le (a b : bytes) : Prop := bytes_leb a b = true.

(** The lexicographic order on [bytes], as it is usually defined. *)
Inductive lex_le : bytes -> bytes -> Prop :=
| lex_le_nil (b : bytes) : lex_le [] b
| lex_le_lt (x y : byte) (a b : bytes) :
    (Byte.to_N x < Byte.to_N y)%N -> lex_le (x :: a) (y :: b)
| lex_le_eq (x : byte) (a b : bytes) : lex_le a b -> lex_le (x :: a) (x :: b).

Fixpoint insert_sorted (x : bytes) (l : list bytes) : list bytes :=
  match l with
  | [] => [x]
  | y :: l' => if bytes_leb x y then x :: l else y :: insert_sorted x l'
  end.

(** [sorted(lines)] on a list of [bytes]: a stable sort. *)
Definition sorted (lines : list bytes) : list bytes :=
  fold_right insert_sorted [] lines.

End Bytes.
Import Bytes.

(** ** The dataflow engine

    An RDD is a list of partitions, each a list of records.  The operations
    are those of [pyspark.RDD] the harness calls.  [combineByKey] follows
    PySpark: combine inside every partition with a dict, move each key to
    the partition its hash selects, and merge the combiners that arrive
    there with a second dict.  A dict is an association list in insertion
    order; shuffled blocks arrive in the order of the partitions they come
    from. *)

Module Spark.

Definition RDD (A : Type) : Type := list (list A).

(** Every record of the RDD, partition after partition. *)
Definition collect {A} (rdd : RDD A) : list A := concat rdd.

Definition map {A B} (f : A -> B) (rdd : RDD A) : RDD B :=
  List.map (List.map f) rdd.

Definition mapPartitions {A B} (f : list A -> list B) (rdd : RDD A) : RDD B :=
  List.map f rdd.

Definition flatMap {A B} (f : A -> list B) (rdd : RDD A) : RDD B :=
  List.map (flat_map f) rdd.

Definition mapValues {K V W} (f : V -> W) (rdd : RDD (K * V)) : RDD (K * W) :=
  map (fun kv => (fst kv, f (snd kv))) rdd.

Section ByKey.
Context {K V C : Type}.
Variable K_eq_dec : forall a b : K, {a = b} + {a <> b}.
(** The number of partitions of a shuffle (positive in Spark) and the
    hash that places a key. *)
Variable numPartitions : positive.
Variable partitionFunc : K -> nat.

(** [d[k] = merge(d[k], x) if k in d else init] *)
Fixpoint upsert {X} (merge : C -> X -> C) (init : X -> C)
    (k : K) (x : X) (d : list (K * C)) : list (K * C) :=
  match d with
  | [] => [(k, init x)]
  | (k', c) :: d' =>
      if K_eq_dec k' k then (k', merge c x) :: d'
      else (k', c) :: upsert merge init k x d'
  end.

(** [Merger.mergeValues(iterator)] followed by [items()]. *)
Definition mergeValues (createCombiner : V -> C) (mergeValue : C -> V -> C)
    (iterator : list (K * V)) : list (K * C) :=
  fold_left (fun d kv => upsert mergeValue createCombiner (fst kv) (snd kv) d)
            iterator [].

(** [Merger.mergeCombiners(iterator)] followed by [items()]. *)
Definition mergeCombiners (mergeCombiners_ : C -> C -> C)
    (iterator : list (K * C)) : list (K * C) :=
  fold_left (fun d kc => upsert mergeCombiners_ (fun c => c) (fst kc) (snd kc) d)
            iterator [].

(** The partition a key is sent to. *)
Definition partition_of (k : K) : nat :=
  partitionFunc k mod Pos.to_nat numPartitions.

Definition partitionBy {X} (rdd : RDD (K * X)) : RDD (K * X) :=
  List.map
    (fun i => filter (fun kx => partition_of (fst kx) =? i) (collect rdd))
    (seq 0 (Pos.to_nat numPartitions)).

Definition combineByKey (createCombiner : V -> C) (mergeValue : C -> V -> C)
    (mergeCombiners_ : C -> C -> C) (rdd : RDD (K * V)) : RDD (K * C) :=
  let locally_combined :=
    mapPartitions (mergeValues createCombiner mergeValue) rdd in
  let shuffled := partitionBy locally_combined in
  mapPartitions (mergeCombiners mergeCombiners_) shuffled.

End ByKey.

Section GroupBy.
Context {K V : Type}.
Variable K_eq_dec : forall a b : K, {a = b} + {a <> b}.
Variable numPartitions : positive.
Variable partitionFunc : K -> nat.

(** [groupByKey]: [combineByKey] that collects the values in a list. *)
Definition groupByKey (rdd : RDD (K * V)) : RDD (K * list V) :=
  combineByKey K_eq_dec numPartitions partitionFunc
    (fun x => [x]) (fun xs x => xs ++ [x]) (fun a b => a ++ b) rdd.

(** [groupBy(f)] is [map(lambda x: (f(x), x)).groupByKey()]. *)
Definition groupBy (f : V -> K) (rdd : RDD V) : RDD (K * list V) :=
  groupByKey (map (fun x => (f x, x)) rdd).

End GroupBy.

End Spark.
Import Spark.

(** ** Python values the harness inspects *)

Module Py.

(** The values found in a step description: [None], a bool or a [str]. *)
Inductive atom : Type :=
| PyNone
| PyBool (b : bool)
| PyStr (s : string).

(** Truth value of an atom, as [if x:] takes it. *)
Definition truthy (x : atom) : bool :=
  match x with
  | PyNone => false
  | PyBool b => b
  | PyStr s => negb (String.eqb s EmptyString)
  end.

(** [x != s] for a string literal [s]. *)
Definition ne_str (x : atom) (s : string) : bool :=
  match x with
  | PyStr s' => negb (String.eqb s' s)
  | _ => true
  end.

(** A dict from [str] to atoms, and [d.get(key)]. *)
Definition dict := list (string * atom).

Fixpoint get (d : dict) (key : string) : atom :=
  match d with
  | [] => PyNone
  | (k, v) :: d' => if String.eqb k key then v else get d' key
  end.

(** The bound of a slice [l[start:stop]] of a list of length [len]:
    [None] is the default, a negative index counts from the end, and
    everything is clamped to [0..len]. *)
Definition slice_bound (len : Z) (default : Z) (x : option Z) : Z :=
  match x with
  | None => default
  | Some i => if (i <? 0)%Z then Z.max 0 (i + len) else Z.min i len
  end.

(** [l[start:stop]] *)
Definition slice {A} (l : list A) (start stop : option Z) : list A :=
  let len := Z.of_nat (length l) in
  let lo := slice_bound len 0 start in
  let hi := slice_bound len len stop in
  firstn (Z.to_nat (hi - lo)) (skipn (Z.to_nat lo) l).

(** [list(enumerate(l))] *)
Definition enumerate {A} (l : list A) : list (nat * A) :=
  combine (seq 0 (length l)) l.

(** [itertools.groupby(pairs, key=lambda k_v: k_v[0])], with every group
    reduced to its values: runs of consecutive pairs with equal keys. *)
Fixpoint groupby {K V} (K_eq_dec : forall a b : K, {a = b} + {a <> b})
    (pairs : list (K * V)) : list (K * list V) :=
  match pairs with
  | [] => []
  | (k, v) :: rest =>
      match groupby K_eq_dec rest with
      | (k', vs) :: groups =>
          if K_eq_dec k k' then (k, v :: vs) :: groups
          else (k, [v]) :: (k', vs) :: groups
      | [] => [(k, [v])]
      end
  end.

End Py.
Import Py.

(** ** The harness *)

Module Harness.

(** *** Step descriptions *)

(** The roles of a step, [mrc] in the source. *)
Inductive role : Type := mrc_mapper | mrc_reducer | mrc_combiner.

(** The name of a role, as in ['--%s' % mrc] and [step_desc.get(mrc)]. *)
Definition role_name (mrc : role) : string :=
  match mrc with
  | mrc_mapper => "mapper"%string
  | mrc_reducer => "reducer"%string
  | mrc_combiner => "combiner"%string
  end.

(** The description of a substep, a dict such as
    [{'type': 'script', 'pre_filter': 'grep x'}]. *)
Definition substep_desc := Py.dict.

(** The description of a step.  A field holds what [step_desc.get] returns
    for its key: [PyNone] or [None] when the key is absent. *)
Record step_desc : Type := {
  desc_type : atom;
  desc_input_manifest : atom;
  desc_mapper : option substep_desc;
  desc_reducer : option substep_desc;
  desc_combiner : option substep_desc
}.

(** [step_desc.get(mrc)] *)
Definition get_substep (step_desc : step_desc) (mrc : role) : option substep_desc :=
  match mrc with
  | mrc_mapper => desc_mapper step_desc
  | mrc_reducer => desc_reducer step_desc
  | mrc_combiner => desc_combiner step_desc
  end.

(** Truth value of [step_desc.get(mrc)]: a dict that is there and is not
    empty. *)
Definition substep_truthy (substep_desc : option substep_desc) : bool :=
  match substep_desc with
  | Some (_ :: _) => true
  | _ => false
  end.

(** A step of the job: [step.description(step_num)]. *)
Record MRStep : Type := { description : nat -> step_desc }.

(** *** Exceptions *)

(** What a message of [_check_step] says. *)
Inductive message : Type :=
| step_has_unexpected_type (step_num : nat) (type : atom)
| step_uses_input_manifest
| substep_has_unexpected_type (step_num : nat) (mrc : role) (type : atom)
| substep_has_pre_filter (step_num : nat) (mrc : role).

Inductive exn : Type :=
| ValueError (msg : message)
| NotImplementedError (msg : message).

(** The outcome of a call that may raise. *)
Inductive result (A : Type) : Type :=
| Ok (a : A)
| Raise (e : exn).
Arguments Ok {A} a.
Arguments Raise {A} e.

(** A [for] loop whose body may raise. *)
Fixpoint for_each {A} (body : A -> result unit) (l : list A) : result unit :=
  match l with
  | [] => Ok tt
  | x :: l' =>
      match body x with
      | Ok _ => for_each body l'
      | Raise e => Raise e
      end
  end.

(** *** [_check_step] *)

Definition _check_step (step_desc : step_desc) (step_num : nat) : result unit :=
  if ne_str (desc_type step_desc) "streaming" then
    Raise (ValueError (step_has_unexpected_type step_num (desc_type step_desc)))
  else if truthy (desc_input_manifest step_desc) then
    Raise (NotImplementedError step_uses_input_manifest)
  else
    for_each
      (fun mrc =>
         (* bad combiners won't cause an error because they're optional *)
         let substep_desc := get_substep step_desc mrc in
         match substep_desc with
         | Some ((_ :: _) as d) =>
             if ne_str (get d "type") "script" then
               Raise (NotImplementedError
                        (substep_has_unexpected_type step_num mrc (get d "type")))
             else if truthy (get d "pre_filter") then
               Raise (NotImplementedError (substep_has_pre_filter step_num mrc))
             else Ok tt
         | _ => Ok tt
         end)
      [mrc_mapper; mrc_reducer].

(** The names the specification gives to the rejections: a [ValueError]
    is an unsupported step type; a [NotImplementedError] is an unsupported
    substep type or an unsupported feature, by its message. *)
Inductive rejection : Type :=
| UnsupportedStepType
| UnsupportedFeature
| UnsupportedSubstepType.

Definition rejection_of (e : exn) : rejection :=
  match e with
  | ValueError _ => UnsupportedStepType
  | NotImplementedError (substep_has_unexpected_type _ _ _) => UnsupportedSubstepType
  | NotImplementedError _ => UnsupportedFeature
  end.

(** *** Calls, in the order they happen

    [_run_step] and [main] run in a monad that carries, next to the
    outcome, the calls made to the functions of the harness.  The trace is
    there to state which functions ran; the source keeps no such log. *)

Inductive fn : Type :=
| fn_run_step
| fn_check_step
| fn_run_mapper
| fn_run_combiner
| fn_shuffle_and_sort
| fn_run_reducer.

Inductive event : Type := Call (f : fn) (step_num : nat).

Definition M (A : Type) : Type := (list event * result A)%type.

Definition ret {A} (a : A) : M A := ([], Ok a).

Definition bind {A B} (m : M A) (f : A -> M B) : M B :=
  match m with
  | (t, Ok a) => let (t', r) := f a in (t ++ t', r)
  | (t, Raise e) => (t, Raise e)
  end.

(** The call of [f] for step [step_num], with outcome [r]. *)
Definition call {A} (f : fn) (step_num : nat) (r : result A) : M A :=
  ([Call f step_num], r).

Definition trace {A} (m : M A) : list event := fst m.
Definition outcome {A} (m : M A) : result A := snd m.

Declare Scope harness_scope.
Delimit Scope harness_scope with harness.
Notation "x <- m ;; k" := (bind m (fun x => k))
  (at level 61, m at next level, right associativity) : harness_scope.
Notation "m ;; k" := (bind m (fun _ => k))
  (at level 61, right associativity) : harness_scope.

(** A [for] loop that rebinds one variable, in [M]. *)
Fixpoint for_loop {A S} (body : S -> A -> M S) (l : list A) (s : S) : M S :=
  match l with
  | [] => ret s
  | x :: l' => bind (body s x) (for_loop body l')
  end.

(** *** Jobs and stages *)

Section Stages.
Context {K V : Type}.
Variable K_eq_dec : forall a b : K, {a = b} + {a <> b}.
(** The default number of partitions of a shuffle, and
    [portable_hash] on decoded keys and on [bytes]. *)
Variable numPartitions : positive.
Variable hash_key : K -> nat.
Variable hash_bytes : bytes -> nat.

(** An instance of the job's class, made for one role of one step:
    the methods the harness calls. *)
Record MRJob : Type := {
  options_step_num : nat;
  sort_values : bool;
  pick_protocols : nat -> role -> (bytes -> K * V) * (K * V -> bytes);
  map_pairs : list (K * V) -> nat -> list (K * V);
  combine_pairs : list (K * V) -> nat -> list (K * V);
  (** the job's [reducer(key, values)] of a step *)
  reducer : nat -> K -> list V -> list (K * V)
}.

(** Modelled from the spec: [MRJob.reduce_pairs] is a method of the job
    (mrjob/job.py), not of the harness; the reducer logic is applied per
    group, to one contiguous run per key in the order the pairs are
    delivered, and its output pairs are chained. *)
Definition reduce_pairs (job : MRJob) (pairs : list (K * V)) (step_num : nat)
    : list (K * V) :=
  flat_map (fun g => reducer job step_num (fst g) (snd g))
           (groupby K_eq_dec pairs).

Definition _run_mapper (mapper_job : MRJob) (rdd : RDD bytes) : RDD bytes :=
  let step_num := options_step_num mapper_job in
  let (m_read, m_write) := pick_protocols mapper_job step_num mrc_mapper in
  (* run the mapper *)
  let rdd := map m_read rdd in
  let rdd := mapPartitions (fun pairs => map_pairs mapper_job pairs step_num) rdd in
  let rdd := map m_write rdd in
  rdd.

(** [_discard_key_and_flatten_values] *)
Definition _discard_key_and_flatten_values {X}
    (rdd : RDD (X * list bytes)) (sort_values : bool) : RDD bytes :=
  if sort_values then
    flatMap (fun key_and_lines => sorted (snd key_and_lines)) rdd
  else
    flatMap (fun key_and_lines => snd key_and_lines) rdd.

(** [combiner_helper] of [_run_combiner]: the list it returns, and the
    batches it has handed to the job's combiner on the way. *)
Definition combiner_helper (combiner_job : MRJob) (step_num : nat)
    (pairs1 pairs2 : list (K * V))
    : list (K * V) * list (list (K * V)) :=
  if (length pairs1 =? length pairs2) && (length pairs2 =? 1) then
    (combine_pairs combiner_job (pairs1 ++ pairs2) step_num,
     [pairs1 ++ pairs2])
  else
    (pairs1 ++ pairs2, []).

Definition _run_combiner (combiner_job : MRJob) (rdd : RDD bytes)
    (sort_values : bool) : RDD bytes :=
  let step_num := options_step_num combiner_job in
  let (c_read, c_write) := pick_protocols combiner_job step_num mrc_combiner in
  (* run the combiner *)
  let rdd := map c_read rdd in
  let combiner_helper pairs1 pairs2 :=
    fst (combiner_helper combiner_job step_num pairs1 pairs2) in
  (* include the key in our "values" *)
  let rdd := map (fun k_v => (fst k_v, k_v)) rdd in
  let rdd :=
    combineByKey K_eq_dec numPartitions hash_key
      (fun k_v => [k_v])
      (fun k_v_list k_v => combiner_helper k_v_list [k_v])
      combiner_helper
      rdd in
  (* encode our lists of key-value pairs back into lists of lines *)
  let rdd := mapValues (fun pairs => List.map c_write pairs) rdd in
  (* throw away the key and just get lists of lines *)
  let rdd := _discard_key_and_flatten_values rdd sort_values in
  rdd.


(** The same index where it cannot raise. *)
Definition line_key (line : bytes) : bytes :=
  hd [] (split_tab line).

Definition _shuffle_and_sort (rdd : RDD bytes) (sort_values : bool) : RDD bytes :=
  let rdd := groupBy bytes_eq_dec numPartitions hash_bytes line_key rdd in
  let rdd := _discard_key_and_flatten_values rdd sort_values in
  rdd.

(** [_run_reducer]; its [sort_values] argument is not used. *)
Definition _run_reducer (reducer_job : MRJob) (rdd : RDD bytes)
    (sort_values : bool) : RDD bytes :=
  let step_num := options_step_num reducer_job in
  let (r_read, r_write) := pick_protocols reducer_job step_num mrc_reducer in
  (* run the reducer *)
  let rdd := map r_read rdd in
  let rdd := mapPartitions (fun pairs => reduce_pairs reducer_job pairs step_num) rdd in
  let rdd := map r_write rdd in
  rdd.

(** *** [_run_step] and [main] *)

Local Open Scope harness_scope.

(** [make_job('--%s' % mrc, '--step-num=%d' % step_num)] *)
Variable make_job : role -> nat -> MRJob.

Definition _run_step (step : MRStep) (step_num : nat) (rdd : RDD bytes)
    : M (RDD bytes) :=
  let step_desc := description step step_num in
  call fn_check_step step_num (_check_step step_desc step_num) ;;
  (* create a separate job instance for each substep *)
  let job_for mrc :=
    if substep_truthy (get_substep step_desc mrc)
    then Some (make_job mrc step_num) else None in
  let mapper_job := job_for mrc_mapper in
  let reducer_job := job_for mrc_reducer in
  let combiner_job := job_for mrc_combiner in
  (* is SORT_VALUES enabled? *)
  let sort_values :=
    match reducer_job with
    | Some reducer_job => sort_values reducer_job
    | None => false
    end in
  rdd <- match mapper_job with
         | Some mapper_job =>
             call fn_run_mapper step_num (Ok (_run_mapper mapper_job rdd))
         | None => ret rdd
         end ;;
  rdd <- match combiner_job, reducer_job with
         | Some combiner_job, _ =>
             (* _run_combiner() includes shuffle-and-sort *)
             call fn_run_combiner step_num
                  (Ok (_run_combiner combiner_job rdd sort_values))
         | None, Some _ =>
             call fn_shuffle_and_sort step_num
                  (Ok (_shuffle_and_sort rdd sort_values))
         | None, None => ret rdd
         end ;;
  rdd <- match reducer_job with
         | Some reducer_job =>
             call fn_run_reducer step_num
                  (Ok (_run_reducer reducer_job rdd false))
         | None => ret rdd
         end ;;
  ret rdd.

(** [main], from the steps of the job ([make_job().steps()]) and the
    RDD read from the input path to the RDD that is saved;
    [start_step] and [end_step] are [args.start_step] and
    [args.end_step], [None] when the switch is not given. *)
Definition main (steps : list MRStep) (start_step end_step : option Z)
    (rdd : RDD bytes) : M (RDD bytes) :=
  (* process steps *)
  let steps_to_run := slice (enumerate steps) start_step end_step in
  for_loop
    (fun rdd step_num_and_step =>
       let (step_num, step) := step_num_and_step : nat * MRStep in
       call fn_run_step step_num (Ok tt) ;;
       _run_step step step_num rdd)
    steps_to_run rdd.

End Stages.

Arguments MRJob : clear implicits.

End Harness.
Import Harness.

(** ** Notions the properties are stated with *)

Module Props.

(** The step numbers [f] was called for, in call order. *)
Fixpoint calls_of (f : fn) (t : list event) : list nat :=
  match t with
  | [] => []
  | Call g step_num :: t' =>
      match f, g with
      | fn_run_step, fn_run_step
      | fn_check_step, fn_check_step
      | fn_run_mapper, fn_run_mapper
      | fn_run_combiner, fn_run_combiner
      | fn_shuffle_and_sort, fn_shuffle_and_sort
      | fn_run_reducer, fn_run_reducer => step_num :: calls_of f t'
      | _, _ => calls_of f t'
      end
  end.

(** A substep that is there has a type other than ['script']. *)
Definition substep_type_unsupported (d : step_desc) (mrc : role) : bool :=
  match get_substep d mrc with
  | Some ((_ :: _) as sd) => ne_str (get sd "type") "script"
  | _ => false
  end.

(** A substep that is there has a pre-filter. *)
Definition substep_has_pre_filter_set (d : step_desc) (mrc : role) : bool :=
  match get_substep d mrc with
  | Some ((_ :: _) as sd) => truthy (get sd "pre_filter")
  | _ => false
  end.

(** Records with the same key are contiguous in [l]: between two records
    with one key there are only records with that key. *)
Definition contiguous {A B} (key : A -> B) (l : list A) : Prop :=
  forall l1 x l2 y l3,
    l = l1 ++ x :: l2 ++ y :: l3 ->
    key x = key y ->
    Forall (fun z => key z = key x) l2.

(** The lines [_discard_key_and_flatten_values] emits for one group. *)
Definition emitted (sort_values : bool) (lines : list bytes) : list bytes :=
  if sort_values then sorted lines else lines.

(** Two lists with the same elements. *)
Definition same_set {A} (l1 l2 : list A) : Prop :=
  forall x, In x l1 <-> In x l2.

Section Orchestrator.
Context {K V : Type}.
Variable K_eq_dec : forall a b : K, {a = b} + {a <> b}.
Variable numPartitions : positive.
Variable hash_key : K -> nat.
Variable hash_bytes : bytes -> nat.
Variable make_job : role -> nat -> MRJob K V.

(** One turn of the loop of [main]: the call of [_run_step] for a step and
    its number. *)
Definition main_loop_body (rdd : RDD bytes) (step_num_and_step : nat * MRStep)
    : M (RDD bytes) :=
  let (step_num, step) := step_num_and_step in
  bind (call fn_run_step step_num (Ok tt))
       (fun _ => _run_step K_eq_dec numPartitions hash_key hash_bytes
                   make_job step step_num rdd).

(** The orchestrator as the specification words it: the steps of a
    range run one after the other from index [step_num] on, each on
    the collection the step before it returned. *)
Fixpoint run_steps_in_order (steps : list MRStep) (step_num : nat)
    (rdd : RDD bytes) : M (RDD bytes) :=
  match steps with
  | [] => ret rdd
  | step :: later =>
      bind (bind (call fn_run_step step_num (Ok tt))
                 (fun _ => _run_step K_eq_dec numPartitions hash_key hash_bytes
                             make_job step step_num rdd))
           (run_steps_in_order later (S step_num))
  end.
End Orchestrator.

(** The final key-to-output-set mapping of a collection of encoded
    records: [o] is an output under key [k]. *)
Definition key_output (rdd : RDD bytes) (k o : bytes) : Prop :=
  In o (collect rdd) /\ line_key o = k.

End Props.
Import Props.

(** ** What a dict and a shuffle hold, key by key *)

Module ByKey.

Section Dict.
Context {K X : Type}.
Variable K_eq_dec : forall a b : K, {a = b} + {a <> b}.

(** [d.get(k)] on a dict kept as an association list. *)
Fixpoint lookup (k : K) (d : list (K * X)) : option X :=
  match d with
  | [] => None
  | (k', x) :: d' => if K_eq_dec k' k then Some x else lookup k d'
  end.

(** The values that come with key [k], in order. *)
Definition values_of (k : K) (it : list (K * X)) : list X :=
  List.map snd
    (filter (fun kx => if K_eq_dec (fst kx) k then true else false) it).
End Dict.

Section Combiners.
Context {K V C : Type}.
Variable K_eq_dec : forall a b : K, {a = b} + {a <> b}.
Variable createCombiner : V -> C.
Variable mergeValue : C -> V -> C.
Variable mergeCombiners_ : C -> C -> C.

(** The combiner a partition holds for key [k] once it is combined
    locally: none when the key does not occur in the partition. *)
Definition local_combiner (k : K) (partition : list (K * V)) : list C :=
  match values_of K_eq_dec k partition with
  | [] => []
  | v :: vs => [fold_left mergeValue vs (createCombiner v)]
  end.

(** The combiners of key [k] that arrive at its partition. *)
Definition shuffled_combiners (k : K) (rdd : RDD (K * V)) : list C :=
  flat_map (local_combiner k) rdd.

(** The combiner the shuffle ends with for key [k]. *)
Definition final_combiner (k : K) (rdd : RDD (K * V)) : option C :=
  match shuffled_combiners k rdd with
  | [] => None
  | c :: cs => Some (fold_left mergeCombiners_ cs c)
  end.
End Combiners.

End ByKey.
Import ByKey.

(** ** The job class named on the command line *)

Module JobClass.

(** Whether [s] holds a dot. *)
Fixpoint has_dot (s : string) : bool :=
  match s with
  | EmptyString => false
  | String c rest => Ascii.eqb c "."%char || has_dot rest
  end.

(** What is before the last dot of [s] and what is after it, when [s]
    holds a dot. *)
Fixpoint split_at_last_dot (s : string) : option (string * string) :=
  match s with
  | EmptyString => None
  | String c rest =>
      match split_at_last_dot rest with
      | Some (before, after) => Some (String c before, after)
      | None => if Ascii.eqb c "."%char then Some (EmptyString, rest) else None
      end
  end.

(** [s.rsplit('.', 1)]: at most one split, at the last dot. *)
Definition rsplit_dot (s : string) : list string :=
  match split_at_last_dot s with
  | Some (before, after) => [before; after]
  | None => [s]
  end.

(** [a, b = pieces], which raises [ValueError] unless there are two
    pieces: [None] stands for the error. *)
Definition unpack_pair {A} (pieces : list A) : option (A * A) :=
  match pieces with
  | [a; b] => Some (a, b)
  | _ => None
  end.

(** [job_module_name, job_class_name = args.job_class.rsplit('.', 1)] *)
Definition job_module_and_class (job_class : string) : option (string * string) :=
  unpack_pair (rsplit_dot job_class).

End JobClass.

(** ** The parts of an encoded record *)

Module Records.

(** What follows the key of a line and its TAB: the encoded value, empty
    when the line has no TAB. *)
Definition line_value (line : bytes) : bytes :=
  skipn (S (length (line_key line))) line.

End Records.
Import Records.

(** ** A job to run: counting in unary

    Keys and counts are natural numbers.  A pair [(k, v)] is written as [k]
    bytes ['k'], a TAB and [v] bytes ['1']. *)

Module Counting.

Definition write (k_v : nat * nat) : bytes :=
  repeat x6b (fst k_v) ++ TAB :: repeat x31 (snd k_v).

Definition read (line : bytes) : nat * nat :=
  (length (line_key line), length line - S (length (line_key line))).

Definition total (values : list nat) : nat := fold_right Nat.add 0 values.

(** The combiner and the reducer both sum the values of a key. *)
Definition job (step_num : nat) : MRJob nat nat := {|
  options_step_num := step_num;
  sort_values := false;
  pick_protocols := fun _ _ => (read, write);
  map_pairs := fun pairs _ => pairs;
  combine_pairs := fun pairs _ =>
    match pairs with
    | [] => []
    | (k, _) :: _ => [(k, total (List.map snd pairs))]
    end;
  reducer := fun _ k values => [(k, total values)]
|}.

Definition make_job (mrc : role) (step_num : nat) : MRJob nat nat := job step_num.

(** A job whose combiner emits its sum under key 0, whatever the key of
    its input. *)
Definition rekeying_job (step_num : nat) : MRJob nat nat := {|
  options_step_num := step_num;
  sort_values := false;
  pick_protocols := fun _ _ => (read, write);
  map_pairs := fun pairs _ => pairs;
  combine_pairs := fun pairs _ => [(0, total (List.map snd pairs))];
  reducer := fun _ k values => [(k, total values)]
|}.

Definition script : substep_desc := [("type"%string, PyStr "script")].

Definition script_with_pre_filter : substep_desc :=
  [("type"%string, PyStr "script"); ("pre_filter"%string, PyStr "grep x")].

(** A step with a mapper, a reducer and a combiner that has a pre-filter. *)
Definition step_with_filtered_combiner : MRStep := {|
  description := fun _ => {|
    desc_type := PyStr "streaming";
    desc_input_manifest := PyNone;
    desc_mapper := Some script;
    desc_reducer := Some script;
    desc_combiner := Some script_with_pre_filter |} |}.

(** A step with a combiner and nothing else. *)
Definition step_with_combiner_only : MRStep := {|
  description := fun _ => {|
    desc_type := PyStr "streaming";
    desc_input_manifest := PyNone;
    desc_mapper := None;
    desc_reducer := None;
    desc_combiner := Some script |} |}.

(** A step with neither mapper, combiner nor reducer. *)
Definition empty_step : MRStep := {|
  description := fun _ => {|
    desc_type := PyStr "streaming";
    desc_input_manifest := PyNone;
    desc_mapper := None;
    desc_reducer := None;
    desc_combiner := None |} |}.

(** A step with a mapper and a reducer. *)
Definition map_reduce_step : MRStep := {|
  description := fun _ => {|
    desc_type := PyStr "streaming";
    desc_input_manifest := PyNone;
    desc_mapper := Some script;
    desc_reducer := Some script;
    desc_combiner := None |} |}.

(** A step that reads an input manifest. *)
Definition manifest_step : MRStep := {|
  description := fun _ => {|
    desc_type := PyStr "streaming";
    desc_input_manifest := PyBool true;
    desc_mapper := Some script;
    desc_reducer := None;
    desc_combiner := None |} |}.

(** A job of three steps, the last of which is not supported. *)
Definition three_steps : list MRStep :=
  [map_reduce_step; empty_step; manifest_step].

Definition numPartitions : positive := 2%positive.
Definition hash_key (k : nat) : nat := k.
Definition hash_bytes (b : bytes) : nat := length b.

(** Two records of key 1 in one partition. *)
Definition two_ones : RDD bytes := [[write (1, 1); write (1, 1)]].

(** Records of the keys 2, 4 and 6 in one partition: two of key 2, one of
    key 4 and two of key 6. *)
Definition three_keys : RDD bytes :=
  [[write (2, 1); write (4, 1); write (6, 1); write (2, 1); write (6, 1)]].

(** Records of two keys over two partitions. *)
Definition two_partitions : RDD bytes :=
  [[write (1, 1); write (2, 5)]; [write (1, 2)]].

End Counting.

(** ** A job to run: listing the values of a key

    The codec is that of the counting job.  The combiner hands back the
    pairs it is given, the reducer emits one pair per value, and the job
    asks for sorted values. *)

Module Listing.

Definition job (step_num : nat) : MRJob nat nat := {|
  options_step_num := step_num;
  sort_values := true;
  pick_protocols := fun _ _ => (Counting.read, Counting.write);
  map_pairs := fun pairs _ => pairs;
  combine_pairs := fun pairs _ => pairs;
  reducer := fun _ k values => List.map (fun v => (k, v)) values
|}.

Definition make_job (mrc : role) (step_num : nat) : MRJob nat nat := job step_num.

(** The values 3, 1 and 2 of key 1, in this order, in one partition. *)
Definition three_values : RDD bytes :=
  [[Counting.write (1, 3); Counting.write (1, 1); Counting.write (1, 2)]].

(** The same, with a record of key 2 in between. *)
Definition two_keys_unsorted : RDD bytes :=
  [[Counting.write (1, 3); Counting.write (2, 1);
    Counting.write (1, 1); Counting.write (1, 2)]].

(** Three records in one partition; the first and the last have the key
    bytes ['x'] and ['k'], which the counting codec decodes to the same
    key 1. *)
Definition two_spellings_of_key_1 : RDD bytes :=
  [[[x78; TAB; x31]; Counting.write (3, 1); Counting.write (1, 1)]].

End Listing.

(** * Properties *)

(** ** The merge function of the combiner stage *)

Section CombinerHelper.
Context {K V : Type}.
Variable combiner_job : MRJob K V.
Variable step_num : nat.

Lemma combiner_helper_singletons (p1 p2 : K * V) :
  combiner_helper combiner_job step_num [p1] [p2]
  = (combine_pairs combiner_job [p1; p2] step_num, [[p1; p2]]).
Proof. reflexivity. Qed.

Lemma combiner_helper_concat (pairs1 pairs2 : list (K * V)) :
  ~ (length pairs1 = 1 /\ length pairs2 = 1) ->
  combiner_helper combiner_job step_num pairs1 pairs2 = (pairs1 ++ pairs2, []).
Proof.
  intros Hn. unfold combiner_helper.
  destruct (length pairs1 =? length pairs2) eqn:E1;
    destruct (length pairs2 =? 1) eqn:E2; simpl; try reflexivity.
  apply Nat.eqb_eq in E1, E2. exfalso. apply Hn. lia.
Qed.

(** C2: merging two accumulators of length exactly 1 hands the
    two-element batch [pairs1 + pairs2] to the job's combiner, once, and
    returns its output; in every other case the merge returns the
    concatenation of the two lists and the combiner is not called. *)
Theorem combiner_helper_cases (pairs1 pairs2 : list (K * V)) :
  (length pairs1 = 1 /\ length pairs2 = 1 ->
   length (pairs1 ++ pairs2) = 2 /\
   combiner_helper combiner_job step_num pairs1 pairs2
   = (combine_pairs combiner_job (pairs1 ++ pairs2) step_num,
      [pairs1 ++ pairs2]))
  /\
  (~ (length pairs1 = 1 /\ length pairs2 = 1) ->
   combiner_helper combiner_job step_num pairs1 pairs2
   = (pairs1 ++ pairs2, [])).
Proof.
  split.
  - intros [H1 H2].
    destruct pairs1 as [|p1 [|? ?]]; try discriminate H1.
    destruct pairs2 as [|p2 [|? ?]]; try discriminate H2.
    split; [reflexivity | apply combiner_helper_singletons].
  - apply combiner_helper_concat.
Qed.

End CombinerHelper.

(** ** The step validator *)

Section CheckStep.

Ltac case_substep sd :=
  destruct sd as [[|[? ?] ?]|]; simpl;
  repeat match goal with
  | |- context [ne_str ?a ?s] => destruct (ne_str a s) eqn:?; simpl
  | |- context [truthy ?a] => destruct (truthy a) eqn:?; simpl
  end.

(** What [_check_step] returns, check after check. *)
Lemma check_step_unfold (d : step_desc) (step_num : nat) :
  _check_step d step_num =
    if ne_str (desc_type d) "streaming" then
      Raise (ValueError (step_has_unexpected_type step_num (desc_type d)))
    else if truthy (desc_input_manifest d) then
      Raise (NotImplementedError step_uses_input_manifest)
    else if substep_type_unsupported d mrc_mapper then
      Raise (NotImplementedError
               (substep_has_unexpected_type step_num mrc_mapper
                  (get (match desc_mapper d with Some sd => sd | None => [] end)
                       "type")))
    else if substep_has_pre_filter_set d mrc_mapper then
      Raise (NotImplementedError (substep_has_pre_filter step_num mrc_mapper))
    else if substep_type_unsupported d mrc_reducer then
      Raise (NotImplementedError
               (substep_has_unexpected_type step_num mrc_reducer
                  (get (match desc_reducer d with Some sd => sd | None => [] end)
                       "type")))
    else if substep_has_pre_filter_set d mrc_reducer then
      Raise (NotImplementedError (substep_has_pre_filter step_num mrc_reducer))
    else Ok tt.
Proof.
  destruct d as [ty man m r c].
  unfold _check_step, substep_type_unsupported, substep_has_pre_filter_set; simpl.
  destruct (ne_str ty "streaming"); [reflexivity|].
  destruct (truthy man); [reflexivity|].
  case_substep m; try reflexivity; case_substep r; reflexivity.
Qed.

End CheckStep.

Section CheckStepRejections.

Local Ltac crush_check :=
  repeat match goal with
  | H : exists _, _ |- _ => destruct H
  | H : _ /\ _ |- _ => destruct H
  | H : Raise _ = Raise _ |- _ => injection H as H; subst
  | H : Raise _ = Ok _ |- _ => discriminate H
  | H : Ok _ = Raise _ |- _ => discriminate H
  | H : true = false |- _ => discriminate H
  | H : false = true |- _ => discriminate H
  | H : ~ (true = true) |- _ => exfalso; apply H; reflexivity
  | H : ~ (_ \/ _) |- _ => apply Decidable.not_or in H
  | H : rejection_of _ = _ |- _ => simpl in H; discriminate H
  | H : _ \/ _ |- _ => destruct H
  | |- ~ _ => intro
  | |- _ /\ _ => split
  | |- _ <-> _ => split; intro
  | |- _ -> _ => intro
  | |- exists e, Raise ?x = Raise e /\ _ => exists x; split; reflexivity
  | |- exists e, Raise ?x = Raise e => exists x; reflexivity
  | |- _ = _ => reflexivity
  | |- _ = _ \/ _ => first [left; reflexivity | right]
  end.

(** C5: [_check_step] fails with [UnsupportedStepType] exactly when the
    step type is not ["streaming"]; it fails when the input-manifest flag
    is set (with [UnsupportedFeature], the step type being checked
    first), when a mapper or reducer substep that is there has a type
    other than ["script"], and when one has a pre-filter;
    [UnsupportedSubstepType] is raised only for such a type and
    [UnsupportedFeature] only for a manifest or a pre-filter, and each is
    what is raised when no other flaw is there; in every other case it
    returns without raising.  It has no effect, and in
    [_run_step] a failure comes before any stage is built: the only call
    made is the one to [_check_step]. *)
Theorem check_step_rejections (d : step_desc) (step_num : nat) :
  let fails := exists e, _check_step d step_num = Raise e in
  let fails_with r :=
    exists e, _check_step d step_num = Raise e /\ rejection_of e = r in
  let not_streaming := ne_str (desc_type d) "streaming" = true in
  let manifest := truthy (desc_input_manifest d) = true in
  let bad_type :=
    substep_type_unsupported d mrc_mapper = true \/
    substep_type_unsupported d mrc_reducer = true in
  let pre_filter :=
    substep_has_pre_filter_set d mrc_mapper = true \/
    substep_has_pre_filter_set d mrc_reducer = true in
  (fails_with UnsupportedStepType <-> not_streaming) /\
  (manifest -> fails) /\
  (bad_type -> fails) /\
  (pre_filter -> fails) /\
  (~ not_streaming -> manifest -> fails_with UnsupportedFeature) /\
  (~ not_streaming -> ~ manifest -> bad_type -> ~ pre_filter ->
   fails_with UnsupportedSubstepType) /\
  (~ not_streaming -> ~ manifest -> pre_filter -> ~ bad_type ->
   fails_with UnsupportedFeature) /\
  (fails_with UnsupportedSubstepType -> ~ not_streaming /\ bad_type) /\
  (fails_with UnsupportedFeature -> ~ not_streaming /\ (manifest \/ pre_filter)) /\
  (_check_step d step_num = Ok tt <->
   ~ not_streaming /\ ~ manifest /\ ~ bad_type /\ ~ pre_filter) /\
  (forall (K V : Type) (K_eq_dec : forall a b : K, {a = b} + {a <> b})
          numPartitions hash_key hash_bytes (make_job : role -> nat -> MRJob K V)
          (step : MRStep) rdd e,
      description step step_num = d ->
      _check_step d step_num = Raise e ->
      _run_step K_eq_dec numPartitions hash_key hash_bytes make_job
                step step_num rdd
      = ([Call fn_check_step step_num], Raise e)).
Proof.
  cbv zeta.
  assert (Hrun :
    forall (K V : Type) (K_eq_dec : forall a b : K, {a = b} + {a <> b})
           numPartitions hash_key hash_bytes (make_job : role -> nat -> MRJob K V)
           (step : MRStep) rdd e,
      description step step_num = d ->
      _check_step d step_num = Raise e ->
      _run_step K_eq_dec numPartitions hash_key hash_bytes make_job
                step step_num rdd
      = ([Call fn_check_step step_num], Raise e)).
  { intros K V ? ? ? ? ? step rdd e Hd He. unfold _run_step.
    rewrite Hd, He. reflexivity. }
  repeat apply conj; try exact Hrun; clear Hrun;
    rewrite ?check_step_unfold;
    destruct (ne_str (desc_type d) "streaming") eqn:E1;
    destruct (truthy (desc_input_manifest d)) eqn:E2;
    destruct (substep_type_unsupported d mrc_mapper) eqn:E3;
    destruct (substep_has_pre_filter_set d mrc_mapper) eqn:E4;
    destruct (substep_type_unsupported d mrc_reducer) eqn:E5;
    destruct (substep_has_pre_filter_set d mrc_reducer) eqn:E6;
    crush_check.
Qed.

End CheckStepRejections.

(** ** The orchestrator *)

Section Monad.

Lemma bind_ext {A B} (m : M A) (f g : A -> M B) :
  (forall a, f a = g a) -> bind m f = bind m g.
Proof.
  intros H. destruct m as [t [a|e]]; simpl; [rewrite H|]; reflexivity.
Qed.

Lemma trace_bind {A B} (m : M A) (f : A -> M B) :
  trace (bind m f) =
    trace m ++ match outcome m with
               | Ok a => trace (f a)
               | Raise _ => []
               end.
Proof.
  destruct m as [t [a|e]]; simpl.
  - destruct (f a); reflexivity.
  - symmetry; apply app_nil_r.
Qed.

Lemma outcome_bind {A B} (m : M A) (f : A -> M B) :
  outcome (bind m f) =
    match outcome m with
    | Ok a => outcome (f a)
    | Raise e => Raise e
    end.
Proof.
  destruct m as [t [a|e]]; simpl; [destruct (f a)|]; reflexivity.
Qed.

Lemma calls_of_app (f : fn) (t1 t2 : list event) :
  calls_of f (t1 ++ t2) = calls_of f t1 ++ calls_of f t2.
Proof.
  induction t1 as [|[g n] t1 IH]; simpl; [reflexivity|].
  destruct f, g; simpl; rewrite IH; reflexivity.
Qed.

End Monad.

Section Slices.
Context {A : Type}.

Lemma slice_bound_range (len default : Z) (x : option Z) :
  (0 <= default <= len)%Z -> (0 <= slice_bound len default x <= len)%Z.
Proof.
  intros H. destruct x as [i|]; simpl; [|exact H].
  destruct (i <? 0)%Z eqn:E; [apply Z.ltb_lt in E | apply Z.ltb_ge in E]; lia.
Qed.

Lemma skipn_combine {X Y} (n : nat) (l : list X) (l' : list Y) :
  skipn n (combine l l') = combine (skipn n l) (skipn n l').
Proof.
  revert l l'; induction n as [|n IH]; intros l l'; [reflexivity|].
  destruct l as [|a l]; [reflexivity|].
  destruct l' as [|b l']; simpl; [|apply IH].
  destruct (skipn n l); reflexivity.
Qed.

Lemma firstn_seq (n start len : nat) :
  firstn n (seq start len) = seq start (Nat.min n len).
Proof.
  revert start len; induction n as [|n IH]; intros start len; [reflexivity|].
  destruct len as [|len]; simpl; [reflexivity|]. rewrite IH. reflexivity.
Qed.

(** The steps a slice of [enumerate l] selects, with their indices. *)
Lemma slice_enumerate (l : list A) (start stop : option Z) :
  let len := Z.of_nat (length l) in
  let lo := Z.to_nat (slice_bound len 0 start) in
  let hi := Z.to_nat (slice_bound len len stop) in
  slice (enumerate l) start stop
  = combine (seq lo (hi - lo)) (firstn (hi - lo) (skipn lo l)).
Proof.
  intros len lo hi. unfold slice, enumerate.
  rewrite length_combine, length_seq, Nat.min_id. fold len.
  pose proof (slice_bound_range start (default := 0%Z) (len := len)) as Hlo.
  pose proof (slice_bound_range stop (default := len) (len := len)) as Hhi.
  assert (Hlen : (0 <= len)%Z) by (unfold len; lia).
  specialize (Hlo ltac:(lia)). specialize (Hhi ltac:(lia)).
  rewrite Z2Nat.inj_sub by lia. fold lo hi.
  rewrite skipn_combine, combine_firstn, skipn_seq, firstn_seq.
  f_equal. f_equal.
  assert (hi <= length l) by (unfold hi, len in *; lia).
  lia.
Qed.

Lemma in_combine_seq (lo n : nat) (sub : list A) (i : nat) (x : A) :
  In (i, x) (combine (seq lo n) sub) ->
  lo <= i < lo + n /\ nth_error sub (i - lo) = Some x.
Proof.
  revert lo sub; induction n as [|n IH]; intros lo sub Hin; simpl in Hin.
  - contradiction.
  - destruct sub as [|y sub]; [contradiction|].
    destruct Hin as [Heq | Hin].
    + injection Heq as -> ->. rewrite Nat.sub_diag. split; [lia | reflexivity].
    + apply IH in Hin. destruct Hin as [Hr Hn]. split; [lia|].
      replace (i - lo) with (S (i - S lo)) by lia. exact Hn.
Qed.

End Slices.

Section RunStep.
Context {K V : Type}.
Variable K_eq_dec : forall a b : K, {a = b} + {a <> b}.
Variable numPartitions : positive.
Variable hash_key : K -> nat.
Variable hash_bytes : bytes -> nat.
Variable make_job : role -> nat -> MRJob K V.

Local Abbreviation run_step :=
  (_run_step K_eq_dec numPartitions hash_key hash_bytes make_job).
Local Abbreviation body :=
  (main_loop_body K_eq_dec numPartitions hash_key hash_bytes make_job).

(** A step that is rejected makes one call, to [_check_step]; a step
    that passes goes on to its stages, none of which is [_run_step] or
    [_check_step]. *)
Lemma run_step_outcome (step : MRStep) (step_num : nat) (rdd : RDD bytes) :
  match _check_step (description step step_num) step_num with
  | Raise e => run_step step step_num rdd = ([Call fn_check_step step_num], Raise e)
  | Ok _ =>
      exists t out,
        run_step step step_num rdd = (Call fn_check_step step_num :: t, Ok out) /\
        calls_of fn_run_step t = [] /\ calls_of fn_check_step t = []
  end.
Proof.
  unfold run_step, _run_step.
  destruct (_check_step (description step step_num) step_num) as [[]|e];
    [|reflexivity].
  destruct (substep_truthy (get_substep (description step step_num) mrc_mapper));
    destruct (substep_truthy (get_substep (description step step_num) mrc_reducer));
    destruct (substep_truthy (get_substep (description step step_num) mrc_combiner));
    simpl; eexists; eexists; (split; [reflexivity|]); split; reflexivity.
Qed.

(** The loop of [main] over any list of numbered steps: [_check_step] is
    called for the steps [_run_step] is called for; these are the first
    steps of the list, in order, and all of them when the loop returns;
    the loop raises what [_check_step] raises for one of the steps of the
    list, and returns when every step of the list passes. *)
Lemma main_loop_body_eq (rdd : RDD bytes) (step_num : nat) (step : MRStep) :
  body rdd (step_num, step)
  = (Call fn_run_step step_num :: trace (run_step step step_num rdd),
     outcome (run_step step step_num rdd)).
Proof.
  unfold main_loop_body, bind, call, trace, outcome.
  destruct (_run_step _ _ _ _ _ _ _ _); reflexivity.
Qed.

Lemma main_loop_calls (l : list (nat * MRStep)) (rdd : RDD bytes) :
  let m := for_loop body l rdd in
  calls_of fn_check_step (trace m) = calls_of fn_run_step (trace m) /\
  (exists k, k <= length l /\
             calls_of fn_run_step (trace m) = List.map fst (firstn k l) /\
             (forall out, outcome m = Ok out -> k = length l)) /\
  (forall e, outcome m = Raise e ->
             exists step_num step,
               In (step_num, step) l /\
               _check_step (description step step_num) step_num = Raise e) /\
  ((forall step_num step,
       In (step_num, step) l ->
       _check_step (description step step_num) step_num = Ok tt) ->
   exists out, outcome m = Ok out).
Proof.
  cbv zeta.
  revert rdd; induction l as [|[step_num step] l IH]; intros rdd; cbn [for_loop].
  - split; [reflexivity|]. split.
    + exists 0. repeat split; auto.
    + split; [intros e H; discriminate H | intros _; eexists; reflexivity].
  - rewrite trace_bind, outcome_bind, main_loop_body_eq.
    cbn [trace outcome fst snd].
    pose proof (run_step_outcome step step_num rdd) as Hstep.
    destruct (_check_step (description step step_num) step_num) as [[]|e] eqn:Hc.
    + destruct Hstep as (t & out & Hrun & Ht1 & Ht2).
      rewrite Hrun. cbn [trace outcome fst snd].
      destruct (IH out) as (IH1 & (k & Hk & IH2 & IH3) & IH4 & IH5).
      change (Call fn_run_step step_num :: Call fn_check_step step_num :: t)
        with ([Call fn_run_step step_num; Call fn_check_step step_num] ++ t).
      rewrite !calls_of_app, Ht1, Ht2.
      cbn [calls_of app length].
      split; [f_equal; exact IH1|]. split.
      * exists (S k). split; [lia|]. cbn [firstn List.map fst].
        split; [f_equal; exact IH2|].
        intros out' Ho. f_equal. eapply IH3; eassumption.
      * split.
        -- intros e He. destruct (IH4 e He) as (n & s & Hin & Hch).
           exists n, s. split; [right; exact Hin | exact Hch].
        -- intros Hall. apply IH5. intros n s Hin. apply Hall. right; exact Hin.
    + rewrite Hstep. cbn [trace outcome fst snd calls_of app length].
      split; [reflexivity|]. split.
      * exists 1. split; [lia|]. split; [reflexivity|].
        intros out Ho; discriminate Ho.
      * split.
        -- intros e' He'. injection He' as <-.
           exists step_num, step. split; [left; reflexivity | exact Hc].
        -- intros Hall. rewrite (Hall step_num step (or_introl eq_refl)) in Hc.
           discriminate Hc.
Qed.

(** The loop over consecutive indices is the orchestrator of the
    specification. *)
Lemma main_loop_in_order (sub : list MRStep) (lo n : nat) (rdd : RDD bytes) :
  length sub <= n ->
  for_loop body (combine (seq lo n) sub) rdd
  = run_steps_in_order K_eq_dec numPartitions hash_key hash_bytes make_job
      sub lo rdd.
Proof.
  revert lo n rdd; induction sub as [|step sub IH]; intros lo n rdd Hlen.
  - destruct n; reflexivity.
  - destruct n as [|n]; [simpl in Hlen; lia|]. simpl.
    apply bind_ext. intros rdd'. apply IH. simpl in Hlen. lia.
Qed.

Lemma main_unfold (steps : list MRStep) (start_step end_step : option Z)
    (rdd : RDD bytes) :
  main K_eq_dec numPartitions hash_key hash_bytes make_job
       steps start_step end_step rdd
  = for_loop body (slice (enumerate steps) start_step end_step) rdd.
Proof. reflexivity. Qed.

End RunStep.

Section Orchestrator.
Context {K V : Type}.
Variable K_eq_dec : forall a b : K, {a = b} + {a <> b}.
Variable numPartitions : positive.
Variable hash_key : K -> nat.
Variable hash_bytes : bytes -> nat.
Variable make_job : role -> nat -> MRJob K V.

Lemma map_fst_firstn_combine_seq {A} (k lo n : nat) (sub : list A) :
  k <= length sub -> length sub <= n ->
  List.map fst (firstn k (combine (seq lo n) sub)) = seq lo k.
Proof.
  revert lo n sub; induction k as [|k IH]; intros lo n sub Hk Hn; [reflexivity|].
  destruct sub as [|x sub]; [simpl in Hk; lia|].
  destruct n as [|n]; [simpl in Hn; lia|]. simpl in *.
  f_equal. apply IH; lia.
Qed.

Lemma in_selected_steps (steps : list MRStep) (lo hi n : nat) (step : MRStep) :
  In (n, step) (combine (seq lo (hi - lo)) (firstn (hi - lo) (skipn lo steps))) ->
  lo <= n < hi /\ nth_error steps n = Some step.
Proof.
  intros Hin. apply in_combine_seq in Hin. destruct Hin as [Hr Hn].
  split; [lia|].
  rewrite nth_error_firstn in Hn.
  destruct (n - lo <? hi - lo); [|discriminate Hn].
  rewrite nth_error_skipn in Hn.
  replace (lo + (n - lo)) with n in Hn by lia. exact Hn.
Qed.

(** C7: for a job with [N] steps and [0 <= i <= j <= N], [main] with
    [--start-step=i --end-step=j] runs the steps with the indices of
    [[i, j)] and no other: the steps to run are [steps[i]], ...,
    [steps[j-1]] under their own indices; [main] is the orchestrator that
    runs them in increasing order, each on the collection the step before
    it returned; the calls of [_run_step] are for [i, i+1, ...] and for no
    other index, and they are exactly [i, ..., j-1] when [main] returns,
    as it does when [_check_step] accepts the steps of the range (a step
    that is rejected raises, which ends the run). *)
Theorem main_runs_selected_range (steps : list MRStep) (i j : Z)
    (rdd : RDD bytes) :
  (0 <= i <= j)%Z -> (j <= Z.of_nat (length steps))%Z ->
  let m := main K_eq_dec numPartitions hash_key hash_bytes make_job
                steps (Some i) (Some j) rdd in
  let lo := Z.to_nat i in
  let hi := Z.to_nat j in
  let selected := firstn (hi - lo) (skipn lo steps) in
  slice (enumerate steps) (Some i) (Some j)
  = combine (seq lo (hi - lo)) selected /\
  length selected = hi - lo /\
  (forall k, k < hi - lo -> nth_error selected k = nth_error steps (lo + k)) /\
  m = run_steps_in_order K_eq_dec numPartitions hash_key hash_bytes make_job
        selected lo rdd /\
  (exists k, k <= hi - lo /\
             calls_of fn_run_step (trace m) = seq lo k /\
             (forall out, outcome m = Ok out -> k = hi - lo)) /\
  ((forall n step,
       lo <= n < hi -> nth_error steps n = Some step ->
       _check_step (description step n) n = Ok tt) ->
   calls_of fn_run_step (trace m) = seq lo (hi - lo) /\
   exists out, outcome m = Ok out).
Proof.
  intros Hij HjN m lo hi selected.
  assert (Hslice : slice (enumerate steps) (Some i) (Some j)
                   = combine (seq lo (hi - lo)) selected).
  { rewrite slice_enumerate. simpl.
    destruct (i <? 0)%Z eqn:Ei; [apply Z.ltb_lt in Ei; lia|].
    destruct (j <? 0)%Z eqn:Ej; [apply Z.ltb_lt in Ej; lia|].
    rewrite !Z.min_l by lia. reflexivity. }
  assert (Hlen : length selected = hi - lo).
  { unfold selected. rewrite length_firstn, length_skipn. unfold lo, hi. lia. }
  split; [exact Hslice|]. split; [exact Hlen|]. split.
  { intros k Hk. unfold selected. rewrite nth_error_firstn.
    apply Nat.ltb_lt in Hk. rewrite Hk. apply nth_error_skipn. }
  split.
  { unfold m. rewrite main_unfold, Hslice. apply main_loop_in_order. lia. }
  pose proof (main_loop_calls K_eq_dec numPartitions hash_key hash_bytes make_job
                (combine (seq lo (hi - lo)) selected) rdd) as Hloop.
  cbv zeta in Hloop. destruct Hloop as (_ & (k & Hk & Hcalls & Hall) & _ & Hok).
  rewrite length_combine, length_seq, Hlen, Nat.min_id in Hk, Hall.
  assert (Hseq : List.map fst (firstn k (combine (seq lo (hi - lo)) selected))
                 = seq lo k)
    by (apply map_fst_firstn_combine_seq; lia).
  unfold m. rewrite main_unfold, Hslice. split.
  - exists k. split; [exact Hk|]. split; [|exact Hall].
    rewrite Hcalls. exact Hseq.
  - intros Hpass.
    destruct Hok as [out Hout].
    { intros n step Hin. apply in_selected_steps in Hin.
      apply Hpass; tauto. }
    split; [|exists out; exact Hout].
    rewrite Hcalls, Hseq, (Hall out Hout). reflexivity.
Qed.

(** C10: [_check_step] is called for the steps [_run_step] is called
    for, all of them inside the selected range; [main] raises only what
    [_check_step] raises for a step of the range, and returns when every
    step of the range passes, so a step outside the range, whatever its
    description, never makes the job abort: two lists of steps of one
    length that agree on the range run alike. *)
Theorem check_step_only_for_selected_steps (steps : list MRStep)
    (start_step end_step : option Z) (rdd : RDD bytes) :
  let m := main K_eq_dec numPartitions hash_key hash_bytes make_job
                steps start_step end_step rdd in
  let len := Z.of_nat (length steps) in
  let lo := Z.to_nat (slice_bound len 0 start_step) in
  let hi := Z.to_nat (slice_bound len len end_step) in
  calls_of fn_check_step (trace m) = calls_of fn_run_step (trace m) /\
  (forall n, In n (calls_of fn_check_step (trace m)) -> lo <= n < hi) /\
  (forall e, outcome m = Raise e ->
             exists n step,
               lo <= n < hi /\ nth_error steps n = Some step /\
               _check_step (description step n) n = Raise e) /\
  ((forall n step,
       lo <= n < hi -> nth_error steps n = Some step ->
       _check_step (description step n) n = Ok tt) ->
   exists out, outcome m = Ok out) /\
  (forall steps' : list MRStep,
      length steps' = length steps ->
      (forall n, lo <= n < hi -> nth_error steps' n = nth_error steps n) ->
      main K_eq_dec numPartitions hash_key hash_bytes make_job
           steps' start_step end_step rdd = m).
Proof.
  intros m len lo hi.
  pose proof (main_loop_calls K_eq_dec numPartitions hash_key hash_bytes make_job
                (slice (enumerate steps) start_step end_step) rdd) as Hloop.
  cbv zeta in Hloop.
  destruct Hloop as (Hsame & (k & Hk & Hcalls & _) & Hraise & Hok).
  pose proof (slice_enumerate steps start_step end_step) as Hslice.
  cbv zeta in Hslice. fold len lo hi in Hslice.
  unfold m. rewrite main_unfold.
  split; [exact Hsame|]. split.
  { intros n Hn. rewrite Hsame, Hcalls in Hn.
    apply in_map_iff in Hn. destruct Hn as ([n' step] & Heq & Hin).
    simpl in Heq; subst n'.
    assert (Hin' : In (n, step) (slice (enumerate steps) start_step end_step)).
    { rewrite <- (firstn_skipn k). apply in_or_app. left; exact Hin. }
    rewrite Hslice in Hin'. apply in_selected_steps in Hin'. tauto. }
  split.
  { intros e He. destruct (Hraise e He) as (n & step & Hin & Hc).
    rewrite Hslice in Hin. apply in_selected_steps in Hin.
    exists n, step. tauto. }
  split.
  { intros Hall. apply Hok. intros n step Hin.
    rewrite Hslice in Hin. apply in_selected_steps in Hin.
    apply Hall; tauto. }
  intros steps' Hlen Hsame'. rewrite main_unfold.
  f_equal. rewrite Hslice, slice_enumerate. cbv zeta. rewrite Hlen.
  fold len lo hi. f_equal. apply nth_error_ext. intros n.
  rewrite !nth_error_firstn.
  destruct (n <? hi - lo) eqn:E; [|reflexivity].
  apply Nat.ltb_lt in E. rewrite !nth_error_skipn. apply Hsame'. lia.
Qed.

(** C8 as amended: a step whose description passes [_check_step] and has
    no mapper, no reducer and no combiner is a passthrough: [_run_step]
    returns its input collection, and calls nothing but [_check_step]. *)
Theorem run_step_passthrough (step : MRStep) (step_num : nat) (rdd : RDD bytes) :
  _check_step (description step step_num) step_num = Ok tt ->
  substep_truthy (get_substep (description step step_num) mrc_mapper) = false ->
  substep_truthy (get_substep (description step step_num) mrc_reducer) = false ->
  substep_truthy (get_substep (description step step_num) mrc_combiner) = false ->
  _run_step K_eq_dec numPartitions hash_key hash_bytes make_job step step_num rdd
  = ([Call fn_check_step step_num], Ok rdd).
Proof.
  intros Hc Hm Hr Hcomb. unfold _run_step. rewrite Hc, Hm, Hr, Hcomb.
  reflexivity.
Qed.

End Orchestrator.

(** ** The orchestrator on the counting job *)

Section CountingRuns.
Import Counting.

Lemma main_runs_selected_range_witness :
  ((0 <= 1 <= 2)%Z /\ (2 <= Z.of_nat (length three_steps))%Z) /\
  slice (enumerate three_steps) (Some 1%Z) (Some 2%Z) = [(1, empty_step)].
Proof.
  split; [split; [lia | simpl; lia]|].
  exact (proj1 (main_runs_selected_range Nat.eq_dec numPartitions hash_key
                  hash_bytes make_job three_steps (i := 1) (j := 2)
                  two_partitions
                  ltac:(lia) ltac:(simpl; lia))).
Defined.

Lemma run_step_passthrough_witness :
  _run_step Nat.eq_dec numPartitions hash_key hash_bytes make_job
            empty_step 0 two_partitions
  = ([Call fn_check_step 0], Ok two_partitions).
Proof.
  apply run_step_passthrough; reflexivity.
Defined.

(** A job of three steps with [--start-step=1 --end-step=2] runs step 1
    and no other. *)
Example main_runs_step_1_only :
  calls_of fn_run_step
    (trace (main Nat.eq_dec numPartitions hash_key hash_bytes make_job
                 three_steps (Some 1%Z) (Some 2%Z) two_partitions))
  = [1].
Proof. reflexivity. Qed.

(** The last of the three steps reads an input manifest: the job runs
    when the range leaves the step out, and is rejected when it does not. *)
Example main_ignores_step_out_of_range :
  (exists out,
      outcome (main Nat.eq_dec numPartitions hash_key hash_bytes make_job
                    three_steps (Some 0%Z) (Some 2%Z) two_partitions)
      = Ok out) /\
  outcome (main Nat.eq_dec numPartitions hash_key hash_bytes make_job
                three_steps None None two_partitions)
  = Raise (NotImplementedError step_uses_input_manifest).
Proof.
  split; [eexists|]; vm_compute; reflexivity.
Qed.

(** A step with a combiner and neither mapper nor reducer passes
    [_check_step], and [_run_step] runs the combiner stage on its input:
    the two records of key 1 come back as one. *)
Lemma run_step_combiner_only_transforms :
  _check_step (description step_with_combiner_only 0) 0 = Ok tt /\
  substep_truthy (get_substep (description step_with_combiner_only 0) mrc_mapper)
  = false /\
  substep_truthy (get_substep (description step_with_combiner_only 0) mrc_reducer)
  = false /\
  _run_step Nat.eq_dec numPartitions hash_key hash_bytes make_job
            step_with_combiner_only 0 two_ones
  = ([Call fn_check_step 0; Call fn_run_combiner 0], Ok [[]; [write (1, 2)]]) /\
  outcome (_run_step Nat.eq_dec numPartitions hash_key hash_bytes make_job
                     step_with_combiner_only 0 two_ones)
  <> Ok two_ones.
Proof.
  repeat split; try reflexivity.
  vm_compute. intros H. discriminate H.
Qed.

(** C6 on the code: [_check_step] does not look at the combiner, and
    [_run_step] builds the combiner stage for every step whose description
    has a combiner, whatever the combiner's type or pre-filter: it calls
    [_run_combiner] and never [_shuffle_and_sort].  So for a step whose
    combiner has a pre-filter: the step passes [_check_step], the job's
    combiner is handed the two records of key 1, and the stage returns one
    record where the shuffle-and-sort returns two. *)
Theorem run_step_runs_malformed_combiner :
  (forall (K V : Type) (K_eq_dec : forall a b : K, {a = b} + {a <> b})
          numPartitions hash_key hash_bytes (make_job : role -> nat -> MRJob K V)
          (step : MRStep) (step_num : nat) (rdd : RDD bytes),
      _check_step (description step step_num) step_num = Ok tt ->
      substep_truthy (get_substep (description step step_num) mrc_combiner)
      = true ->
      calls_of fn_run_combiner
        (trace (_run_step K_eq_dec numPartitions hash_key hash_bytes make_job
                          step step_num rdd)) = [step_num] /\
      calls_of fn_shuffle_and_sort
        (trace (_run_step K_eq_dec numPartitions hash_key hash_bytes make_job
                          step step_num rdd)) = []) /\
  _check_step (description step_with_filtered_combiner 0) 0 = Ok tt /\
  substep_has_pre_filter_set (description step_with_filtered_combiner 0)
                             mrc_combiner = true /\
  trace (_run_step Nat.eq_dec numPartitions hash_key hash_bytes make_job
                   step_with_filtered_combiner 0 two_ones)
  = [Call fn_check_step 0; Call fn_run_mapper 0;
     Call fn_run_combiner 0; Call fn_run_reducer 0] /\
  snd (combiner_helper (make_job mrc_combiner 0) 0 [(1, 1)] [(1, 1)])
  = [[(1, 1); (1, 1)]] /\
  _run_combiner Nat.eq_dec numPartitions hash_key
                (make_job mrc_combiner 0) two_ones false
  = [[]; [write (1, 2)]] /\
  _shuffle_and_sort numPartitions hash_bytes two_ones false
  = [[]; [write (1, 1); write (1, 1)]].
Proof.
  split.
  - intros K V K_eq_dec n hk hb mk step step_num rdd Hc Hcomb.
    unfold _run_step. rewrite Hc, Hcomb.
    destruct (substep_truthy (get_substep (description step step_num) mrc_mapper));
      destruct (substep_truthy (get_substep (description step step_num) mrc_reducer));
      split; reflexivity.
  - repeat split; vm_compute; reflexivity.
Qed.

End CountingRuns.

(** ** Byte strings: order, sorting, keys *)

Section BytesFacts.

Lemma bytes_leb_total (a b : bytes) :
  bytes_leb a b = false -> bytes_leb b a = true.
Proof.
  revert b; induction a as [|x a IH]; intros [|y b]; simpl; try discriminate.
  - reflexivity.
  - destruct (N.ltb_spec (Byte.to_N x) (Byte.to_N y)) as [Hlt|Hge];
      [discriminate|].
    destruct (N.eqb_spec (Byte.to_N x) (Byte.to_N y)) as [Heq|Hne].
    + intros H. rewrite Heq, N.ltb_irrefl, N.eqb_refl. apply IH; exact H.
    + intros _. destruct (N.ltb_spec (Byte.to_N y) (Byte.to_N x)); [reflexivity|lia].
Qed.

Lemma to_N_inj (x y : byte) : Byte.to_N x = Byte.to_N y -> x = y.
Proof.
  intros H. pose proof (Byte.of_to_N x) as Hx. rewrite H, Byte.of_to_N in Hx.
  congruence.
Qed.

(** [bytes_leb] decides the lexicographic order. *)
Lemma bytes_le_lex (a b : bytes) : bytes_le a b <-> lex_le a b.
Proof.
  unfold bytes_le. split.
  - revert b; induction a as [|x a IH]; intros [|y b]; simpl; intros H;
      [constructor | constructor | discriminate H |].
    destruct (N.ltb_spec (Byte.to_N x) (Byte.to_N y)) as [Hlt|Hge];
      [apply lex_le_lt; exact Hlt|].
    destruct (N.eqb_spec (Byte.to_N x) (Byte.to_N y)) as [Heq|Hne];
      [|discriminate H].
    apply to_N_inj in Heq. subst y. apply lex_le_eq. apply IH; exact H.
  - induction 1 as [b|x y a b Hlt|x a b Hle IH]; simpl.
    + reflexivity.
    + apply N.ltb_lt in Hlt. rewrite Hlt. reflexivity.
    + rewrite N.ltb_irrefl, N.eqb_refl. exact IH.
Qed.

Lemma insert_sorted_perm (x : bytes) (l : list bytes) :
  Permutation (x :: l) (insert_sorted x l).
Proof.
  induction l as [|y l IH]; simpl; [reflexivity|].
  destruct (bytes_leb x y); [reflexivity|].
  rewrite perm_swap. apply perm_skip; exact IH.
Qed.

Lemma insert_sorted_hd (x y : bytes) (l : list bytes) :
  bytes_le y x -> HdRel bytes_le y l -> HdRel bytes_le y (insert_sorted x l).
Proof.
  intros Hyx Hhd. destruct l as [|z l]; simpl.
  - constructor; exact Hyx.
  - destruct (bytes_leb x z); constructor; [exact Hyx|].
    inversion Hhd; assumption.
Qed.

Lemma insert_sorted_sorted (x : bytes) (l : list bytes) :
  Sorted bytes_le l -> Sorted bytes_le (insert_sorted x l).
Proof.
  induction 1 as [|y l Hs IH Hhd]; simpl.
  - repeat constructor.
  - destruct (bytes_leb x y) eqn:E.
    + constructor; [constructor; assumption|]. constructor; exact E.
    + constructor; [exact IH|].
      apply insert_sorted_hd; [apply bytes_leb_total; exact E | exact Hhd].
Qed.

Lemma sorted_perm (lines : list bytes) : Permutation lines (sorted lines).
Proof.
  induction lines as [|x l IH]; simpl; [constructor|].
  rewrite <- insert_sorted_perm. apply perm_skip; exact IH.
Qed.

Lemma sorted_sorted (lines : list bytes) : Sorted bytes_le (sorted lines).
Proof.
  induction lines as [|x l IH]; simpl; [constructor|].
  apply insert_sorted_sorted; exact IH.
Qed.

Lemma sorted_sorted_lex (lines : list bytes) : Sorted lex_le (sorted lines).
Proof.
  pose proof (sorted_sorted lines) as Hs.
  induction Hs as [|x l _ IH Hhd]; constructor; [exact IH|].
  destruct Hhd as [|y l' Hxy]; constructor. apply bytes_le_lex; exact Hxy.
Qed.

Lemma split_tab_not_nil (line : bytes) : split_tab line <> [].
Proof.
  destruct line as [|b rest]; simpl; [discriminate|].
  destruct (Byte.eqb b TAB); [discriminate|].
  destruct (split_tab rest); discriminate.
Qed.

Lemma line_key_cons (b : byte) (rest : bytes) :
  line_key (b :: rest) = if Byte.eqb b TAB then [] else b :: line_key rest.
Proof.
  unfold line_key; simpl. destruct (Byte.eqb b TAB); [reflexivity|].
  pose proof (split_tab_not_nil rest).
  destruct (split_tab rest); [contradiction | reflexivity].
Qed.

(** The key of a line is what stands before its first TAB. *)
Lemma line_key_prefix (line : bytes) :
  ~ In TAB (line_key line) /\
  (line = line_key line \/ exists value, line = line_key line ++ TAB :: value).
Proof.
  induction line as [|b rest [IHn IHp]].
  - split; [intros []|left; reflexivity].
  - rewrite line_key_cons. destruct (Byte.eqb b TAB) eqn:E.
    + apply Byte.byte_dec_bl in E. subst b.
      split; [intros []|]. right. exists rest. reflexivity.
    + apply Byte.eqb_false in E. split.
      * intros [H|H]; [congruence | contradiction].
      * destruct IHp as [IH | [value IH]].
        -- left. f_equal; exact IH.
        -- right. exists value. simpl. f_equal; exact IH.
Qed.


Lemma line_key_of_key_tab (k value : bytes) :
  ~ In TAB k -> line_key (k ++ TAB :: value) = k.
Proof.
  intros Hn. induction k as [|b k IH]; simpl.
  - rewrite line_key_cons. reflexivity.
  - rewrite line_key_cons.
    destruct (Byte.eqb b TAB) eqn:E.
    + apply Byte.byte_dec_bl in E. exfalso. apply Hn. left; exact E.
    + f_equal. apply IH. intros H. apply Hn. right; exact H.
Qed.

End BytesFacts.

(** ** Flattening the groups *)

Section Flatten.

(** C4: [_discard_key_and_flatten_values] emits, partition by partition
    and group by group, the lines of each key: the lines emitted for a
    key are the same multiset as that key's input list; with
    [sort_values] they are in non-decreasing lexicographic byte order,
    and without it they are the input list as it is. *)
Theorem discard_key_and_flatten_values_sort_option
    {X : Type} (rdd : RDD (X * list bytes)) (sort_values : bool) :
  exists emitted : list (list (list bytes)),
    _discard_key_and_flatten_values rdd sort_values
    = List.map (@concat bytes) emitted /\
    Forall2
      (Forall2 (fun key_and_lines lines =>
                  Permutation (snd key_and_lines) lines /\
                  (sort_values = true -> Sorted lex_le lines) /\
                  (sort_values = false -> lines = snd key_and_lines)))
      rdd emitted.
Proof.
  exists (List.map
            (List.map (fun key_and_lines : X * list bytes =>
                         if sort_values then sorted (snd key_and_lines)
                         else snd key_and_lines))
            rdd).
  split.
  - unfold _discard_key_and_flatten_values, flatMap.
    rewrite List.map_map.
    destruct sort_values; apply map_ext; intros part;
      rewrite flat_map_concat_map; reflexivity.
  - induction rdd as [|part rdd IH]; simpl; constructor; [|exact IH].
    clear IH. induction part as [|g part IH]; simpl; constructor; [|exact IH].
    destruct sort_values.
    + split; [apply sorted_perm|]. split; [intros _; apply sorted_sorted_lex|].
      intros H; discriminate H.
    + split; [reflexivity|]. split; [intros H; discriminate H | reflexivity].
Qed.

End Flatten.

(** ** The engine: what a dict holds after a merge *)

Section DictFacts.
Context {K : Type}.
Variable K_eq_dec : forall a b : K, {a = b} + {a <> b}.

Section Values.
Context {X : Type}.

Lemma values_of_cons (k k1 : K) (x1 : X) (it : list (K * X)) :
  values_of K_eq_dec k ((k1, x1) :: it)
  = if K_eq_dec k1 k then x1 :: values_of K_eq_dec k it
    else values_of K_eq_dec k it.
Proof.
  unfold values_of; simpl. destruct (K_eq_dec k1 k); reflexivity.
Qed.

Lemma values_of_app (k : K) (l1 l2 : list (K * X)) :
  values_of K_eq_dec k (l1 ++ l2)
  = values_of K_eq_dec k l1 ++ values_of K_eq_dec k l2.
Proof.
  unfold values_of. rewrite filter_app, map_app. reflexivity.
Qed.

Lemma values_of_concat (k : K) (rdd : RDD (K * X)) :
  values_of K_eq_dec k (collect rdd) = flat_map (values_of K_eq_dec k) rdd.
Proof.
  unfold collect. induction rdd as [|part rdd IH]; simpl; [reflexivity|].
  rewrite values_of_app, IH. reflexivity.
Qed.

Lemma in_values_of (k : K) (x : X) (it : list (K * X)) :
  In x (values_of K_eq_dec k it) <-> In (k, x) it.
Proof.
  unfold values_of. rewrite in_map_iff. split.
  - intros ([k' x'] & Hx & Hin). simpl in Hx; subst x'.
    apply filter_In in Hin. destruct Hin as [Hin Hk]. simpl in Hk.
    destruct (K_eq_dec k' k); [subst; exact Hin | discriminate].
  - intros Hin. exists (k, x). split; [reflexivity|].
    apply filter_In. split; [exact Hin|]. simpl.
    destruct (K_eq_dec k k); [reflexivity | congruence].
Qed.

Lemma values_of_not_in (k : K) (d : list (K * X)) :
  ~ In k (List.map fst d) -> values_of K_eq_dec k d = [].
Proof.
  intros Hn. destruct (values_of K_eq_dec k d) as [|x xs] eqn:E; [reflexivity|].
  exfalso. apply Hn.
  assert (Hin : In x (values_of K_eq_dec k d)) by (rewrite E; left; reflexivity).
  apply in_values_of in Hin. apply (in_map fst) in Hin. exact Hin.
Qed.

Lemma values_of_filter_key (p : K -> bool) (k : K) (it : list (K * X)) :
  values_of K_eq_dec k (filter (fun kx => p (fst kx)) it)
  = if p k then values_of K_eq_dec k it else [].
Proof.
  induction it as [|[k1 x1] it IH]; simpl.
  - destruct (p k); reflexivity.
  - destruct (p k1) eqn:E1; rewrite ?values_of_cons, IH;
      destruct (K_eq_dec k1 k) as [->|Hne]; try reflexivity.
    + rewrite E1. reflexivity.
    + rewrite E1. reflexivity.
Qed.

Lemma lookup_not_in (k : K) (d : list (K * X)) :
  ~ In k (List.map fst d) -> lookup K_eq_dec k d = None.
Proof.
  induction d as [|[k0 x0] d IH]; simpl; [reflexivity|]. intros Hn.
  destruct (K_eq_dec k0 k) as [->|Hne]; [exfalso; apply Hn; left; reflexivity|].
  apply IH. intros H; apply Hn; right; exact H.
Qed.

Lemma in_lookup (k : K) (x : X) (d : list (K * X)) :
  NoDup (List.map fst d) ->
  (In (k, x) d <-> lookup K_eq_dec k d = Some x).
Proof.
  induction d as [|[k0 x0] d IH]; simpl; intros Hnd.
  - split; [contradiction | discriminate].
  - inversion Hnd as [|? ? Hn Hnd']; subst.
    destruct (K_eq_dec k0 k) as [->|Hne].
    + split.
      * intros [H|H]; [congruence|].
        exfalso. apply Hn. apply (in_map fst) in H. exact H.
      * intros H. left. congruence.
    + rewrite <- (IH Hnd'). split; [intros [H|H]; [congruence | exact H]|].
      intros H; right; exact H.
Qed.

Lemma values_of_dict (k : K) (d : list (K * X)) :
  NoDup (List.map fst d) ->
  values_of K_eq_dec k d
  = match lookup K_eq_dec k d with Some x => [x] | None => [] end.
Proof.
  induction d as [|[k0 x0] d IH]; simpl; intros Hnd; [reflexivity|].
  inversion Hnd as [|? ? Hn Hnd']; subst.
  rewrite values_of_cons. destruct (K_eq_dec k0 k) as [->|Hne].
  - rewrite (values_of_not_in _ _ Hn). reflexivity.
  - apply IH; exact Hnd'.
Qed.
End Values.

Section Upsert.
Context {C X : Type}.
Variable merge : C -> X -> C.
Variable init : X -> C.

Local Abbreviation step :=
  (fun (d : list (K * C)) (kx : K * X) =>
     upsert K_eq_dec merge init (fst kx) (snd kx) d).
Local Abbreviation merge_opt :=
  (fun (oc : option C) (x : X) =>
     Some (match oc with Some c => merge c x | None => init x end)).

Lemma lookup_upsert (k : K) (x : X) (d : list (K * C)) (k' : K) :
  lookup K_eq_dec k' (upsert K_eq_dec merge init k x d)
  = if K_eq_dec k k' then merge_opt (lookup K_eq_dec k d) x
    else lookup K_eq_dec k' d.
Proof.
  induction d as [|[k0 c0] d IH]; simpl.
  - destruct (K_eq_dec k k'); reflexivity.
  - destruct (K_eq_dec k0 k) as [->|Hne]; simpl.
    + destruct (K_eq_dec k k'); reflexivity.
    + destruct (K_eq_dec k0 k') as [->|Hne'].
      * destruct (K_eq_dec k k'); [congruence | reflexivity].
      * exact IH.
Qed.

Lemma upsert_key_in (k : K) (x : X) (d : list (K * C)) (k' : K) :
  In k' (List.map fst (upsert K_eq_dec merge init k x d)) ->
  k' = k \/ In k' (List.map fst d).
Proof.
  induction d as [|[k0 c0] d IH]; simpl.
  - intros [H|[]]; left; congruence.
  - destruct (K_eq_dec k0 k); simpl; [tauto|].
    intros [H|H]; [tauto|]. apply IH in H. tauto.
Qed.

Lemma upsert_NoDup (k : K) (x : X) (d : list (K * C)) :
  NoDup (List.map fst d) ->
  NoDup (List.map fst (upsert K_eq_dec merge init k x d)).
Proof.
  induction d as [|[k0 c0] d IH]; simpl; intros Hnd.
  - constructor; [intros [] | constructor].
  - inversion Hnd as [|? ? Hn Hnd']; subst.
    destruct (K_eq_dec k0 k) as [->|Hne]; simpl.
    + constructor; assumption.
    + constructor; [|apply IH; exact Hnd'].
      intros H. apply upsert_key_in in H. destruct H; [congruence | contradiction].
Qed.

Lemma fold_upsert_NoDup (its : list (K * X)) (d0 : list (K * C)) :
  NoDup (List.map fst d0) -> NoDup (List.map fst (fold_left step its d0)).
Proof.
  revert d0; induction its as [|kx its IH]; intros d0 Hnd; simpl; [exact Hnd|].
  apply IH. apply upsert_NoDup; exact Hnd.
Qed.

Lemma lookup_fold_upsert (its : list (K * X)) (d0 : list (K * C)) (k : K) :
  lookup K_eq_dec k (fold_left step its d0)
  = fold_left merge_opt (values_of K_eq_dec k its) (lookup K_eq_dec k d0).
Proof.
  revert d0; induction its as [|[k1 x1] its IH]; intros d0; simpl; [reflexivity|].
  rewrite IH, values_of_cons. cbn [fst snd].
  rewrite lookup_upsert.
  destruct (K_eq_dec k1 k) as [->|Hne]; reflexivity.
Qed.

Lemma fold_merge_opt_some (xs : list X) (c : C) :
  fold_left merge_opt xs (Some c) = Some (fold_left merge xs c).
Proof.
  revert c; induction xs as [|x xs IH]; intros c; simpl; [reflexivity|].
  apply IH.
Qed.

(** The dict a merge builds from nothing holds, for every key that
    occurs, the values of the key merged from left to right. *)
Lemma lookup_fold_upsert_nil (its : list (K * X)) (k : K) :
  lookup K_eq_dec k (fold_left step its [])
  = match values_of K_eq_dec k its with
    | [] => None
    | x :: xs => Some (fold_left merge xs (init x))
    end.
Proof.
  rewrite lookup_fold_upsert. simpl.
  destruct (values_of K_eq_dec k its) as [|x xs]; [reflexivity|].
  simpl. apply fold_merge_opt_some.
Qed.
End Upsert.

End DictFacts.

(** ** The engine: what [combineByKey] and [groupBy] return *)

Section CombineByKeyFacts.
Context {K V C : Type}.
Variable K_eq_dec : forall a b : K, {a = b} + {a <> b}.
Variable numPartitions : positive.
Variable partitionFunc : K -> nat.
Variable createCombiner : V -> C.
Variable mergeValue : C -> V -> C.
Variable mergeCombiners_ : C -> C -> C.

Local Abbreviation n := (Pos.to_nat numPartitions).
Local Abbreviation part_of := (partition_of numPartitions partitionFunc).
Local Abbreviation out :=
  (combineByKey K_eq_dec numPartitions partitionFunc
     createCombiner mergeValue mergeCombiners_).
Local Abbreviation final :=
  (final_combiner K_eq_dec createCombiner mergeValue mergeCombiners_).

Lemma partition_of_lt (k : K) : part_of k < n.
Proof.
  unfold partition_of. apply Nat.mod_upper_bound.
  pose proof (Pos2Nat.is_pos numPartitions). lia.
Qed.

Lemma mergeValues_NoDup (it : list (K * V)) :
  NoDup (List.map fst (mergeValues K_eq_dec createCombiner mergeValue it)).
Proof. apply fold_upsert_NoDup. constructor. Qed.

Lemma mergeCombiners_NoDup (it : list (K * C)) :
  NoDup (List.map fst (mergeCombiners K_eq_dec mergeCombiners_ it)).
Proof. apply fold_upsert_NoDup. constructor. Qed.

Lemma values_of_mergeValues (k : K) (partition : list (K * V)) :
  values_of K_eq_dec k (mergeValues K_eq_dec createCombiner mergeValue partition)
  = local_combiner K_eq_dec createCombiner mergeValue k partition.
Proof.
  rewrite values_of_dict by apply mergeValues_NoDup.
  unfold mergeValues. rewrite lookup_fold_upsert_nil. unfold local_combiner.
  destruct (values_of K_eq_dec k partition); reflexivity.
Qed.

(** The partitions of the result, by index. *)
Lemma combineByKey_partitions (rdd : RDD (K * V)) (p : list (K * C)) :
  In p (out rdd) <->
  exists i, i < n /\
    p = mergeCombiners K_eq_dec mergeCombiners_
          (filter (fun kc => part_of (fst kc) =? i)
             (collect (List.map (mergeValues K_eq_dec createCombiner mergeValue)
                                rdd))).
Proof.
  unfold combineByKey, mapPartitions, partitionBy.
  rewrite List.map_map, in_map_iff. split.
  - intros (i & Hp & Hi). apply in_seq in Hi. exists i. split; [lia|].
    symmetry; exact Hp.
  - intros (i & Hi & Hp). exists i. split; [symmetry; exact Hp|].
    apply in_seq. lia.
Qed.

Lemma lookup_partition (rdd : RDD (K * V)) (i : nat) (k : K) :
  lookup K_eq_dec k
    (mergeCombiners K_eq_dec mergeCombiners_
       (filter (fun kc => part_of (fst kc) =? i)
          (collect (List.map (mergeValues K_eq_dec createCombiner mergeValue)
                             rdd))))
  = if part_of k =? i then final k rdd else None.
Proof.
  unfold mergeCombiners. rewrite lookup_fold_upsert_nil.
  rewrite (values_of_filter_key K_eq_dec (fun k => part_of k =? i)).
  destruct (part_of k =? i); [|reflexivity].
  rewrite values_of_concat, flat_map_concat_map, List.map_map.
  rewrite <- flat_map_concat_map.
  rewrite (flat_map_ext _ _ (values_of_mergeValues k)).
  reflexivity.
Qed.

Lemma combineByKey_NoDup (rdd : RDD (K * V)) (p : list (K * C)) :
  In p (out rdd) -> NoDup (List.map fst p).
Proof.
  intros Hp. apply combineByKey_partitions in Hp.
  destruct Hp as (i & _ & ->). apply mergeCombiners_NoDup.
Qed.

(** An entry of the result: the key sits in the partition its hash
    selects, with the combiner the shuffle ends with. *)
Lemma combineByKey_entry (rdd : RDD (K * V)) (p : list (K * C)) (k : K) (c : C) :
  In p (out rdd) -> In (k, c) p -> final k rdd = Some c.
Proof.
  intros Hp Hin. apply combineByKey_partitions in Hp.
  destruct Hp as (i & _ & ->).
  apply (in_lookup K_eq_dec) in Hin; [|apply mergeCombiners_NoDup].
  rewrite lookup_partition in Hin.
  destruct (part_of k =? i); [exact Hin | discriminate].
Qed.

Lemma combineByKey_same_partition (rdd : RDD (K * V))
    (p p' : list (K * C)) (k : K) (c c' : C) :
  In p (out rdd) -> In (k, c) p -> In p' (out rdd) -> In (k, c') p' -> p = p'.
Proof.
  intros Hp Hin Hp' Hin'.
  apply combineByKey_partitions in Hp, Hp'.
  destruct Hp as (i & _ & ->). destruct Hp' as (i' & _ & ->).
  apply (in_lookup K_eq_dec) in Hin; [|apply mergeCombiners_NoDup].
  apply (in_lookup K_eq_dec) in Hin'; [|apply mergeCombiners_NoDup].
  rewrite lookup_partition in Hin, Hin'.
  destruct (Nat.eqb_spec (part_of k) i) as [Hi|]; [|discriminate].
  destruct (Nat.eqb_spec (part_of k) i') as [Hi'|]; [|discriminate].
  subst i i'. reflexivity.
Qed.

(** Every key the shuffle ends with a combiner for is in the result. *)
Lemma combineByKey_complete (rdd : RDD (K * V)) (k : K) (c : C) :
  final k rdd = Some c -> exists p, In p (out rdd) /\ In (k, c) p.
Proof.
  intros Hf. eexists. split.
  - apply combineByKey_partitions. exists (part_of k).
    split; [apply partition_of_lt | reflexivity].
  - apply (in_lookup K_eq_dec); [apply mergeCombiners_NoDup|].
    rewrite lookup_partition, Nat.eqb_refl. exact Hf.
Qed.

Lemma shuffled_combiners_nil (rdd : RDD (K * V)) (k : K) :
  shuffled_combiners K_eq_dec createCombiner mergeValue k rdd = [] <->
  values_of K_eq_dec k (collect rdd) = [].
Proof.
  rewrite values_of_concat. unfold shuffled_combiners.
  induction rdd as [|partition rdd IH]; simpl; [tauto|].
  unfold local_combiner at 1.
  destruct (values_of K_eq_dec k partition) as [|v vs]; simpl; [exact IH|].
  split; discriminate.
Qed.

(** A key has a final combiner exactly when it occurs in the input. *)
Lemma final_combiner_none (rdd : RDD (K * V)) (k : K) :
  final k rdd = None <-> values_of K_eq_dec k (collect rdd) = [].
Proof.
  rewrite <- shuffled_combiners_nil. unfold final_combiner.
  destruct (shuffled_combiners K_eq_dec createCombiner mergeValue k rdd);
    split; congruence.
Qed.

Section Invariant.
(** [R k vs c]: the combiner [c] stands for the values [vs] of key [k]. *)
Variable R : K -> list V -> C -> Prop.
Hypothesis R_create : forall k v, R k [v] (createCombiner v).
Hypothesis R_mergeValue :
  forall k vs c v, R k vs c -> R k (vs ++ [v]) (mergeValue c v).
Hypothesis R_mergeCombiners :
  forall k vs1 c1 vs2 c2,
    R k vs1 c1 -> R k vs2 c2 -> R k (vs1 ++ vs2) (mergeCombiners_ c1 c2).

Lemma fold_mergeValue_invariant (k : K) (vs acc : list V) (c : C) :
  R k acc c -> R k (acc ++ vs) (fold_left mergeValue vs c).
Proof.
  revert acc c; induction vs as [|v vs IH]; intros acc c Hc; simpl.
  - rewrite app_nil_r. exact Hc.
  - replace (acc ++ v :: vs) with ((acc ++ [v]) ++ vs)
      by (rewrite <- app_assoc; reflexivity).
    apply IH. apply R_mergeValue. exact Hc.
Qed.

Lemma local_combiner_invariant (k : K) (partition : list (K * V)) (c : C) :
  In c (local_combiner K_eq_dec createCombiner mergeValue k partition) ->
  R k (values_of K_eq_dec k partition) c.
Proof.
  unfold local_combiner.
  destruct (values_of K_eq_dec k partition) as [|v vs]; [intros []|].
  intros [<-|[]]. change (v :: vs) with ([v] ++ vs).
  apply fold_mergeValue_invariant. apply R_create.
Qed.

Lemma local_combiner_cases (k : K) (partition : list (K * V)) :
  (values_of K_eq_dec k partition = [] /\
   local_combiner K_eq_dec createCombiner mergeValue k partition = []) \/
  (exists c, local_combiner K_eq_dec createCombiner mergeValue k partition = [c] /\
             R k (values_of K_eq_dec k partition) c).
Proof.
  pose proof (@local_combiner_invariant k partition) as Hloc.
  unfold local_combiner in *.
  destruct (values_of K_eq_dec k partition) as [|v vs]; [left; tauto|].
  right. eexists. split; [reflexivity|]. apply Hloc. left; reflexivity.
Qed.

Lemma fold_mergeCombiners_invariant (k : K) (rdd : RDD (K * V))
    (acc : list V) (c : C) :
  R k acc c ->
  R k (acc ++ values_of K_eq_dec k (collect rdd))
    (fold_left mergeCombiners_
       (shuffled_combiners K_eq_dec createCombiner mergeValue k rdd) c).
Proof.
  revert acc c; induction rdd as [|partition rdd IH]; intros acc c Hc.
  - simpl. rewrite app_nil_r. exact Hc.
  - change (collect (partition :: rdd)) with (partition ++ collect rdd).
    change (shuffled_combiners K_eq_dec createCombiner mergeValue k
              (partition :: rdd))
      with (local_combiner K_eq_dec createCombiner mergeValue k partition
            ++ shuffled_combiners K_eq_dec createCombiner mergeValue k rdd).
    rewrite values_of_app, fold_left_app, app_assoc.
    destruct (local_combiner_cases k partition) as [[Hv Hl] | (c1 & Hl & Hc1)];
      rewrite Hl; simpl.
    + rewrite Hv, app_nil_r. apply IH. exact Hc.
    + apply IH. apply R_mergeCombiners; assumption.
Qed.

(** The final combiner of a key stands for the values of the key, in
    the order of the input. *)
Lemma final_combiner_invariant (rdd : RDD (K * V)) (k : K) (c : C) :
  final k rdd = Some c -> R k (values_of K_eq_dec k (collect rdd)) c.
Proof.
  unfold final_combiner.
  induction rdd as [|partition rdd IH]; [discriminate|].
  change (collect (partition :: rdd)) with (partition ++ collect rdd).
  change (shuffled_combiners K_eq_dec createCombiner mergeValue k
            (partition :: rdd))
    with (local_combiner K_eq_dec createCombiner mergeValue k partition
          ++ shuffled_combiners K_eq_dec createCombiner mergeValue k rdd).
  rewrite values_of_app.
  destruct (local_combiner_cases k partition) as [[Hv Hl] | (c1 & Hl & Hc1)];
    rewrite Hl; simpl.
  - rewrite Hv. exact IH.
  - intros H. injection H as <-.
    apply fold_mergeCombiners_invariant. exact Hc1.
Qed.
End Invariant.

End CombineByKeyFacts.

Section GroupByFacts.
Context {K V : Type}.
Variable K_eq_dec : forall a b : K, {a = b} + {a <> b}.
Variable numPartitions : positive.
Variable partitionFunc : K -> nat.
Variable f : V -> K.

Local Abbreviation grouped := (groupBy K_eq_dec numPartitions partitionFunc f).
Local Abbreviation with_key k :=
  (fun x => if K_eq_dec (f x) k then true else false).

Lemma collect_map {A B} (g : A -> B) (rdd : RDD A) :
  collect (Spark.map g rdd) = List.map g (collect rdd).
Proof. unfold collect, Spark.map. symmetry. apply concat_map. Qed.

Lemma values_of_keyed {A} (g : V -> A) (k : K) (l : list V) :
  values_of K_eq_dec k (List.map (fun x => (f x, g x)) l)
  = List.map g (filter (with_key k) l).
Proof.
  unfold values_of. rewrite filter_map_swap, List.map_map. reflexivity.
Qed.

Lemma groupBy_final (rdd : RDD V) (k : K) (lines : list V) :
  final_combiner K_eq_dec (fun x => [x]) (fun xs x => xs ++ [x])
                 (fun a b => a ++ b) k (Spark.map (fun x => (f x, x)) rdd)
  = Some lines ->
  lines = filter (with_key k) (collect rdd).
Proof.
  intros Hf.
  apply final_combiner_invariant with (R := fun _ vs c => c = vs) in Hf;
    [|exact partitionFunc| | |].
  - rewrite Hf, collect_map, (values_of_keyed (fun x => x)), map_id. reflexivity.
  - reflexivity.
  - intros; subst; reflexivity.
  - intros; subst; reflexivity.
Qed.

(** A group of [groupBy] holds the records of its key, all of them, in the
    order of the input, and at least one. *)
Lemma groupBy_group (rdd : RDD V) (p : list (K * list V)) (k : K) (lines : list V) :
  In p (grouped rdd) -> In (k, lines) p ->
  lines = filter (with_key k) (collect rdd) /\ lines <> [].
Proof.
  intros Hp Hin. unfold groupBy, groupByKey in Hp.
  pose proof (combineByKey_entry _ _ _ _ _ _ _ _ _ _ Hp Hin) as Hf.
  pose proof (groupBy_final _ _ Hf) as Hl. split; [exact Hl|].
  intros Hnil. subst lines.
  assert (Hnone :
    final_combiner K_eq_dec (fun x => [x]) (fun xs x => xs ++ [x])
                   (fun a b => a ++ b) k (Spark.map (fun x => (f x, x)) rdd)
    = None).
  { apply final_combiner_none; [exact partitionFunc|].
    rewrite collect_map, (values_of_keyed (fun x => x)), map_id. exact Hnil. }
  congruence.
Qed.

Lemma groupBy_NoDup (rdd : RDD V) (p : list (K * list V)) :
  In p (grouped rdd) -> NoDup (List.map fst p).
Proof. apply combineByKey_NoDup. Qed.

Lemma groupBy_same_partition (rdd : RDD V) (p p' : list (K * list V))
    (k : K) (lines lines' : list V) :
  In p (grouped rdd) -> In (k, lines) p ->
  In p' (grouped rdd) -> In (k, lines') p' -> p = p'.
Proof. apply combineByKey_same_partition. Qed.

(** Every record of the input is in the group of its key. *)
Lemma groupBy_complete (rdd : RDD V) (x : V) :
  In x (collect rdd) ->
  exists p, In p (grouped rdd) /\
            In (f x, filter (with_key (f x)) (collect rdd)) p.
Proof.
  intros Hx.
  destruct (final_combiner K_eq_dec (fun x => [x]) (fun xs x => xs ++ [x])
              (fun a b => a ++ b) (f x) (Spark.map (fun x => (f x, x)) rdd))
    as [lines|] eqn:Hf.
  - pose proof (groupBy_final _ _ Hf) as Hl. subst lines.
    apply combineByKey_complete with (numPartitions := numPartitions)
                                     (partitionFunc := partitionFunc) in Hf.
    exact Hf.
  - apply final_combiner_none in Hf; [|exact partitionFunc].
    rewrite collect_map, (values_of_keyed (fun x => x)), map_id in Hf.
    exfalso.
    assert (Hin : In x (filter (with_key (f x)) (collect rdd))).
    { apply filter_In. split; [exact Hx|].
      destruct (K_eq_dec (f x) (f x)); [reflexivity | congruence]. }
    rewrite Hf in Hin. exact Hin.
Qed.

End GroupByFacts.

(** ** Groups laid out one after the other *)

Section Blocks.
Context {G A B : Type}.
Variable key : A -> B.

Lemma contiguous_app_block (block rest : list A) :
  (forall x y, In x block -> In y block -> key x = key y) ->
  (forall x y, In x block -> In y rest -> key x <> key y) ->
  contiguous key rest -> contiguous key (block ++ rest).
Proof.
  intros Hblock Hcross Hrest l1 x l2 y l3 Heq Hk.
  apply app_eq_app in Heq.
  destruct Heq as (l & [[Hb Hr] | [Hl Hr]]).
  - destruct l as [|a l'].
    + simpl in Hr. apply (Hrest [] x l2 y l3); [symmetry; exact Hr | exact Hk].
    + injection Hr as Hx Hr. subst a.
      assert (Hxb : In x block).
      { rewrite Hb. apply in_or_app. right; left; reflexivity. }
      apply app_eq_app in Hr.
      destruct Hr as (m & [[Hl2 Hrest'] | [Hl' Hy]]).
      * exfalso. apply (Hcross x y Hxb); [|exact Hk].
        rewrite Hrest'. apply in_or_app. right; left; reflexivity.
      * apply Forall_forall. intros z Hz. apply Hblock; [|exact Hxb].
        rewrite Hb. apply in_or_app. right. right.
        rewrite Hl'. apply in_or_app. left; exact Hz.
  - apply (Hrest l x l2 y l3); [exact Hr | exact Hk].
Qed.

(** Groups whose records agree on the key inside a group and differ on it
    across groups come out contiguous. *)
Lemma contiguous_flat_map (emit : G -> list A) (gs : list G) :
  (forall g x y, In g gs -> In x (emit g) -> In y (emit g) -> key x = key y) ->
  ForallOrdPairs
    (fun g g' => forall x y, In x (emit g) -> In y (emit g') -> key x <> key y)
    gs ->
  contiguous key (flat_map emit gs).
Proof.
  intros Hin Hord. induction Hord as [|g gs Hfirst Hord IH]; simpl.
  - intros l1 x l2 y l3 Heq. destruct l1; discriminate Heq.
  - apply contiguous_app_block.
    + intros x y. apply Hin. left; reflexivity.
    + intros x y Hx Hy. apply in_flat_map in Hy. destruct Hy as (g' & Hg' & Hy).
      rewrite Forall_forall in Hfirst. exact (Hfirst g' Hg' x y Hx Hy).
    + apply IH. intros g' x y Hg'. apply Hin. right; exact Hg'.
Qed.

Lemma ForallOrdPairs_of_NoDup {Kk} (gkey : G -> Kk) (R : G -> G -> Prop)
    (gs : list G) :
  NoDup (List.map gkey gs) ->
  (forall g g', In g gs -> In g' gs -> gkey g <> gkey g' -> R g g') ->
  ForallOrdPairs R gs.
Proof.
  induction gs as [|g gs IH]; simpl; intros Hnd HR; [constructor|].
  inversion Hnd as [|? ? Hn Hnd']; subst. constructor.
  - apply Forall_forall. intros g' Hg'. apply HR; [left; reflexivity | right; exact Hg'|].
    intros Heq. apply Hn. rewrite Heq. apply in_map; exact Hg'.
  - apply IH; [exact Hnd'|]. intros g1 g2 H1 H2. apply HR; right; assumption.
Qed.

End Blocks.

Section Emitted.

Lemma emitted_perm (sort_values : bool) (lines : list bytes) :
  Permutation lines (emitted sort_values lines).
Proof.
  destruct sort_values; simpl; [apply sorted_perm | reflexivity].
Qed.

Lemma in_emitted (sort_values : bool) (lines : list bytes) (x : bytes) :
  In x (emitted sort_values lines) <-> In x lines.
Proof.
  split; apply Permutation_in;
    [symmetry|]; apply emitted_perm.
Qed.

Lemma discard_key_and_flatten_values_eq {X} (rdd : RDD (X * list bytes))
    (sort_values : bool) :
  _discard_key_and_flatten_values rdd sort_values
  = flatMap (fun g => emitted sort_values (snd g)) rdd.
Proof. destruct sort_values; reflexivity. Qed.

Lemma flat_map_map {X Y Z} (g : X -> Y) (h : Y -> list Z) (l : list X) :
  flat_map h (List.map g l) = flat_map (fun x => h (g x)) l.
Proof.
  induction l as [|x l IH]; simpl; [reflexivity|]. rewrite IH. reflexivity.
Qed.

(** The partitions of the shuffle-and-sort: the groups of a partition of
    [groupBy], emitted one after the other. *)
Lemma shuffle_and_sort_partitions (numPartitions : positive)
    (hash_bytes : bytes -> nat) (rdd : RDD bytes) (sort_values : bool)
    (p : list bytes) :
  In p (_shuffle_and_sort numPartitions hash_bytes rdd sort_values) <->
  exists q, In q (groupBy bytes_eq_dec numPartitions hash_bytes line_key rdd) /\
            p = flat_map (fun g => emitted sort_values (snd g)) q.
Proof.
  unfold _shuffle_and_sort. rewrite discard_key_and_flatten_values_eq.
  unfold flatMap. rewrite in_map_iff. split.
  - intros (q & Hp & Hq). exists q. split; [exact Hq | symmetry; exact Hp].
  - intros (q & Hq & Hp). exists q. split; [symmetry; exact Hp | exact Hq].
Qed.

End Emitted.

(** ** The combiner stage *)

Section CombinerStage.
Context {K V : Type}.
Variable K_eq_dec : forall a b : K, {a = b} + {a <> b}.
Variable numPartitions : positive.
Variable hash_key : K -> nat.
Variable combiner_job : MRJob K V.

Local Abbreviation step_num := (options_step_num combiner_job).
Local Abbreviation c_read :=
  (fst (pick_protocols combiner_job step_num mrc_combiner)).
Local Abbreviation c_write :=
  (snd (pick_protocols combiner_job step_num mrc_combiner)).
Local Abbreviation merge :=
  (fun pairs1 pairs2 => fst (combiner_helper combiner_job step_num pairs1 pairs2)).
Local Abbreviation keyed rdd :=
  (Spark.map (fun k_v : K * V => (fst k_v, k_v)) (Spark.map c_read rdd)).
Local Abbreviation combined rdd :=
  (combineByKey K_eq_dec numPartitions hash_key
     (fun k_v => [k_v]) (fun k_v_list k_v => merge k_v_list [k_v]) merge
     (keyed rdd)).

(** The partitions of the combiner stage: the accumulators of a partition
    of [combineByKey], encoded and emitted one after the other. *)
Lemma run_combiner_partitions (rdd : RDD bytes) (sort_values : bool)
    (p : list bytes) :
  In p (_run_combiner K_eq_dec numPartitions hash_key combiner_job rdd sort_values)
  <->
  exists q, In q (combined rdd) /\
            p = flat_map (fun kc => emitted sort_values (List.map c_write (snd kc))) q.
Proof.
  unfold _run_combiner.
  destruct (pick_protocols combiner_job step_num mrc_combiner) as [r w].
  cbn [fst snd]. rewrite discard_key_and_flatten_values_eq.
  unfold flatMap, mapValues. unfold Spark.map at 1.
  rewrite List.map_map, in_map_iff. split.
  - intros (q & Hp & Hq). exists q. split; [exact Hq|].
    rewrite <- Hp, flat_map_map. reflexivity.
  - intros (q & Hq & Hp). exists q. split; [|exact Hq].
    rewrite Hp, flat_map_map. reflexivity.
Qed.

Lemma merge_cases (pairs1 pairs2 : list (K * V)) :
  (exists p1 p2, pairs1 = [p1] /\ pairs2 = [p2] /\
                 merge pairs1 pairs2
                 = combine_pairs combiner_job [p1; p2] step_num) \/
  merge pairs1 pairs2 = pairs1 ++ pairs2.
Proof.
  destruct (Nat.eq_dec (length pairs1) 1) as [H1|H1];
    [destruct (Nat.eq_dec (length pairs2) 1) as [H2|H2]|].
  - destruct pairs1 as [|p1 [|? ?]]; try discriminate H1.
    destruct pairs2 as [|p2 [|? ?]]; try discriminate H2.
    left. exists p1, p2. repeat split.
  - right. rewrite combiner_helper_concat; [reflexivity | tauto].
  - right. rewrite combiner_helper_concat; [reflexivity | tauto].
Qed.

Lemma values_of_keyed_pairs (rdd : RDD bytes) (k : K) :
  values_of K_eq_dec k (collect (keyed rdd))
  = filter (fun k_v => if K_eq_dec (fst k_v) k then true else false)
           (List.map c_read (collect rdd)).
Proof.
  rewrite !collect_map.
  rewrite (values_of_keyed K_eq_dec fst (fun k_v => k_v)), map_id. reflexivity.
Qed.

Lemma keyed_pairs_key (rdd : RDD bytes) (k : K) :
  Forall (fun k_v => fst k_v = k) (values_of K_eq_dec k (collect (keyed rdd))).
Proof.
  rewrite values_of_keyed_pairs. apply Forall_forall. intros k_v Hin.
  apply filter_In in Hin. destruct Hin as [_ Hk].
  destruct (K_eq_dec (fst k_v) k); [assumption | discriminate].
Qed.

(** When the combiner emits its pairs under the key of its input, an
    accumulator holds pairs of its own key only. *)
Lemma combined_keys (rdd : RDD bytes) (q : list (K * list (K * V)))
    (k : K) (acc : list (K * V)) :
  (forall k v1 v2 o,
      In o (combine_pairs combiner_job [(k, v1); (k, v2)] step_num) -> fst o = k) ->
  In q (combined rdd) -> In (k, acc) q ->
  Forall (fun k_v => fst k_v = k) acc.
Proof.
  intros Hkeep Hq Hin.
  pose proof (combineByKey_entry _ _ _ _ _ _ _ _ _ _ Hq Hin) as Hf.
  assert (Hmerge : forall k a b,
             Forall (fun k_v : K * V => fst k_v = k) a ->
             Forall (fun k_v : K * V => fst k_v = k) b ->
             Forall (fun k_v : K * V => fst k_v = k) (merge a b)).
  { intros k0 a b Ha Hb.
    destruct (merge_cases a b) as [(p1 & p2 & -> & -> & ->) | ->].
    - destruct p1 as [k1 v1], p2 as [k2 v2].
      inversion Ha; inversion Hb; subst; simpl in *; subst.
      apply Forall_forall. intros o Ho. exact (Hkeep _ _ _ _ Ho).
    - apply Forall_app. split; assumption. }
  apply final_combiner_invariant
    with (R := fun k vs c => Forall (fun k_v : K * V => fst k_v = k) vs ->
                             Forall (fun k_v : K * V => fst k_v = k) c) in Hf;
    [apply Hf; apply keyed_pairs_key | exact hash_key | | |].
  - intros k0 v H; exact H.
  - intros k0 vs c v Hc Hall. apply Forall_app in Hall. destruct Hall as [Hvs Hv].
    apply Hmerge; [apply Hc; exact Hvs | exact Hv].
  - intros k0 vs1 c1 vs2 c2 H1 H2 Hall. apply Forall_app in Hall.
    destruct Hall as [Hv1 Hv2]. apply Hmerge; [apply H1 | apply H2]; assumption.
Qed.

End CombinerStage.

(** ** Grouping *)

Section Grouping.

Lemma shuffle_and_sort_contiguous (numPartitions : positive)
    (hash_bytes : bytes -> nat) (rdd : RDD bytes) (sort_values : bool)
    (p : list bytes) :
  In p (_shuffle_and_sort numPartitions hash_bytes rdd sort_values) ->
  contiguous line_key p.
Proof.
  intros Hp. apply shuffle_and_sort_partitions in Hp.
  destruct Hp as (q & Hq & ->).
  assert (Hkey : forall g x, In g q -> In x (emitted sort_values (snd g)) ->
                             line_key x = fst g).
  { intros [k lines] x Hg Hx. apply in_emitted in Hx. simpl in *.
    destruct (groupBy_group bytes_eq_dec numPartitions hash_bytes line_key
                rdd q k lines Hq Hg) as [Hl _].
    rewrite Hl in Hx. apply filter_In in Hx. destruct Hx as [_ Hx].
    destruct (bytes_eq_dec (line_key x) k); [assumption | discriminate]. }
  apply contiguous_flat_map.
  - intros g x y Hg Hx Hy.
    rewrite (Hkey g x Hg Hx), (Hkey g y Hg Hy). reflexivity.
  - apply ForallOrdPairs_of_NoDup with (gkey := fst).
    + eapply groupBy_NoDup; exact Hq.
    + intros g g' Hg Hg' Hne x y Hx Hy.
      rewrite (Hkey g x Hg Hx), (Hkey g' y Hg' Hy). exact Hne.
Qed.

Lemma run_combiner_contiguous {K V : Type}
    (K_eq_dec : forall a b : K, {a = b} + {a <> b})
    (numPartitions : positive) (hash_key : K -> nat)
    (combiner_job : MRJob K V) (rdd : RDD bytes) (sort_values : bool)
    (p : list bytes) :
  (forall a b,
      line_key (snd (pick_protocols combiner_job (options_step_num combiner_job)
                       mrc_combiner) a)
      = line_key (snd (pick_protocols combiner_job (options_step_num combiner_job)
                         mrc_combiner) b)
      <-> fst a = fst b) ->
  (forall k v1 v2 o,
      In o (combine_pairs combiner_job [(k, v1); (k, v2)]
              (options_step_num combiner_job)) ->
      fst o = k) ->
  In p (_run_combiner K_eq_dec numPartitions hash_key combiner_job rdd sort_values) ->
  contiguous line_key p.
Proof.
  intros Hcodec Hkeep Hp. apply run_combiner_partitions in Hp.
  destruct Hp as (q & Hq & ->).
  set (c_write := snd (pick_protocols combiner_job (options_step_num combiner_job)
                         mrc_combiner)) in *.
  assert (Hkey : forall g x, In g q ->
                             In x (emitted sort_values (List.map c_write (snd g))) ->
                             exists k_v, x = c_write k_v /\ fst k_v = fst g).
  { intros [k acc] x Hg Hx. apply in_emitted in Hx. simpl in *.
    apply in_map_iff in Hx. destruct Hx as (k_v & Hx & Hin).
    exists k_v. split; [symmetry; exact Hx|].
    assert (Hall : Forall (fun k_v : K * V => fst k_v = k) acc)
      by (eapply combined_keys; eassumption).
    rewrite Forall_forall in Hall. exact (Hall k_v Hin). }
  apply contiguous_flat_map.
  - intros g x y Hg Hx Hy.
    destruct (Hkey g x Hg Hx) as (a & -> & Ha).
    destruct (Hkey g y Hg Hy) as (b & -> & Hb).
    apply Hcodec. congruence.
  - apply ForallOrdPairs_of_NoDup with (gkey := fst).
    + eapply combineByKey_NoDup; exact Hq.
    + intros g g' Hg Hg' Hne x y Hx Hy Heq.
      destruct (Hkey g x Hg Hx) as (a & -> & Ha).
      destruct (Hkey g' y Hg' Hy) as (b & -> & Hb).
      apply Hcodec in Heq. congruence.
Qed.

(** C3 as amended: in every partition of the output of [_shuffle_and_sort]
    the records that share a key (the bytes before the first TAB) are
    contiguous, for every input; in every partition of the output of
    [_run_combiner] they are, for every input, when the job's combiner
    emits its pairs under the key of its input and the combiner's encoder
    writes two pairs with the same key bytes exactly when their keys are
    equal. *)
Theorem grouped_records_contiguous :
  (forall (numPartitions : positive) (hash_bytes : bytes -> nat)
          (rdd : RDD bytes) (sort_values : bool) (p : list bytes),
      In p (_shuffle_and_sort numPartitions hash_bytes rdd sort_values) ->
      contiguous line_key p) /\
  (forall (K V : Type) (K_eq_dec : forall a b : K, {a = b} + {a <> b})
          (numPartitions : positive) (hash_key : K -> nat)
          (combiner_job : MRJob K V) (rdd : RDD bytes) (sort_values : bool)
          (p : list bytes),
      let step_num := options_step_num combiner_job in
      let c_write := snd (pick_protocols combiner_job step_num mrc_combiner) in
      (forall a b, line_key (c_write a) = line_key (c_write b) <-> fst a = fst b) ->
      (forall k v1 v2 o,
          In o (combine_pairs combiner_job [(k, v1); (k, v2)] step_num) ->
          fst o = k) ->
      In p (_run_combiner K_eq_dec numPartitions hash_key combiner_job
              rdd sort_values) ->
      contiguous line_key p).
Proof.
  split.
  - apply shuffle_and_sort_contiguous.
  - intros K V K_eq_dec numPartitions hash_key combiner_job rdd sort_values p.
    cbv zeta. apply run_combiner_contiguous.
Qed.



End Grouping.

(** ** The reducer over runs of one key *)

Section SameSet.
Context {A : Type}.

Lemma same_set_refl (l : list A) : same_set l l.
Proof. intros x; tauto. Qed.

Lemma same_set_sym (l1 l2 : list A) : same_set l1 l2 -> same_set l2 l1.
Proof. intros H x; symmetry; apply H. Qed.

Lemma same_set_trans (l1 l2 l3 : list A) :
  same_set l1 l2 -> same_set l2 l3 -> same_set l1 l3.
Proof. intros H1 H2 x. rewrite (H1 x). apply H2. Qed.

Lemma same_set_map {B} (f : A -> B) (l1 l2 : list A) :
  same_set l1 l2 -> same_set (List.map f l1) (List.map f l2).
Proof.
  intros H y. rewrite !in_map_iff.
  split; intros (x & Hx & Hin); exists x; (split; [exact Hx | apply H; exact Hin]).
Qed.

End SameSet.

Section ReducePairs.
Context {K V : Type}.
Variable K_eq_dec : forall a b : K, {a = b} + {a <> b}.
Variable reducer_job : MRJob K V.
Variable step_num : nat.

Local Abbreviation reduce pairs :=
  (reduce_pairs K_eq_dec reducer_job pairs step_num).

Lemma groupby_head (k : K) (v : V) (rest : list (K * V)) :
  exists vs groups, groupby K_eq_dec ((k, v) :: rest) = (k, vs) :: groups.
Proof.
  simpl. destruct (groupby K_eq_dec rest) as [|[k' vs] groups].
  - eexists; eexists; reflexivity.
  - destruct (K_eq_dec k k'); eexists; eexists; reflexivity.
Qed.

(** Two lists with no key in common are grouped apart. *)
Lemma groupby_app (l1 l2 : list (K * V)) :
  (forall p q, In p l1 -> In q l2 -> fst p <> fst q) ->
  groupby K_eq_dec (l1 ++ l2) = groupby K_eq_dec l1 ++ groupby K_eq_dec l2.
Proof.
  induction l1 as [|[k v] l1 IH]; intros Hcross; [reflexivity|].
  cbn [app groupby]. rewrite IH by (intros p q Hp; apply Hcross; right; exact Hp).
  destruct l1 as [|[k1 v1] l1'].
  - cbn [groupby app]. destruct l2 as [|[k2 v2] l2']; [reflexivity|].
    destruct (groupby_head k2 v2 l2') as (vs & groups & ->).
    destruct (K_eq_dec k k2) as [Heq|_]; [|reflexivity].
    exfalso. apply (Hcross (k, v) (k2, v2)); [left | left |]; auto.
  - destruct (groupby_head k1 v1 l1') as (vs & groups & ->).
    cbn [app]. destruct (K_eq_dec k k1); reflexivity.
Qed.

Lemma reduce_pairs_app (l1 l2 : list (K * V)) :
  (forall p q, In p l1 -> In q l2 -> fst p <> fst q) ->
  reduce (l1 ++ l2) = reduce l1 ++ reduce l2.
Proof.
  intros Hcross. unfold reduce_pairs.
  rewrite groupby_app by exact Hcross. apply flat_map_app.
Qed.

(** The reducer over groups laid out one after the other, no two of which
    share a key: it reduces each group on its own. *)
Lemma reduce_pairs_flat_map {G} (emit : G -> list (K * V)) (gs : list G) :
  ForallOrdPairs
    (fun g g' => forall p q, In p (emit g) -> In q (emit g') -> fst p <> fst q)
    gs ->
  reduce (flat_map emit gs) = flat_map (fun g => reduce (emit g)) gs.
Proof.
  induction 1 as [|g gs Hfirst Hord IH]; [reflexivity|].
  cbn [flat_map]. rewrite reduce_pairs_app, IH; [reflexivity|].
  intros p q Hp Hq. apply in_flat_map in Hq. destruct Hq as (g' & Hg' & Hq).
  rewrite Forall_forall in Hfirst. exact (Hfirst g' Hg' p q Hp Hq).
Qed.

Lemma groupby_single_key (k : K) (pairs : list (K * V)) :
  Forall (fun k_v => fst k_v = k) pairs -> pairs <> [] ->
  groupby K_eq_dec pairs = [(k, List.map snd pairs)].
Proof.
  induction pairs as [|[k' v] rest IH]; intros Hall Hne; [congruence|].
  apply Forall_cons_iff in Hall. destruct Hall as [Hk Hrest].
  simpl in Hk; subst k'.
  destruct rest as [|k_v rest']; [reflexivity|].
  cbn [groupby]. cbn [groupby] in IH. rewrite IH; [|exact Hrest | discriminate].
  destruct (K_eq_dec k k); [reflexivity | congruence].
Qed.

(** On the pairs of one key the reducer stage calls the job's reducer
    once, with the values in order. *)
Lemma reduce_pairs_single_key (k : K) (pairs : list (K * V)) :
  Forall (fun k_v => fst k_v = k) pairs -> pairs <> [] ->
  reduce pairs = reducer reducer_job step_num k (List.map snd pairs).
Proof.
  intros Hall Hne. unfold reduce_pairs.
  rewrite (groupby_single_key Hall Hne). simpl. apply app_nil_r.
Qed.

End ReducePairs.

(** ** The combiner stage against the shuffle-and-sort *)

Section CombinerEquivalence.
Context {K V : Type}.
Variable K_eq_dec : forall a b : K, {a = b} + {a <> b}.
Variable numPartitions : positive.
Variable hash_key : K -> nat.
Variable hash_bytes : bytes -> nat.
Variables combiner_job reducer_job : MRJob K V.
Variable rdd : RDD bytes.

Local Abbreviation cn := (options_step_num combiner_job).
Local Abbreviation rn := (options_step_num reducer_job).
Local Abbreviation c_read := (fst (pick_protocols combiner_job cn mrc_combiner)).
Local Abbreviation c_write := (snd (pick_protocols combiner_job cn mrc_combiner)).
Local Abbreviation r_read := (fst (pick_protocols reducer_job rn mrc_reducer)).
Local Abbreviation r_write := (snd (pick_protocols reducer_job rn mrc_reducer)).
Local Abbreviation reduce pairs := (reduce_pairs K_eq_dec reducer_job pairs rn).
Local Abbreviation combine pairs := (combine_pairs combiner_job pairs cn).
Local Abbreviation has_key k := (fun k_v : K * V => fst k_v = k).
Local Abbreviation with_key k :=
  (fun k_v : K * V => if K_eq_dec (fst k_v) k then true else false).
(** The decoded pairs of key [k] in the input. *)
Local Abbreviation pairs_of k :=
  (filter (with_key k) (List.map c_read (collect rdd))).
Local Abbreviation merge :=
  (fun pairs1 pairs2 => fst (combiner_helper combiner_job cn pairs1 pairs2)).
Local Abbreviation combined :=
  (combineByKey K_eq_dec numPartitions hash_key
     (fun k_v => [k_v]) (fun k_v_list k_v => merge k_v_list [k_v]) merge
     (Spark.map (fun k_v : K * V => (fst k_v, k_v)) (Spark.map c_read rdd))).
(** The accumulator [acc] stands for the pairs [ins] of key [k]: to the
    reducer it is as good as they are, whatever else it is given. *)
Local Abbreviation refines k ins acc :=
  (Forall (has_key k) acc /\
   forall rest, Forall (has_key k) rest ->
                same_set (reduce (acc ++ rest)) (reduce (ins ++ rest))).

(** The reducer's decoder undoes the combiner's encoder. *)
Hypothesis codec_roundtrip : forall k_v, r_read (c_write k_v) = k_v.
(** The combiner and the reducer decode the records of the input alike. *)
Hypothesis codec_agree :
  forall line, In line (collect rdd) -> r_read line = c_read line.
(** Two records of the input have the same key bytes exactly when they
    decode to the same key. *)
Hypothesis codec_key :
  forall l l', In l (collect rdd) -> In l' (collect rdd) ->
               (line_key l = line_key l' <-> fst (r_read l) = fst (r_read l')).
(** The combiner emits its pairs under the key of its input. *)
Hypothesis combiner_keeps_key :
  forall k v1 v2 o, In o (combine [(k, v1); (k, v2)]) -> fst o = k.
(** The reducer's output for a key does not depend on the order of the
    pairs of the key. *)
Hypothesis reducer_any_order :
  forall k ps ps', Forall (has_key k) ps -> Permutation ps ps' ->
                   same_set (reduce ps) (reduce ps').
(** The combiner pre-aggregates: to the reducer, the output of the
    combiner on two pairs of a key is as good as the two pairs. *)
Hypothesis combiner_preaggregates :
  forall k v1 v2 rest,
    Forall (has_key k) rest ->
    same_set (reduce (combine [(k, v1); (k, v2)] ++ rest))
             (reduce ((k, v1) :: (k, v2) :: rest)).

Lemma run_reducer_outputs (input : RDD bytes) (sort_values : bool) (o : bytes) :
  In o (collect (_run_reducer K_eq_dec reducer_job input sort_values)) <->
  exists p, In p input /\ In o (List.map r_write (reduce (List.map r_read p))).
Proof.
  unfold _run_reducer.
  destruct (pick_protocols reducer_job rn mrc_reducer) as [r w]. cbn [fst snd].
  unfold collect, Spark.map, mapPartitions.
  rewrite in_concat. rewrite !List.map_map. split.
  - intros (l & Hl & Ho). apply in_map_iff in Hl. destruct Hl as (p & <- & Hp).
    exists p. split; assumption.
  - intros (p & Hp & Ho). eexists. split; [|exact Ho].
    apply in_map_iff. exists p. split; [reflexivity | exact Hp].
Qed.

Lemma refines_concat (k : K) (i1 a1 i2 a2 : list (K * V)) :
  Forall (has_key k) i1 -> Forall (has_key k) i2 ->
  refines k i1 a1 -> refines k i2 a2 ->
  refines k (i1 ++ i2) (a1 ++ a2).
Proof.
  intros Hi1 Hi2 [Ha1 R1] [Ha2 R2]. split; [apply Forall_app; tauto|].
  intros rest Hrest.
  rewrite <- !app_assoc.
  eapply same_set_trans;
    [apply R1; apply Forall_app; split; assumption|].
  eapply same_set_trans;
    [apply (reducer_any_order (k := k)) with (ps' := a2 ++ i1 ++ rest)|].
  { repeat (apply Forall_app; split); assumption. }
  { apply Permutation_app_swap_app. }
  eapply same_set_trans;
    [apply R2; apply Forall_app; split; assumption|].
  apply (reducer_any_order (k := k)).
  - repeat (apply Forall_app; split); assumption.
  - apply Permutation_app_swap_app.
Qed.

Lemma refines_merge (k : K) (i1 a1 i2 a2 : list (K * V)) :
  Forall (has_key k) i1 -> Forall (has_key k) i2 ->
  refines k i1 a1 -> refines k i2 a2 ->
  refines k (i1 ++ i2) (merge a1 a2).
Proof.
  intros Hi1 Hi2 R1 R2.
  pose proof (refines_concat Hi1 Hi2 R1 R2) as [Hcat Rcat].
  destruct (merge_cases combiner_job a1 a2) as [(p1 & p2 & -> & -> & ->) | ->];
    [|split; assumption].
  destruct p1 as [k1 v1], p2 as [k2 v2].
  assert (k1 = k /\ k2 = k) as [-> ->].
  { inversion Hcat as [|? ? H1 Ht]; inversion Ht; subst; simpl in *; tauto. }
  split.
  - apply Forall_forall. intros o Ho. exact (combiner_keeps_key _ _ _ _ Ho).
  - intros rest Hrest.
    eapply same_set_trans; [apply combiner_preaggregates; exact Hrest|].
    apply (Rcat rest Hrest).
Qed.

(** Every accumulator of the combiner stage stands for the pairs of its
    key in the input. *)
Lemma combined_refines (q : list (K * list (K * V))) (k : K) (acc : list (K * V)) :
  In q combined -> In (k, acc) q -> refines k (pairs_of k) acc.
Proof.
  intros Hq Hin.
  pose proof (combineByKey_entry _ _ _ _ _ _ _ _ _ _ Hq Hin) as Hf.
  pose proof (keyed_pairs_key K_eq_dec combiner_job rdd k) as Hkeys.
  rewrite <- (values_of_keyed_pairs K_eq_dec combiner_job rdd k).
  apply final_combiner_invariant
    with (R := fun k vs c => Forall (has_key k) vs -> refines k vs c) in Hf;
    [apply Hf; exact Hkeys | exact hash_key | | |].
  - intros k0 v Hv. split; [exact Hv|]. intros rest _. apply same_set_refl.
  - intros k0 vs c v Hc Hall. apply Forall_app in Hall. destruct Hall as [Hvs Hv].
    apply refines_merge; [exact Hvs | exact Hv | apply Hc; exact Hvs|].
    split; [exact Hv|]. intros rest _. apply same_set_refl.
  - intros k0 vs1 c1 vs2 c2 H1 H2 Hall. apply Forall_app in Hall.
    destruct Hall as [Hv1 Hv2].
    apply refines_merge; [exact Hv1 | exact Hv2 | apply H1 | apply H2]; assumption.
Qed.

Lemma map_of_flat_map {X Y Z} (f : Y -> Z) (g : X -> list Y) (l : list X) :
  List.map f (flat_map g l) = flat_map (fun x => List.map f (g x)) l.
Proof.
  induction l as [|x l IH]; simpl; [reflexivity|].
  rewrite map_app, IH. reflexivity.
Qed.

Lemma in_map_flat_map {X Y Z} (f : Y -> Z) (g : X -> list Y) (l : list X) (z : Z) :
  In z (List.map f (flat_map g l)) <->
  exists x, In x l /\ In z (List.map f (g x)).
Proof.
  rewrite map_of_flat_map, in_flat_map. reflexivity.
Qed.

Lemma reduce_nil : reduce [] = [].
Proof. reflexivity. Qed.

(** What the reducer stage makes of a partition of the combiner stage:
    for each accumulator, the reducer's output on the pairs of its key. *)
Lemma combiner_partition_outputs (q : list (K * list (K * V)))
    (sort_values : bool) (o : bytes) :
  In q combined ->
  (In o (List.map r_write
           (reduce (List.map r_read
                      (flat_map (fun kc => emitted sort_values
                                             (List.map c_write (snd kc))) q))))
   <->
   exists k acc, In (k, acc) q /\
                 In o (List.map r_write (reduce (pairs_of k)))).
Proof.
  intros Hq.
  assert (Hdec : forall k acc,
             In (k, acc) q ->
             Permutation acc
               (List.map r_read (emitted sort_values (List.map c_write acc)))).
  { intros k acc _.
    rewrite <- (emitted_perm sort_values (List.map c_write acc)).
    rewrite List.map_map.
    rewrite (map_ext _ (fun x => x) codec_roundtrip), map_id. reflexivity. }
  assert (Hset : forall k acc,
             In (k, acc) q ->
             same_set
               (reduce (List.map r_read
                          (emitted sort_values (List.map c_write acc))))
               (reduce (pairs_of k))).
  { intros k acc Hin.
    destruct (combined_refines q k acc Hq Hin) as [Hacc Hr].
    eapply same_set_trans.
    - apply same_set_sym. apply (reducer_any_order (k := k)); [exact Hacc|].
      eapply Hdec; exact Hin.
    - specialize (Hr [] (Forall_nil _)). rewrite !app_nil_r in Hr. exact Hr. }
  rewrite map_of_flat_map, reduce_pairs_flat_map.
  - rewrite in_map_flat_map. split.
    + intros ([k acc] & Hin & Ho). exists k, acc. split; [exact Hin|].
      cbn [snd] in Ho.
      apply (same_set_map r_write (Hset k acc Hin)). exact Ho.
    + intros (k & acc & Hin & Ho). exists (k, acc). split; [exact Hin|].
      cbn [snd].
      apply (same_set_map r_write (Hset k acc Hin)). exact Ho.
  - apply ForallOrdPairs_of_NoDup with (gkey := fst).
    + eapply combineByKey_NoDup; exact Hq.
    + intros [k acc] [k' acc'] Hg Hg' Hne a b Ha Hb. simpl in *.
      apply (Permutation_in _ (Permutation_sym (Hdec k acc Hg))) in Ha.
      apply (Permutation_in _ (Permutation_sym (Hdec k' acc' Hg'))) in Hb.
      destruct (combined_refines q k acc Hq Hg) as [Hacc _].
      destruct (combined_refines q k' acc' Hq Hg') as [Hacc' _].
      rewrite Forall_forall in Hacc, Hacc'.
      rewrite (Hacc a Ha), (Hacc' b Hb). exact Hne.
Qed.

Local Abbreviation same_key_lines l0 :=
  (filter (fun x => if bytes_eq_dec (line_key x) (line_key l0) then true else false)
          (collect rdd)).
Local Abbreviation grouped :=
  (groupBy bytes_eq_dec numPartitions hash_bytes line_key rdd).

(** The records that share the key bytes of a record of the input decode
    to the pairs of its key. *)
Lemma lines_of_key (l0 : bytes) :
  In l0 (collect rdd) ->
  List.map r_read (same_key_lines l0) = pairs_of (fst (c_read l0)).
Proof.
  intros H0. rewrite filter_map_swap.
  rewrite (map_ext_in r_read c_read)
    by (intros x Hx; apply filter_In in Hx; apply codec_agree; tauto).
  f_equal. apply filter_ext_in. intros x Hx.
  pose proof (codec_key x l0 Hx H0) as Hk.
  rewrite (codec_agree x Hx), (codec_agree l0 H0) in Hk.
  destruct (bytes_eq_dec (line_key x) (line_key l0)) as [He|Hne];
    destruct (K_eq_dec (fst (c_read x)) (fst (c_read l0))) as [He'|Hne'];
    try reflexivity; exfalso; tauto.
Qed.

Lemma pairs_of_key (k : K) : Forall (has_key k) (pairs_of k).
Proof.
  apply Forall_forall. intros k_v Hin. apply filter_In in Hin.
  destruct Hin as [_ Hk]. destruct (K_eq_dec (fst k_v) k); [assumption | discriminate].
Qed.

(** A group of the shuffle is the group of one of its records. *)
Lemma group_of_record (q : list (bytes * list bytes)) (kb : bytes)
    (lines : list bytes) :
  In q grouped -> In (kb, lines) q ->
  exists l0, In l0 (collect rdd) /\ kb = line_key l0 /\ lines = same_key_lines l0.
Proof.
  intros Hq Hg.
  destruct (groupBy_group bytes_eq_dec numPartitions hash_bytes line_key
              rdd q kb lines Hq Hg) as [Hl Hne].
  destruct lines as [|l0 lines']; [congruence|].
  assert (Hin : In l0 (l0 :: lines')) by (left; reflexivity).
  rewrite Hl in Hin. apply filter_In in Hin. destruct Hin as [H0 Hk].
  destruct (bytes_eq_dec (line_key l0) kb) as [<-|]; [|discriminate].
  exists l0. repeat split; [exact H0 | exact Hl].
Qed.

(** What the reducer stage makes of a partition of the shuffle-and-sort:
    for each group, the reducer's output on the pairs of its key. *)
Lemma shuffle_partition_outputs (q : list (bytes * list bytes))
    (sort_values : bool) (o : bytes) :
  In q grouped ->
  (In o (List.map r_write
           (reduce (List.map r_read
                      (flat_map (fun g => emitted sort_values (snd g)) q))))
   <->
   exists l0, In l0 (collect rdd) /\
              In (line_key l0, same_key_lines l0) q /\
              In o (List.map r_write (reduce (pairs_of (fst (c_read l0)))))).
Proof.
  intros Hq.
  assert (Hset : forall l0,
             In l0 (collect rdd) ->
             same_set
               (reduce (List.map r_read (emitted sort_values (same_key_lines l0))))
               (reduce (pairs_of (fst (c_read l0))))).
  { intros l0 H0. rewrite <- (lines_of_key l0 H0).
    apply same_set_sym. apply (reducer_any_order (k := fst (c_read l0))).
    - rewrite (lines_of_key l0 H0). apply pairs_of_key.
    - apply Permutation_map. apply emitted_perm. }
  rewrite map_of_flat_map, reduce_pairs_flat_map.
  - rewrite in_map_flat_map. split.
    + intros ([kb lines] & Hin & Ho).
      destruct (group_of_record q kb lines Hq Hin) as (l0 & H0 & -> & ->).
      exists l0. split; [exact H0|]. split; [exact Hin|].
      cbn [snd] in Ho. apply (same_set_map r_write (Hset l0 H0)). exact Ho.
    + intros (l0 & H0 & Hin & Ho).
      exists (line_key l0, same_key_lines l0). split; [exact Hin|].
      cbn [snd]. apply (same_set_map r_write (Hset l0 H0)). exact Ho.
  - apply ForallOrdPairs_of_NoDup with (gkey := fst).
    + eapply groupBy_NoDup; exact Hq.
    + intros [kb lines] [kb' lines'] Hg Hg' Hne a b Ha Hb Heq. simpl in *.
      destruct (group_of_record q kb lines Hq Hg) as (l0 & H0 & -> & ->).
      destruct (group_of_record q kb' lines' Hq Hg') as (l0' & H0' & -> & ->).
      apply (Permutation_in _ (Permutation_sym
               (Permutation_map r_read (emitted_perm sort_values _)))) in Ha, Hb.
      rewrite (lines_of_key l0 H0) in Ha. rewrite (lines_of_key l0' H0') in Hb.
      pose proof (pairs_of_key (fst (c_read l0))) as Hall.
      pose proof (pairs_of_key (fst (c_read l0'))) as Hall'.
      rewrite Forall_forall in Hall, Hall'.
      rewrite (Hall a Ha), (Hall' b Hb) in Heq.
      apply Hne. apply codec_key; [exact H0 | exact H0'|].
      rewrite (codec_agree l0 H0), (codec_agree l0' H0'). exact Heq.
Qed.

Lemma in_reduce_pairs_of (k : K) (o : bytes) :
  In o (List.map r_write (reduce (pairs_of k))) ->
  exists l0, In l0 (collect rdd) /\ fst (c_read l0) = k.
Proof.
  intros Ho. destruct (pairs_of k) as [|k_v rest] eqn:E; [contradiction Ho|].
  assert (Hin : In k_v (pairs_of k)) by (rewrite E; left; reflexivity).
  apply filter_In in Hin. destruct Hin as [Hin Hk].
  apply in_map_iff in Hin. destruct Hin as (l0 & <- & H0).
  exists l0. split; [exact H0|].
  destruct (K_eq_dec (fst (c_read l0)) k); [assumption | discriminate].
Qed.

(** The outputs of the reducer stage after the combiner stage: the
    reducer's outputs on the pairs of each key of the input. *)
Lemma combiner_path_outputs (sort_values sort_values' : bool) (o : bytes) :
  In o (collect (_run_reducer K_eq_dec reducer_job
                   (_run_combiner K_eq_dec numPartitions hash_key combiner_job
                      rdd sort_values)
                   sort_values'))
  <-> exists k, In o (List.map r_write (reduce (pairs_of k))).
Proof.
  rewrite run_reducer_outputs. split.
  - intros (p & Hp & Ho). apply run_combiner_partitions in Hp.
    destruct Hp as (q & Hq & ->).
    apply (combiner_partition_outputs q sort_values o Hq) in Ho.
    destruct Ho as (k & _ & _ & Ho). exists k. exact Ho.
  - intros (k & Ho).
    destruct (in_reduce_pairs_of k o Ho) as (l0 & H0 & Hk).
    destruct (final_combiner K_eq_dec (fun k_v => [k_v])
                (fun k_v_list k_v => merge k_v_list [k_v]) merge k
                (Spark.map (fun k_v : K * V => (fst k_v, k_v)) (Spark.map c_read rdd)))
      as [acc|] eqn:Hf.
    + apply combineByKey_complete with (numPartitions := numPartitions)
                                       (partitionFunc := hash_key) in Hf.
      destruct Hf as (q & Hq & Hin).
      exists (flat_map (fun kc => emitted sort_values (List.map c_write (snd kc))) q).
      split.
      * apply run_combiner_partitions. exists q. split; [exact Hq | reflexivity].
      * apply (combiner_partition_outputs q sort_values o Hq).
        exists k, acc. split; assumption.
    + exfalso. apply final_combiner_none in Hf; [|exact hash_key].
      rewrite (values_of_keyed_pairs K_eq_dec combiner_job rdd k) in Hf.
      rewrite Hf in Ho. exact Ho.
Qed.

(** The outputs of the reducer stage after the shuffle-and-sort: the same. *)
Lemma shuffle_path_outputs (sort_values sort_values' : bool) (o : bytes) :
  In o (collect (_run_reducer K_eq_dec reducer_job
                   (_shuffle_and_sort numPartitions hash_bytes rdd sort_values)
                   sort_values'))
  <-> exists k, In o (List.map r_write (reduce (pairs_of k))).
Proof.
  rewrite run_reducer_outputs. split.
  - intros (p & Hp & Ho). apply shuffle_and_sort_partitions in Hp.
    destruct Hp as (q & Hq & ->).
    apply (shuffle_partition_outputs q sort_values o Hq) in Ho.
    destruct Ho as (l0 & _ & _ & Ho). eexists. exact Ho.
  - intros (k & Ho).
    destruct (in_reduce_pairs_of k o Ho) as (l0 & H0 & <-).
    destruct (groupBy_complete bytes_eq_dec numPartitions hash_bytes line_key
                rdd l0 H0) as (q & Hq & Hin).
    exists (flat_map (fun g => emitted sort_values (snd g)) q). split.
    + apply shuffle_and_sort_partitions. exists q. split; [exact Hq | reflexivity].
    + apply (shuffle_partition_outputs q sort_values o Hq).
      exists l0. repeat split; assumption.
Qed.

(** C1 as amended: the combiner stage followed by the reducer stage yields
    the same final key-to-output-set mapping as the shuffle-and-sort
    followed by the same reducer stage on the same input, when
    - two records of the input have the same key bytes exactly when the
      reducer's decoder gives them the same key ([codec_key]): the
      combiner stage groups by decoded key, the shuffle-and-sort by the
      bytes before the first TAB;
    - the reducer's decoder undoes the combiner's encoder
      ([codec_roundtrip]) and decodes the records of the input as the
      combiner's decoder does ([codec_agree]);
    - the job's combiner is a pre-aggregation that does not change what
      the reducer observes: it emits its pairs under the key of its input
      ([combiner_keeps_key]), its output on two pairs of a key is to the
      reducer as good as the two pairs ([combiner_preaggregates]), and the
      reducer's output for a key does not depend on the order of the
      key's pairs ([reducer_any_order]). *)
Theorem combiner_then_reducer_same_outputs
    (sort_values sort_values' : bool) (k o : bytes) :
  key_output
    (_run_reducer K_eq_dec reducer_job
       (_run_combiner K_eq_dec numPartitions hash_key combiner_job rdd sort_values)
       sort_values') k o
  <->
  key_output
    (_run_reducer K_eq_dec reducer_job
       (_shuffle_and_sort numPartitions hash_bytes rdd sort_values)
       sort_values') k o.
Proof.
  unfold key_output.
  rewrite combiner_path_outputs, shuffle_path_outputs. reflexivity.
Qed.

End CombinerEquivalence.

(** ** The counting job meets the conditions *)

Section CountingFacts.
Import Counting.

Lemma line_key_write (k v : nat) : line_key (write (k, v)) = repeat x6b k.
Proof.
  unfold write. cbn [fst snd]. apply line_key_of_key_tab.
  intros Hin. apply repeat_spec in Hin. discriminate Hin.
Qed.

Lemma read_write (k_v : nat * nat) : read (write k_v) = k_v.
Proof.
  destruct k_v as [k v]. unfold read. rewrite line_key_write.
  unfold write. cbn [fst snd].
  rewrite length_app, !repeat_length. cbn [length]. rewrite repeat_length.
  f_equal. lia.
Qed.

Lemma write_key (a b : nat * nat) :
  line_key (write a) = line_key (write b) <-> fst a = fst b.
Proof.
  destruct a as [k v], b as [k' v']. rewrite !line_key_write. cbn [fst]. split.
  - intros H. apply (f_equal (@length byte)) in H.
    rewrite !repeat_length in H. exact H.
  - intros ->. reflexivity.
Qed.

Lemma total_perm (vs vs' : list nat) : Permutation vs vs' -> total vs = total vs'.
Proof.
  induction 1; simpl; try lia.
Qed.

Lemma counting_keeps_key (k v1 v2 : nat) (o : nat * nat) :
  In o (combine_pairs (job 0) [(k, v1); (k, v2)] 0) -> fst o = k.
Proof. intros [<-|[]]. reflexivity. Qed.

Lemma counting_any_order (k : nat) (ps ps' : list (nat * nat)) :
  Forall (fun k_v => fst k_v = k) ps -> Permutation ps ps' ->
  same_set (reduce_pairs Nat.eq_dec (job 0) ps 0)
           (reduce_pairs Nat.eq_dec (job 0) ps' 0).
Proof.
  intros Hall Hperm.
  destruct ps as [|p ps0].
  - apply Permutation_nil in Hperm. subst. apply same_set_refl.
  - assert (Hall' : Forall (fun k_v : nat * nat => fst k_v = k) ps')
      by (eapply Permutation_Forall; eassumption).
    assert (Hne' : ps' <> []).
    { intros ->. apply Permutation_sym, Permutation_nil in Hperm. discriminate. }
    rewrite (reduce_pairs_single_key Nat.eq_dec (job 0) 0 Hall)
      by discriminate.
    rewrite (reduce_pairs_single_key Nat.eq_dec (job 0) 0 Hall' Hne').
    cbn [reducer job].
    rewrite (total_perm (Permutation_map snd Hperm)). apply same_set_refl.
Qed.

Lemma counting_preaggregates (k v1 v2 : nat) (rest : list (nat * nat)) :
  Forall (fun k_v => fst k_v = k) rest ->
  same_set
    (reduce_pairs Nat.eq_dec (job 0)
       (combine_pairs (job 0) [(k, v1); (k, v2)] 0 ++ rest) 0)
    (reduce_pairs Nat.eq_dec (job 0) ((k, v1) :: (k, v2) :: rest) 0).
Proof.
  intros Hall.
  rewrite (reduce_pairs_single_key Nat.eq_dec (job 0) 0 (k := k)
             (pairs := (k, v1) :: (k, v2) :: rest))
    by first [discriminate | repeat constructor; exact Hall].
  cbn [combine_pairs job app List.map snd].
  rewrite (reduce_pairs_single_key Nat.eq_dec (job 0) 0 (k := k))
    by first [discriminate | repeat constructor; exact Hall].
  cbn [reducer job List.map snd total fold_right].
  replace (v1 + (v2 + 0) + fold_right Nat.add 0 (List.map snd rest))
    with (v1 + (v2 + fold_right Nat.add 0 (List.map snd rest))) by lia.
  apply same_set_refl.
Qed.

Lemma counting_codec_key (l l' : bytes) :
  In l (collect two_partitions) -> In l' (collect two_partitions) ->
  (line_key l = line_key l' <-> fst (read l) = fst (read l')).
Proof.
  intros Hl Hl'. simpl in Hl, Hl'.
  destruct Hl as [<-|[<-|[<-|[]]]]; destruct Hl' as [<-|[<-|[<-|[]]]];
    vm_compute; split; intros H; first [reflexivity | discriminate H].
Qed.

Lemma combiner_then_reducer_same_outputs_witness :
  key_output
    (_run_reducer Nat.eq_dec (job 0)
       (_run_combiner Nat.eq_dec numPartitions hash_key (job 0) two_partitions false)
       false)
    (repeat x6b 1) (write (1, 3))
  <->
  key_output
    (_run_reducer Nat.eq_dec (job 0)
       (_shuffle_and_sort numPartitions hash_bytes two_partitions false)
       false)
    (repeat x6b 1) (write (1, 3)).
Proof.
  apply combiner_then_reducer_same_outputs.
  - exact read_write.
  - intros line _. reflexivity.
  - exact counting_codec_key.
  - exact counting_keeps_key.
  - exact counting_any_order.
  - exact counting_preaggregates.
Defined.

(** Without the condition on the key bytes the two paths differ.  The
    counting job meets the conditions on the combiner and the reducer and
    its codec round-trips; the records ['x\t1'] and ['k\t1'] both decode
    to key 1.  The combiner stage sums them, and the reducer then emits
    ['k\t11']; the shuffle-and-sort keeps them in two groups, and the
    reducer emits ['k\t1'] for each. *)
Lemma combiner_groups_by_decoded_key :
  (forall k_v, read (write k_v) = k_v) /\
  (forall k v1 v2 o,
      In o (combine_pairs (job 0) [(k, v1); (k, v2)] 0) -> fst o = k) /\
  (forall k v1 v2 rest,
      Forall (fun k_v => fst k_v = k) rest ->
      same_set
        (reduce_pairs Nat.eq_dec (job 0)
           (combine_pairs (job 0) [(k, v1); (k, v2)] 0 ++ rest) 0)
        (reduce_pairs Nat.eq_dec (job 0) ((k, v1) :: (k, v2) :: rest) 0)) /\
  (forall k ps ps',
      Forall (fun k_v => fst k_v = k) ps -> Permutation ps ps' ->
      same_set (reduce_pairs Nat.eq_dec (job 0) ps 0)
               (reduce_pairs Nat.eq_dec (job 0) ps' 0)) /\
  line_key [x78; TAB; x31] <> line_key (write (1, 1)) /\
  fst (read [x78; TAB; x31]) = fst (read (write (1, 1))) /\
  collect (_run_reducer Nat.eq_dec (job 0)
             (_run_combiner Nat.eq_dec numPartitions hash_key (job 0)
                Listing.two_spellings_of_key_1 false)
             false)
  = [write (1, 2); write (3, 1)] /\
  collect (_run_reducer Nat.eq_dec (job 0)
             (_shuffle_and_sort numPartitions hash_bytes
                Listing.two_spellings_of_key_1 false)
             false)
  = [write (1, 1); write (3, 1); write (1, 1)] /\
  key_output
    (_run_reducer Nat.eq_dec (job 0)
       (_run_combiner Nat.eq_dec numPartitions hash_key (job 0)
          Listing.two_spellings_of_key_1 false)
       false)
    (repeat x6b 1) (write (1, 2)) /\
  ~ key_output
      (_run_reducer Nat.eq_dec (job 0)
         (_shuffle_and_sort numPartitions hash_bytes
            Listing.two_spellings_of_key_1 false)
         false)
      (repeat x6b 1) (write (1, 2)).
Proof.
  split; [exact read_write|].
  split; [exact counting_keeps_key|].
  split; [exact counting_preaggregates|].
  split; [exact counting_any_order|].
  split; [vm_compute; discriminate|].
  split; [reflexivity|].
  split; [reflexivity|].
  split; [reflexivity|].
  split.
  - split; [left; reflexivity | reflexivity].
  - intros [Hin _]. vm_compute in Hin.
    destruct Hin as [H|[H|[H|[]]]]; discriminate H.
Qed.

(** The combiner of [rekeying_job] emits its sums under key 0: the records
    of the keys 2 and 6 come out of the combiner stage under key 0, on
    either side of the record of key 4. *)
Lemma combiner_stage_rekeyed_not_contiguous :
  exists p,
    In p (_run_combiner Nat.eq_dec numPartitions hash_key (rekeying_job 0)
            three_keys false) /\
    p = [write (0, 2); write (4, 1); write (0, 2)] /\
    ~ contiguous line_key p.
Proof.
  exists [write (0, 2); write (4, 1); write (0, 2)].
  split; [vm_compute; left; reflexivity|]. split; [reflexivity|].
  intros Hc.
  specialize (Hc [] (write (0, 2)) [write (4, 1)] (write (0, 2)) []
                 eq_refl eq_refl).
  inversion Hc as [|? ? Hk _]. vm_compute in Hk. discriminate Hk.
Qed.

End CountingFacts.

(** * Further properties of the stages *)

(** ** A list cut into the blocks of its keys *)

Section KeyBlocks.
Context {A B : Type}.
Variable B_eq_dec : forall a b : B, {a = b} + {a <> b}.
Variable key : A -> B.

Local Abbreviation has_key k :=
  (fun x => if B_eq_dec (key x) k then true else false).

Lemma filter_split_perm (p : A -> bool) (l : list A) :
  Permutation l (filter p l ++ filter (fun x => negb (p x)) l).
Proof.
  induction l as [|x l IH]; simpl; [constructor|].
  destruct (p x); simpl.
  - constructor. exact IH.
  - apply Permutation_cons_app. exact IH.
Qed.

Lemma filter_other_key (k k' : B) (l : list A) :
  k' <> k ->
  filter (has_key k') (filter (fun x => negb (has_key k x)) l)
  = filter (has_key k') l.
Proof.
  intros Hne. induction l as [|x l IH]; simpl; [reflexivity|].
  destruct (B_eq_dec (key x) k) as [Hk|Hk]; simpl.
  - destruct (B_eq_dec (key x) k'); [congruence | exact IH].
  - rewrite IH. reflexivity.
Qed.

Lemma flat_map_ext_in {X Y} (f g : X -> list Y) (l : list X) :
  (forall x, In x l -> f x = g x) -> flat_map f l = flat_map g l.
Proof.
  induction l as [|x l IH]; intros H; simpl; [reflexivity|].
  rewrite (H x (or_introl eq_refl)), IH; [reflexivity|].
  intros y Hy. apply H. right; exact Hy.
Qed.

(** The blocks of the keys of [ks], one after the other, hold the records
    of [l], each once. *)
Lemma blocks_by_key_perm (ks : list B) (l : list A) :
  NoDup ks -> (forall x, In x l -> In (key x) ks) ->
  Permutation l (flat_map (fun k => filter (has_key k) l) ks).
Proof.
  revert l. induction ks as [|k ks IH]; intros l Hnd Hin.
  - destruct l as [|x l]; [constructor|]. destruct (Hin x (or_introl eq_refl)).
  - simpl. inversion Hnd as [|? ? Hk Hnd']; subst.
    etransitivity; [apply (filter_split_perm (has_key k))|].
    apply Permutation_app_head.
    etransitivity; [apply IH; [exact Hnd'|]|].
    + intros x Hx. apply filter_In in Hx. destruct Hx as [Hx Hneg].
      destruct (Hin x Hx) as [Heq|Hin']; [|exact Hin'].
      destruct (B_eq_dec (key x) k); [discriminate | congruence].
    + rewrite (flat_map_ext_in
                 (fun k' => filter (has_key k')
                              (filter (fun x => negb (has_key k x)) l))
                 (fun k' => filter (has_key k') l)); [reflexivity|].
      intros k' Hk'. apply filter_other_key. intros ->. exact (Hk Hk').
Qed.

Lemma flat_map_perm_pointwise {X Y} (f g : X -> list Y) (l : list X) :
  (forall x, In x l -> Permutation (f x) (g x)) ->
  Permutation (flat_map f l) (flat_map g l).
Proof.
  induction l as [|x l IH]; intros H; simpl; [constructor|].
  apply Permutation_app; [apply H; left; reflexivity|].
  apply IH. intros y Hy. apply H. right; exact Hy.
Qed.

Lemma concat_map_flat_map {X Y} (f : X -> list Y) (L : list (list X)) :
  concat (List.map (flat_map f) L) = flat_map f (concat L).
Proof.
  induction L as [|l L IH]; simpl; [reflexivity|].
  rewrite flat_map_app, IH. reflexivity.
Qed.

Lemma NoDup_concat_map {X} (g : nat -> list X) (idx : list nat) :
  NoDup idx ->
  (forall i, In i idx -> NoDup (g i)) ->
  (forall i j x, In x (g i) -> In x (g j) -> i = j) ->
  NoDup (concat (List.map g idx)).
Proof.
  intros Hnd Hg Hdisj. induction idx as [|i idx IH]; simpl; [constructor|].
  inversion Hnd as [|? ? Hi Hnd']; subst.
  apply NoDup_app.
  - apply Hg. left; reflexivity.
  - apply IH; [exact Hnd'|]. intros j Hj. apply Hg. right; exact Hj.
  - intros x Hx Hx'. apply in_concat in Hx'. destruct Hx' as (l & Hl & Hxl).
    apply in_map_iff in Hl. destruct Hl as (j & <- & Hj).
    rewrite (Hdisj i j x Hx Hxl) in Hi. exact (Hi Hj).
Qed.

End KeyBlocks.

(** ** Where a shuffle puts a key *)

Section Placement.
Context {K V C : Type}.
Variable K_eq_dec : forall a b : K, {a = b} + {a <> b}.
Variable numPartitions : positive.
Variable partitionFunc : K -> nat.
Variable createCombiner : V -> C.
Variable mergeValue : C -> V -> C.
Variable mergeCombiners_ : C -> C -> C.

Local Abbreviation n := (Pos.to_nat numPartitions).
Local Abbreviation part_of := (partition_of numPartitions partitionFunc).
Local Abbreviation out :=
  (combineByKey K_eq_dec numPartitions partitionFunc
     createCombiner mergeValue mergeCombiners_).
Local Abbreviation final :=
  (final_combiner K_eq_dec createCombiner mergeValue mergeCombiners_).
Local Abbreviation arrived rdd i :=
  (mergeCombiners K_eq_dec mergeCombiners_
     (filter (fun kc => part_of (fst kc) =? i)
        (collect (List.map (mergeValues K_eq_dec createCombiner mergeValue)
                           rdd)))).

Lemma combineByKey_by_index (rdd : RDD (K * V)) :
  out rdd = List.map (fun i => arrived rdd i) (seq 0 n).
Proof.
  unfold combineByKey, mapPartitions, partitionBy.
  rewrite List.map_map. reflexivity.
Qed.

Lemma combineByKey_length (rdd : RDD (K * V)) : length (out rdd) = n.
Proof. rewrite combineByKey_by_index, length_map, length_seq. reflexivity. Qed.

Lemma combineByKey_nth_error (rdd : RDD (K * V)) (i : nat) (p : list (K * C)) :
  nth_error (out rdd) i = Some p <-> i < n /\ p = arrived rdd i.
Proof.
  rewrite combineByKey_by_index, nth_error_map, nth_error_seq.
  destruct (Nat.ltb_spec i n) as [Hlt|Hge]; simpl.
  - split; [intros H; injection H as <-; tauto | intros [_ ->]; reflexivity].
  - split; [discriminate | intros [Hlt _]; lia].
Qed.

Lemma arrived_entry (rdd : RDD (K * V)) (i : nat) (k : K) (c : C) :
  In (k, c) (arrived rdd i) <-> part_of k = i /\ final k rdd = Some c.
Proof.
  rewrite (in_lookup K_eq_dec) by apply mergeCombiners_NoDup.
  rewrite lookup_partition.
  destruct (Nat.eqb_spec (part_of k) i) as [Hi|Hi].
  - tauto.
  - split; [discriminate | tauto].
Qed.

(** A key is in the partition its hash selects, and in no other. *)
Lemma combineByKey_placement (rdd : RDD (K * V)) (i : nat) (p : list (K * C))
    (k : K) (c : C) :
  nth_error (out rdd) i = Some p -> In (k, c) p -> i = part_of k.
Proof.
  intros Hp Hin. apply combineByKey_nth_error in Hp. destruct Hp as [_ ->].
  apply arrived_entry in Hin. symmetry. apply Hin.
Qed.

(** Over all the partitions of the result a key occurs once. *)
Lemma combineByKey_keys_NoDup (rdd : RDD (K * V)) :
  NoDup (List.map fst (collect (out rdd))).
Proof.
  unfold collect. rewrite combineByKey_by_index, concat_map, List.map_map.
  apply NoDup_concat_map.
  - apply seq_NoDup.
  - intros i _. apply mergeCombiners_NoDup.
  - intros i j k Hi Hj.
    apply in_map_iff in Hi. destruct Hi as ([k1 c1] & <- & Hi).
    apply in_map_iff in Hj. destruct Hj as ([k2 c2] & Hk & Hj).
    simpl in Hk. subst k2.
    apply arrived_entry in Hi, Hj. destruct Hi as [<- _], Hj as [<- _].
    reflexivity.
Qed.

Lemma combineByKey_in_collect (rdd : RDD (K * V)) (k : K) (c : C) :
  In (k, c) (collect (out rdd)) <-> final k rdd = Some c.
Proof.
  unfold collect. rewrite in_concat. split.
  - intros (p & Hp & Hin). exact (combineByKey_entry _ _ _ _ _ _ _ _ _ _ Hp Hin).
  - intros Hf.
    destruct (combineByKey_complete K_eq_dec numPartitions partitionFunc
                createCombiner mergeValue mergeCombiners_ rdd k Hf)
      as (p & Hp & Hin).
    exists p. split; assumption.
Qed.

End Placement.

(** ** The shuffle-and-sort stage, record by record *)

Section ShuffleAndSort.
Variable numPartitions : positive.
Variable hash_bytes : bytes -> nat.

Local Abbreviation n := (Pos.to_nat numPartitions).
Local Abbreviation grouped rdd :=
  (groupBy bytes_eq_dec numPartitions hash_bytes line_key rdd).
Local Abbreviation same_key k :=
  (fun x => if bytes_eq_dec (line_key x) k then true else false).
Local Abbreviation shuffled rdd sort_values :=
  (_shuffle_and_sort numPartitions hash_bytes rdd sort_values).

Lemma shuffle_and_sort_collect (rdd : RDD bytes) (sort_values : bool) :
  collect (shuffled rdd sort_values)
  = flat_map (fun g => emitted sort_values (snd g)) (collect (grouped rdd)).
Proof.
  unfold _shuffle_and_sort. rewrite discard_key_and_flatten_values_eq.
  unfold flatMap, collect. apply concat_map_flat_map.
Qed.

Lemma grouped_in_collect (rdd : RDD bytes) (k : bytes) (lines : list bytes) :
  In (k, lines) (collect (grouped rdd)) ->
  lines = filter (same_key k) (collect rdd) /\ lines <> [].
Proof.
  unfold collect at 1. rewrite in_concat. intros (q & Hq & Hin).
  exact (groupBy_group bytes_eq_dec numPartitions hash_bytes line_key
           rdd q k lines Hq Hin).
Qed.

Lemma shuffle_and_sort_nth_error (rdd : RDD bytes) (sort_values : bool)
    (i : nat) (p : list bytes) :
  nth_error (shuffled rdd sort_values) i = Some p ->
  exists q, nth_error (grouped rdd) i = Some q /\
            p = flat_map (fun g => emitted sort_values (snd g)) q.
Proof.
  unfold _shuffle_and_sort. rewrite discard_key_and_flatten_values_eq.
  unfold flatMap. rewrite nth_error_map.
  destruct (nth_error (grouped rdd) i) as [q|]; [|discriminate].
  intros H. injection H as <-. exists q. split; reflexivity.
Qed.

(** X1: the shuffle-and-sort stage neither loses nor duplicates a record:
    the records of its output, over all partitions, are a permutation of
    the records of its input. *)
Theorem shuffle_and_sort_keeps_records (rdd : RDD bytes) (sort_values : bool) :
  Permutation (collect rdd) (collect (shuffled rdd sort_values)).
Proof.
  rewrite shuffle_and_sort_collect.
  etransitivity;
    [apply (blocks_by_key_perm bytes_eq_dec line_key)
       with (ks := List.map fst (collect (grouped rdd)))|].
  - unfold groupBy, groupByKey. apply combineByKey_keys_NoDup.
  - intros x Hx.
    destruct (groupBy_complete bytes_eq_dec numPartitions hash_bytes line_key
                rdd x Hx) as (q & Hq & Hin).
    apply in_map_iff. eexists. split; [|apply in_concat; exists q; split; eassumption].
    reflexivity.
  - rewrite flat_map_map. apply flat_map_perm_pointwise.
    intros [k lines] Hg. cbn [fst snd].
    destruct (grouped_in_collect _ _ _ Hg) as [<- _]. apply emitted_perm.
Qed.

(** X2: the output of the shuffle-and-sort stage has [numPartitions]
    partitions, whatever the partitions of the input, and a record is in
    the partition that the hash of its key selects: records with the same
    key are in the same partition. *)
Theorem shuffle_and_sort_placement (rdd : RDD bytes) (sort_values : bool) :
  length (shuffled rdd sort_values) = n /\
  (forall i p x,
      nth_error (shuffled rdd sort_values) i = Some p -> In x p ->
      i = hash_bytes (line_key x) mod n) /\
  (forall i j p p' x y,
      nth_error (shuffled rdd sort_values) i = Some p -> In x p ->
      nth_error (shuffled rdd sort_values) j = Some p' -> In y p' ->
      line_key x = line_key y -> i = j).
Proof.
  assert (Hplace : forall i p x,
             nth_error (shuffled rdd sort_values) i = Some p -> In x p ->
             i = hash_bytes (line_key x) mod n).
  { intros i p x Hp Hx.
    apply shuffle_and_sort_nth_error in Hp. destruct Hp as (q & Hq & ->).
    apply in_flat_map in Hx. destruct Hx as ([k lines] & Hg & Hx).
    cbn [snd] in Hx. apply in_emitted in Hx.
    assert (Hk : line_key x = k).
    { destruct (groupBy_group bytes_eq_dec numPartitions hash_bytes line_key
                  rdd q k lines (nth_error_In _ _ Hq) Hg) as [-> _].
      apply filter_In in Hx. destruct Hx as [_ Hx].
      destruct (bytes_eq_dec (line_key x) k); [assumption | discriminate]. }
    rewrite Hk. unfold groupBy, groupByKey in Hq.
    unfold partition_of in *.
    exact (combineByKey_placement _ _ _ _ _ _ _ _ _ _ Hq Hg). }
  split; [|split].
  - unfold _shuffle_and_sort. rewrite discard_key_and_flatten_values_eq.
    unfold flatMap. rewrite length_map. unfold groupBy, groupByKey.
    apply combineByKey_length.
  - exact Hplace.
  - intros i j p p' x y Hp Hx Hp' Hy Hk.
    rewrite (Hplace i p x Hp Hx), (Hplace j p' y Hp' Hy), Hk. reflexivity.
Qed.

Lemma filter_flat_map {X Y} (f : Y -> bool) (g : X -> list Y) (l : list X) :
  filter f (flat_map g l) = flat_map (fun x => filter f (g x)) l.
Proof.
  induction l as [|x l IH]; simpl; [reflexivity|].
  rewrite filter_app, IH. reflexivity.
Qed.

Lemma filter_all {Y} (f : Y -> bool) (l : list Y) :
  (forall y, In y l -> f y = true) -> filter f l = l.
Proof.
  induction l as [|y l IH]; intros H; simpl; [reflexivity|].
  rewrite (H y (or_introl eq_refl)), IH; [reflexivity|].
  intros z Hz. apply H. right; exact Hz.
Qed.

Lemma filter_none {Y} (f : Y -> bool) (l : list Y) :
  (forall y, In y l -> f y = false) -> filter f l = [].
Proof.
  induction l as [|y l IH]; intros H; simpl; [reflexivity|].
  rewrite (H y (or_introl eq_refl)). apply IH.
  intros z Hz. apply H. right; exact Hz.
Qed.

Lemma flat_map_select {X Y} (k : bytes) (E : bytes * X -> list Y)
    (q : list (bytes * X)) :
  NoDup (List.map fst q) ->
  flat_map (fun g => if bytes_eq_dec (fst g) k then E g else []) q
  = match lookup bytes_eq_dec k q with
    | Some c => E (k, c)
    | None => []
    end.
Proof.
  induction q as [|[k' c] q IH]; intros Hnd; simpl; [reflexivity|].
  inversion Hnd as [|? ? Hk Hnd']; subst.
  destruct (bytes_eq_dec k' k) as [->|Hne].
  - rewrite (flat_map_ext_in _ (fun _ => [])).
    + clear. induction q; simpl; [apply app_nil_r | assumption].
    + intros [k2 c2] Hin. cbn [fst].
      destruct (bytes_eq_dec k2 k) as [->|]; [|reflexivity].
      exfalso. apply Hk. apply in_map_iff. exists (k, c2). split; [reflexivity | exact Hin].
  - simpl. apply IH. exact Hnd'.
Qed.

(** The records of key [k] in partition [i] of the output. *)
Lemma shuffle_and_sort_key_lines (rdd : RDD bytes) (sort_values : bool)
    (i : nat) (p : list bytes) (k : bytes) :
  nth_error (shuffled rdd sort_values) i = Some p ->
  filter (same_key k) p
  = if i =? hash_bytes k mod n
    then emitted sort_values (filter (same_key k) (collect rdd))
    else [].
Proof.
  intros Hp.
  apply shuffle_and_sort_nth_error in Hp. destruct Hp as (q & Hq & ->).
  rewrite filter_flat_map.
  rewrite (flat_map_ext_in _
             (fun g => if bytes_eq_dec (fst g) k
                       then emitted sort_values (snd g) else [])).
  - rewrite flat_map_select
      by exact (groupBy_NoDup bytes_eq_dec numPartitions hash_bytes line_key
                  rdd q (nth_error_In _ _ Hq)).
    unfold groupBy, groupByKey in Hq.
    apply combineByKey_nth_error in Hq. destruct Hq as [_ ->].
    rewrite lookup_partition. unfold partition_of. rewrite Nat.eqb_sym.
    destruct (i =? hash_bytes k mod n); [|reflexivity].
    cbn [snd].
    destruct (final_combiner bytes_eq_dec (fun x => [x]) (fun xs x => xs ++ [x])
                (fun a b => a ++ b) k
                (Spark.map (fun x => (line_key x, x)) rdd)) as [lines|] eqn:Hf.
    + rewrite (groupBy_final bytes_eq_dec hash_bytes line_key rdd k Hf).
      reflexivity.
    + apply final_combiner_none in Hf; [|exact hash_bytes].
      rewrite collect_map, (values_of_keyed bytes_eq_dec line_key (fun x => x)),
        map_id in Hf.
      rewrite Hf. destruct sort_values; reflexivity.
  - intros [k' lines] Hg. cbn [fst snd].
    destruct (groupBy_group bytes_eq_dec numPartitions hash_bytes line_key
                rdd q k' lines (nth_error_In _ _ Hq) Hg) as [Hl _].
    assert (Hkey : forall x, In x (emitted sort_values lines) -> line_key x = k').
    { intros x Hx. apply in_emitted in Hx. rewrite Hl in Hx.
      apply filter_In in Hx. destruct Hx as [_ Hx].
      destruct (bytes_eq_dec (line_key x) k'); [assumption | discriminate]. }
    destruct (bytes_eq_dec k' k) as [<-|Hne].
    + apply filter_all. intros x Hx. rewrite (Hkey x Hx).
      destruct (bytes_eq_dec k' k'); [reflexivity | congruence].
    + apply filter_none. intros x Hx. rewrite (Hkey x Hx).
      destruct (bytes_eq_dec k' k); [congruence | reflexivity].
Qed.

(** X3: in the output of the shuffle-and-sort stage, the records of a key
    in the key's partition are the records of that key in the input: in
    sorted order with [sort_values], so in non-decreasing lexicographic
    order, and in the order of the input without it.  The other
    partitions hold no record of the key. *)
Theorem shuffle_and_sort_values_of_key (rdd : RDD bytes) (sort_values : bool)
    (i : nat) (p : list bytes) (k : bytes) :
  nth_error (shuffled rdd sort_values) i = Some p ->
  filter (same_key k) p
  = (if i =? hash_bytes k mod n
     then if sort_values then sorted (filter (same_key k) (collect rdd))
          else filter (same_key k) (collect rdd)
     else []) /\
  (sort_values = true -> Sorted lex_le (filter (same_key k) p)).
Proof.
  intros Hp. pose proof (shuffle_and_sort_key_lines _ _ _ k Hp) as Heq.
  split.
  - rewrite Heq. destruct sort_values; reflexivity.
  - intros ->. rewrite Heq. destruct (i =? hash_bytes k mod n).
    + apply sorted_sorted_lex.
    + constructor.
Qed.

Lemma lex_le_app_inv (prefix a b : bytes) :
  lex_le (prefix ++ a) (prefix ++ b) -> lex_le a b.
Proof.
  induction prefix as [|x prefix IH]; simpl; intros H; [exact H|].
  inversion H as [|? ? ? ? Hlt|? ? ? Hle]; subst.
  - exfalso. exact (N.lt_irrefl _ Hlt).
  - apply IH. exact Hle.
Qed.

Lemma line_value_of_key_only (k : bytes) :
  line_key k = k -> line_value k = [].
Proof.
  intros Hk. unfold line_value. rewrite Hk. apply skipn_all2. lia.
Qed.

Lemma line_value_of_key_tab (k value : bytes) :
  line_key (k ++ TAB :: value) = k -> line_value (k ++ TAB :: value) = value.
Proof.
  intros Hk. unfold line_value. rewrite Hk.
  change (S (length k)) with (1 + length k).
  rewrite <- skipn_skipn, skipn_app, Nat.sub_diag, skipn_all. reflexivity.
Qed.

(** Two lines with the same key are ordered as their values are. *)
Lemma lex_le_line_value (x y : bytes) :
  line_key x = line_key y -> lex_le x y -> lex_le (line_value x) (line_value y).
Proof.
  intros Hk Hle.
  destruct (line_key_prefix x) as [_ [Hx|(vx & Hx)]].
  - rewrite line_value_of_key_only by congruence. constructor.
  - destruct (line_key_prefix y) as [_ [Hy|(vy & Hy)]].
    + exfalso. rewrite Hx, Hy, Hk in Hle.
      rewrite <- (app_nil_r (line_key y)) in Hle at 2.
      apply lex_le_app_inv in Hle. inversion Hle.
    + assert (Hvx : line_value x = vx).
      { rewrite Hx at 1. apply line_value_of_key_tab. rewrite <- Hx. reflexivity. }
      assert (Hvy : line_value y = vy).
      { rewrite Hy at 1. apply line_value_of_key_tab. rewrite <- Hy. reflexivity. }
      rewrite Hvx, Hvy. rewrite Hx, Hy, Hk in Hle.
      apply lex_le_app_inv in Hle.
      inversion Hle as [|? ? ? ? Hlt|? ? ? Hle']; subst.
      * exfalso. exact (N.lt_irrefl _ Hlt).
      * exact Hle'.
Qed.

Lemma Sorted_map_on {A B} (R : A -> A -> Prop) (R' : B -> B -> Prop)
    (P : A -> Prop) (f : A -> B) (l : list A) :
  (forall a b, P a -> P b -> R a b -> R' (f a) (f b)) ->
  Forall P l -> Sorted R l -> Sorted R' (List.map f l).
Proof.
  intros Hmono Hall Hs. induction Hs as [|a l Hl IH Ha]; simpl; [constructor|].
  apply Forall_cons_iff in Hall. destruct Hall as [Pa Pl].
  constructor; [apply IH; exact Pl|].
  destruct Ha as [|b l' Hab]; simpl; constructor.
  apply Forall_cons_iff in Pl. apply Hmono; [exact Pa | apply Pl | exact Hab].
Qed.

(** X4: with [sort_values], in every partition of the output of the
    shuffle-and-sort stage the records of one key are sorted by their
    encoded value: what follows the key and its TAB is in non-decreasing
    lexicographic order from one record of the key to the next. *)
Theorem shuffle_and_sort_sorted_by_value (rdd : RDD bytes) (p : list bytes)
    (k : bytes) :
  In p (shuffled rdd true) ->
  Sorted lex_le (List.map line_value (filter (same_key k) p)).
Proof.
  intros Hp. apply In_nth_error in Hp. destruct Hp as (i & Hp).
  apply Sorted_map_on with (R := lex_le) (P := fun x => line_key x = k).
  - intros a b Ha Hb. apply lex_le_line_value. congruence.
  - apply Forall_forall. intros x Hx. apply filter_In in Hx.
    destruct Hx as [_ Hx].
    destruct (bytes_eq_dec (line_key x) k); [assumption | discriminate].
  - rewrite (shuffle_and_sort_key_lines _ _ _ k Hp).
    destruct (i =? hash_bytes k mod n); [apply sorted_sorted_lex | constructor].
Qed.

End ShuffleAndSort.

(** ** The combiner stage, record by record *)

Section CombinerStageRecords.
Context {K V : Type}.
Variable K_eq_dec : forall a b : K, {a = b} + {a <> b}.
Variable numPartitions : positive.
Variable hash_key : K -> nat.
Variable combiner_job : MRJob K V.

Local Abbreviation n := (Pos.to_nat numPartitions).
Local Abbreviation step_num := (options_step_num combiner_job).
Local Abbreviation c_read :=
  (fst (pick_protocols combiner_job step_num mrc_combiner)).
Local Abbreviation c_write :=
  (snd (pick_protocols combiner_job step_num mrc_combiner)).
Local Abbreviation merge :=
  (fun pairs1 pairs2 => fst (combiner_helper combiner_job step_num pairs1 pairs2)).
Local Abbreviation keyed rdd :=
  (Spark.map (fun k_v : K * V => (fst k_v, k_v)) (Spark.map c_read rdd)).
Local Abbreviation combined rdd :=
  (combineByKey K_eq_dec numPartitions hash_key
     (fun k_v => [k_v]) (fun k_v_list k_v => merge k_v_list [k_v]) merge
     (keyed rdd)).
Local Abbreviation final k rdd :=
  (final_combiner K_eq_dec
     (fun k_v : K * V => [k_v]) (fun k_v_list k_v => merge k_v_list [k_v]) merge
     k (keyed rdd)).
Local Abbreviation run rdd sort_values :=
  (_run_combiner K_eq_dec numPartitions hash_key combiner_job rdd sort_values).
Local Abbreviation lines_of sort_values :=
  (fun kc : K * list (K * V) => emitted sort_values (List.map c_write (snd kc))).
Local Abbreviation decoded rdd := (List.map c_read (collect rdd)).
Local Abbreviation keyed_as k :=
  (fun k_v : K * V => if K_eq_dec (fst k_v) k then true else false).

Lemma run_combiner_eq (rdd : RDD bytes) (sort_values : bool) :
  run rdd sort_values = List.map (flat_map (lines_of sort_values)) (combined rdd).
Proof.
  unfold _run_combiner.
  destruct (pick_protocols combiner_job step_num mrc_combiner) as [r w].
  cbn [fst snd]. rewrite discard_key_and_flatten_values_eq.
  unfold flatMap, mapValues. unfold Spark.map at 1.
  rewrite List.map_map. apply map_ext. intros q.
  rewrite flat_map_map. reflexivity.
Qed.

Lemma run_combiner_length (rdd : RDD bytes) (sort_values : bool) :
  length (run rdd sort_values) = n.
Proof. rewrite run_combiner_eq, length_map. apply combineByKey_length. Qed.

Lemma run_combiner_collect (rdd : RDD bytes) (sort_values : bool) :
  collect (run rdd sort_values)
  = flat_map (lines_of sort_values) (collect (combined rdd)).
Proof. rewrite run_combiner_eq. unfold collect. apply concat_map_flat_map. Qed.

Lemma run_combiner_nth_error (rdd : RDD bytes) (sort_values : bool)
    (i : nat) (p : list bytes) :
  nth_error (run rdd sort_values) i = Some p ->
  exists q, nth_error (combined rdd) i = Some q /\
            p = flat_map (lines_of sort_values) q.
Proof.
  rewrite run_combiner_eq, nth_error_map.
  destruct (nth_error (combined rdd) i) as [q|]; [|discriminate].
  intros H. injection H as <-. exists q. split; reflexivity.
Qed.

(** The keys the stage ends with an accumulator for are the decoded keys
    of the input. *)
Lemma combined_key_in (rdd : RDD bytes) (k : K) :
  In k (List.map fst (collect (combined rdd))) <->
  In k (List.map fst (decoded rdd)).
Proof.
  assert (Hnone : final k rdd = None <-> ~ In k (List.map fst (decoded rdd))).
  { rewrite final_combiner_none by exact hash_key.
    rewrite values_of_keyed_pairs. split.
    - intros Hnil Hin. apply in_map_iff in Hin. destruct Hin as (k_v & Hk & Hin).
      assert (Hf : In k_v (filter (keyed_as k) (decoded rdd))).
      { apply filter_In. split; [exact Hin|].
        destruct (K_eq_dec (fst k_v) k); [reflexivity | contradiction]. }
      rewrite Hnil in Hf. exact Hf.
    - intros Hnot. apply filter_none. intros k_v Hin.
      destruct (K_eq_dec (fst k_v) k) as [Hk|]; [|reflexivity].
      exfalso. apply Hnot. apply in_map_iff. exists k_v. split; assumption. }
  split.
  - intros Hin. apply in_map_iff in Hin. destruct Hin as ([k' acc] & Hk & Hin).
    simpl in Hk. subst k'. apply combineByKey_in_collect in Hin.
    destruct (ListDec.In_dec K_eq_dec k (List.map fst (decoded rdd))) as [|Hnot];
      [assumption|].
    apply Hnone in Hnot. congruence.
  - intros Hin.
    destruct (final k rdd) as [acc|] eqn:Hf.
    + apply in_map_iff. exists (k, acc). split; [reflexivity|].
      apply combineByKey_in_collect. exact Hf.
    + destruct Hnone as [Hnot _]. destruct (Hnot eq_refl Hin).
Qed.

(** X5: the output of the combiner stage has [numPartitions] partitions;
    when the job's combiner emits its pairs under the key of its input,
    every record of a partition is the encoding of a pair whose key the
    hash sends to that partition. *)
Theorem run_combiner_placement (rdd : RDD bytes) (sort_values : bool) :
  (forall k v1 v2 o,
      In o (combine_pairs combiner_job [(k, v1); (k, v2)] step_num) -> fst o = k) ->
  length (run rdd sort_values) = n /\
  (forall i p line,
      nth_error (run rdd sort_values) i = Some p -> In line p ->
      exists pair, line = c_write pair /\ i = hash_key (fst pair) mod n).
Proof.
  intros Hkeep. split; [apply run_combiner_length|].
  intros i p line Hp Hline.
  apply run_combiner_nth_error in Hp. destruct Hp as (q & Hq & ->).
  apply in_flat_map in Hline. destruct Hline as ([k acc] & Hg & Hline).
  cbn [snd] in Hline. apply in_emitted in Hline.
  apply in_map_iff in Hline. destruct Hline as (pair & <- & Hpair).
  exists pair. split; [reflexivity|].
  pose proof (@combined_keys _ _ K_eq_dec numPartitions hash_key combiner_job
                rdd q k acc Hkeep (nth_error_In _ _ Hq) Hg) as Hall.
  rewrite Forall_forall in Hall. rewrite (Hall pair Hpair).
  exact (combineByKey_placement _ _ _ _ _ _ _ _ _ _ Hq Hg).
Qed.

(** With a combiner that answers a pair of pairs with one pair, every
    accumulator is a single pair. *)
Lemma combined_singletons (rdd : RDD bytes) (k : K) (acc : list (K * V)) :
  (forall p1 p2, length (combine_pairs combiner_job [p1; p2] step_num) = 1) ->
  In (k, acc) (collect (combined rdd)) -> length acc = 1.
Proof.
  intros Hone Hin. apply combineByKey_in_collect in Hin.
  assert (Hmerge : forall a b : list (K * V),
             length a = 1 -> length b = 1 -> length (merge a b) = 1).
  { intros a b Ha Hb.
    destruct (merge_cases combiner_job a b) as [(p1 & p2 & -> & -> & ->) | Hcat].
    - apply Hone.
    - destruct a as [|p1 [|? ?]]; try discriminate Ha.
      destruct b as [|p2 [|? ?]]; try discriminate Hb.
      rewrite combiner_helper_singletons. apply Hone. }
  apply final_combiner_invariant
    with (R := fun (_ : K) (_ : list (K * V)) (c : list (K * V)) => length c = 1)
    in Hin; [exact Hin | exact hash_key | | |].
  - reflexivity.
  - intros k0 vs c v Hc. apply Hmerge; [exact Hc | reflexivity].
  - intros k0 vs1 c1 vs2 c2 H1 H2. apply Hmerge; assumption.
Qed.

(** X6: when the job's combiner answers every two pairs with exactly one
    pair (the common case the source is written for), the combiner stage
    returns one record per key: as many records as there are distinct
    decoded keys in the input. *)
Theorem run_combiner_one_record_per_key (rdd : RDD bytes) (sort_values : bool) :
  (forall p1 p2, length (combine_pairs combiner_job [p1; p2] step_num) = 1) ->
  length (collect (run rdd sort_values))
  = length (nodup K_eq_dec (List.map (fun line => fst (c_read line)) (collect rdd))).
Proof.
  intros Hone. rewrite run_combiner_collect.
  rewrite (flat_map_constant_length (c := 1)).
  - rewrite Nat.mul_1_r, <- (length_map fst).
    apply Permutation_length. apply NoDup_Permutation.
    + apply combineByKey_keys_NoDup.
    + apply NoDup_nodup.
    + intros k. rewrite nodup_In, combined_key_in, List.map_map. reflexivity.
  - intros [k acc] Hin. cbn [snd].
    rewrite <- (Permutation_length (emitted_perm sort_values _)), length_map.
    eapply combined_singletons; eassumption.
Qed.

(** A key with one record keeps it as it is. *)
Lemma combined_single_value (rdd : RDD bytes) (k : K) (acc : list (K * V))
    (pair : K * V) :
  In (k, acc) (collect (combined rdd)) ->
  filter (keyed_as k) (decoded rdd) = [pair] -> acc = [pair].
Proof.
  intros Hin Hone. apply combineByKey_in_collect in Hin.
  apply final_combiner_invariant
    with (R := fun (_ : K) (vs c : list (K * V)) =>
                 vs <> [] /\ (length vs = 1 -> c = vs))
    in Hin; [| exact hash_key | | |].
  - rewrite values_of_keyed_pairs, Hone in Hin. apply Hin. reflexivity.
  - intros _ v. split; [discriminate | reflexivity].
  - intros _ vs c v [Hne _]. split.
    + destruct vs; discriminate.
    + rewrite length_app. simpl. destruct vs; [congruence | simpl; lia].
  - intros _ vs1 c1 vs2 c2 [Hne1 _] [Hne2 _]. split.
    + destruct vs1; [congruence | discriminate].
    + rewrite length_app. destruct vs1; [congruence|].
      destruct vs2; [congruence | simpl; lia].
Qed.

Lemma filter_key_NoDup (l : list (K * V)) (k : K) :
  NoDup (List.map fst l) -> length (filter (keyed_as k) l) <= 1.
Proof.
  induction l as [|[k' v] l IH]; intros Hnd; simpl; [lia|].
  inversion Hnd as [|? ? Hk Hnd']; subst.
  destruct (K_eq_dec k' k) as [->|Hne]; [|apply IH; exact Hnd'].
  simpl. rewrite filter_none; [simpl; lia|].
  intros [k2 v2] Hin. cbn [fst].
  destruct (K_eq_dec k2 k) as [->|]; [|reflexivity].
  exfalso. apply Hk. apply in_map_iff. exists (k, v2). split; [reflexivity | exact Hin].
Qed.

(** X7: when no two records of the input have the same decoded key, the
    combiner stage returns the input records decoded and encoded again,
    each once, whatever the job's combiner does: a key with a single
    record does not go through the combiner. *)
Theorem run_combiner_distinct_keys (rdd : RDD bytes) (sort_values : bool) :
  NoDup (List.map (fun line => fst (c_read line)) (collect rdd)) ->
  Permutation (List.map (fun line => c_write (c_read line)) (collect rdd))
              (collect (run rdd sort_values)).
Proof.
  intros Hnd. rewrite run_combiner_collect.
  rewrite <- (List.map_map c_read c_write).
  rewrite <- (List.map_map c_read fst) in Hnd.
  etransitivity.
  - apply Permutation_map.
    apply (blocks_by_key_perm K_eq_dec fst)
      with (ks := List.map fst (collect (combined rdd))).
    + apply combineByKey_keys_NoDup.
    + intros pair Hpair. apply combined_key_in.
      apply in_map. exact Hpair.
  - rewrite map_of_flat_map, flat_map_map.
    apply flat_map_perm_pointwise. intros [k acc] Hin. cbn [fst snd].
    assert (Hk : In k (List.map fst (decoded rdd))).
    { apply combined_key_in. apply in_map_iff. exists (k, acc).
      split; [reflexivity | exact Hin]. }
    pose proof (filter_key_NoDup (decoded rdd) k Hnd) as Hle.
    destruct (filter (keyed_as k) (decoded rdd)) as [|pair [|? ?]] eqn:Hf.
    + exfalso. apply in_map_iff in Hk. destruct Hk as (k_v & Hkv & Hk).
      assert (Hin' : In k_v (filter (keyed_as k) (decoded rdd))).
      { apply filter_In. split; [exact Hk|].
        destruct (K_eq_dec (fst k_v) k); [reflexivity | contradiction]. }
      rewrite Hf in Hin'. exact Hin'.
    + assert (Hacc : acc = [pair])
        by (eapply combined_single_value; eassumption).
      rewrite Hacc. apply emitted_perm.
    + simpl in Hle. lia.
Qed.

Lemma sorted_flat_map_one {X} (R : bytes -> bytes -> Prop)
    (F : X -> list bytes) (q : list X) :
  (forall g, In g q -> Sorted R (F g)) ->
  ForallOrdPairs (fun g g' => F g = [] \/ F g' = []) q ->
  Sorted R (flat_map F q).
Proof.
  intros Hs Hord. induction Hord as [|g q Hfirst Hord IH]; simpl; [constructor|].
  destruct (F g) as [|x l] eqn:HF.
  - simpl. apply IH. intros g' Hg'. apply Hs. right; exact Hg'.
  - assert (Hnil : flat_map F q = []).
    { rewrite Forall_forall in Hfirst. clear - Hfirst.
      induction q as [|g' q IHq]; simpl; [reflexivity|].
      destruct (Hfirst g' (or_introl eq_refl)) as [H|H]; [discriminate|].
      rewrite H. apply IHq. intros g'' Hg''. apply Hfirst. right; exact Hg''. }
    rewrite Hnil, app_nil_r, <- HF. apply Hs. left; reflexivity.
Qed.

(** X8: with [sort_values], when the combiner's encoder writes two pairs
    with the same key bytes exactly when their keys are equal and the
    job's combiner emits its pairs under the key of its input, in every
    partition of the output of the combiner stage the records of one key
    are in non-decreasing lexicographic order. *)
Theorem run_combiner_sorted_values (rdd : RDD bytes) (p : list bytes) (k : bytes) :
  (forall a b, line_key (c_write a) = line_key (c_write b) <-> fst a = fst b) ->
  (forall k v1 v2 o,
      In o (combine_pairs combiner_job [(k, v1); (k, v2)] step_num) -> fst o = k) ->
  In p (run rdd true) ->
  Sorted lex_le
    (filter (fun line => if bytes_eq_dec (line_key line) k then true else false) p).
Proof.
  intros Hcodec Hkeep Hp.
  apply run_combiner_partitions in Hp. destruct Hp as (q & Hq & ->).
  assert (Hkey : forall k' acc line,
             In (k', acc) q -> In line (lines_of true (k', acc)) ->
             exists pair, line = c_write pair /\ fst pair = k').
  { intros k' acc line Hg Hline. cbn [snd] in Hline.
    apply in_emitted in Hline. apply in_map_iff in Hline.
    destruct Hline as (pair & <- & Hpair). exists pair. split; [reflexivity|].
    pose proof (@combined_keys _ _ K_eq_dec numPartitions hash_key combiner_job
                  rdd q k' acc Hkeep Hq Hg) as Hall.
    rewrite Forall_forall in Hall. exact (Hall pair Hpair). }
  rewrite filter_flat_map. apply sorted_flat_map_one.
  - intros [k' acc] Hg.
    destruct (lines_of true (k', acc)) as [|l0 rest] eqn:Hlines; [constructor|].
    destruct (Hkey k' acc l0 Hg) as (pair0 & Hl0 & Hk0);
      [rewrite Hlines; left; reflexivity|].
    assert (Hsame : forall line, In line (l0 :: rest) -> line_key line = line_key l0).
    { intros line Hline. rewrite <- Hlines in Hline.
      destruct (Hkey k' acc line Hg Hline) as (pair & -> & Hk').
      rewrite Hl0. apply Hcodec. congruence. }
    destruct (bytes_eq_dec (line_key l0) k) as [Heq|Hne].
    + rewrite filter_all.
      * rewrite <- Hlines. cbn [snd]. apply sorted_sorted_lex.
      * intros line Hline. rewrite (Hsame line Hline).
        destruct (bytes_eq_dec (line_key l0) k); [reflexivity | contradiction].
    + rewrite filter_none; [constructor|].
      intros line Hline. rewrite (Hsame line Hline).
      destruct (bytes_eq_dec (line_key l0) k); [contradiction | reflexivity].
  - apply (ForallOrdPairs_of_NoDup (@fst K (list (K * V)))).
    + exact (combineByKey_NoDup _ _ _ _ _ _ _ _ Hq).
    + intros [k1 acc1] [k2 acc2] Hg1 Hg2 Hne. cbn [fst] in Hne.
      destruct (filter (fun line => if bytes_eq_dec (line_key line) k
                                    then true else false)
                       (lines_of true (k1, acc1))) as [|l1 rest1] eqn:Hf1;
        [left; reflexivity|].
      right. apply filter_none. intros l2 Hl2.
      destruct (bytes_eq_dec (line_key l2) k) as [Hk2|]; [|reflexivity].
      exfalso.
      assert (Hl1 : In l1 (filter (fun line => if bytes_eq_dec (line_key line) k
                                               then true else false)
                                  (lines_of true (k1, acc1))))
        by (rewrite Hf1; left; reflexivity).
      apply filter_In in Hl1. destruct Hl1 as [Hl1 Hk1].
      destruct (bytes_eq_dec (line_key l1) k) as [Hk1'|]; [|discriminate].
      destruct (Hkey k1 acc1 l1 Hg1 Hl1) as (pair1 & -> & Hp1).
      destruct (Hkey k2 acc2 l2 Hg2 Hl2) as (pair2 & -> & Hp2).
      apply Hne. rewrite <- Hp1, <- Hp2. apply Hcodec. congruence.
Qed.

End CombinerStageRecords.

(** ** The order of sorted values *)

Section SortedValues.

Lemma bytes_leb_trans (a b c : bytes) :
  bytes_leb a b = true -> bytes_leb b c = true -> bytes_leb a c = true.
Proof.
  revert b c. induction a as [|x a IH]; intros b c Hab Hbc; [reflexivity|].
  destruct b as [|y b]; [discriminate Hab|].
  destruct c as [|z c]; [discriminate Hbc|].
  simpl in *.
  destruct (N.ltb_spec (Byte.to_N x) (Byte.to_N y)) as [Hxy|Hxy];
    destruct (N.ltb_spec (Byte.to_N y) (Byte.to_N z)) as [Hyz|Hyz];
    destruct (N.ltb_spec (Byte.to_N x) (Byte.to_N z)) as [Hxz|Hxz];
    try reflexivity; try lia;
    destruct (N.eqb_spec (Byte.to_N x) (Byte.to_N y)) as [Exy|Exy];
    destruct (N.eqb_spec (Byte.to_N y) (Byte.to_N z)) as [Eyz|Eyz];
    destruct (N.eqb_spec (Byte.to_N x) (Byte.to_N z)) as [Exz|Exz];
    try discriminate; try lia.
  exact (IH b c Hab Hbc).
Qed.

Lemma bytes_leb_antisym (a b : bytes) :
  bytes_leb a b = true -> bytes_leb b a = true -> a = b.
Proof.
  revert b. induction a as [|x a IH]; intros [|y b] Hab Hba;
    try reflexivity; try discriminate.
  simpl in *.
  destruct (N.ltb_spec (Byte.to_N x) (Byte.to_N y)) as [Hxy|Hxy];
    destruct (N.ltb_spec (Byte.to_N y) (Byte.to_N x)) as [Hyx|Hyx];
    try lia;
    destruct (N.eqb_spec (Byte.to_N x) (Byte.to_N y)) as [Exy|Exy];
    destruct (N.eqb_spec (Byte.to_N y) (Byte.to_N x)) as [Eyx|Eyx];
    try discriminate; try lia.
  rewrite (to_N_inj _ _ Exy), (IH b Hab Hba). reflexivity.
Qed.

(** A list has one sorted arrangement. *)
Lemma sorted_unique (l l' : list bytes) :
  Sorted bytes_le l -> Sorted bytes_le l' -> Permutation l l' -> l = l'.
Proof.
  intros Hs Hs'.
  apply Sorted_StronglySorted in Hs, Hs';
    try (intros a b c; apply bytes_leb_trans).
  revert l' Hs'. induction Hs as [|x l Hl IH Hx]; intros l' Hs' Hperm.
  - apply Permutation_nil in Hperm. symmetry; exact Hperm.
  - destruct Hs' as [|y l' Hl' Hy].
    + symmetry in Hperm. apply Permutation_nil in Hperm. discriminate.
    + assert (Hxy : x = y).
      { rewrite Forall_forall in Hx, Hy.
        assert (Hin : In x (y :: l'))
          by (apply (Permutation_in _ Hperm); left; reflexivity).
        assert (Hin' : In y (x :: l))
          by (apply (Permutation_in _ (Permutation_sym Hperm)); left; reflexivity).
        destruct Hin as [Heq|Hin]; [symmetry; exact Heq|].
        destruct Hin' as [Heq|Hin']; [exact Heq|].
        apply bytes_leb_antisym; [apply Hx; exact Hin' | apply Hy; exact Hin]. }
      subst y. f_equal. apply IH; [exact Hl'|].
      exact (Permutation_cons_inv Hperm).
Qed.

Lemma sorted_of_perm (lines lines' : list bytes) :
  Permutation lines lines' -> sorted lines = sorted lines'.
Proof.
  intros Hperm. apply sorted_unique; try apply sorted_sorted.
  etransitivity; [symmetry; apply sorted_perm|].
  etransitivity; [exact Hperm | apply sorted_perm].
Qed.

Lemma sorted_fixed (lines : list bytes) :
  Sorted bytes_le lines -> sorted lines = lines.
Proof.
  intros Hs. apply sorted_unique; [apply sorted_sorted | exact Hs|].
  symmetry. apply sorted_perm.
Qed.

(** X9: with [sort_values], what [_discard_key_and_flatten_values] returns
    does not depend on the order in which the lines of a group were
    delivered, nor on the keys: two RDDs whose groups hold the same lines,
    group by group, give the same output.  On groups that are sorted
    already, [sort_values] changes nothing. *)
Theorem discard_key_and_flatten_values_sorted_canonical {X Y : Type}
    (rdd : RDD (X * list bytes)) (rdd' : RDD (Y * list bytes)) :
  Forall2 (Forall2 (fun g g' => Permutation (snd g) (snd g'))) rdd rdd' ->
  _discard_key_and_flatten_values rdd true
  = _discard_key_and_flatten_values rdd' true /\
  (Forall (Forall (fun g => Sorted lex_le (snd g))) rdd ->
   _discard_key_and_flatten_values rdd true
   = _discard_key_and_flatten_values rdd false).
Proof.
  intros Hsame. split.
  - simpl. unfold flatMap.
    induction Hsame as [|p p' rdd rdd' Hp _ IH]; simpl; [reflexivity|].
    f_equal; [|exact IH].
    induction Hp as [|g g' p p' Hg _ IHp]; simpl; [reflexivity|].
    rewrite (sorted_of_perm Hg), IHp. reflexivity.
  - clear. intros Hsorted. simpl. unfold flatMap.
    induction Hsorted as [|p rdd Hp _ IH]; simpl; [reflexivity|].
    f_equal; [|exact IH].
    induction Hp as [|g p Hg _ IHp]; simpl; [reflexivity|].
    rewrite IHp, sorted_fixed; [reflexivity|].
    clear - Hg. induction Hg as [|a l Hl IHl Ha]; constructor; [exact IHl|].
    destruct Ha; constructor. apply bytes_le_lex. assumption.
Qed.

End SortedValues.

(** ** The merge function once an accumulator has grown *)

Section CombinerHelperFold.
Context {K V : Type}.
Variable combiner_job : MRJob K V.
Variable step_num : nat.

Local Abbreviation merge :=
  (fun pairs1 pairs2 => fst (combiner_helper combiner_job step_num pairs1 pairs2)).

(** X10: an accumulator that holds two pairs or more is never handed to the
    job's combiner again: merging it with another list, on either side,
    gives the concatenation and calls nothing, and the values that follow
    are appended to it one by one. *)
Theorem combiner_helper_stops_combining (acc : list (K * V)) :
  2 <= length acc ->
  (forall other,
      combiner_helper combiner_job step_num acc other = (acc ++ other, []) /\
      combiner_helper combiner_job step_num other acc = (other ++ acc, [])) /\
  (forall values,
      fold_left (fun k_v_list k_v => merge k_v_list [k_v]) values acc
      = acc ++ values).
Proof.
  intros Hlen.
  assert (Hleft : forall a other : list (K * V),
             2 <= length a ->
             combiner_helper combiner_job step_num a other = (a ++ other, [])).
  { intros a other Ha. apply combiner_helper_concat. lia. }
  split.
  - intros other. split; [apply Hleft; exact Hlen|].
    apply combiner_helper_concat. lia.
  - intros values. revert acc Hlen.
    induction values as [|v values IH]; intros acc Hlen; simpl.
    + rewrite app_nil_r. reflexivity.
    + rewrite Hleft by exact Hlen. cbn [fst].
      rewrite IH by (rewrite length_app; simpl; lia).
      rewrite <- app_assoc. reflexivity.
Qed.

End CombinerHelperFold.

(** ** The mapper and reducer stages *)

Section MapperStage.
Context {K V : Type}.
Variable mapper_job : MRJob K V.

Local Abbreviation step_num := (options_step_num mapper_job).
Local Abbreviation m_read :=
  (fst (pick_protocols mapper_job step_num mrc_mapper)).
Local Abbreviation m_write :=
  (snd (pick_protocols mapper_job step_num mrc_mapper)).

Lemma run_mapper_eq (rdd : RDD bytes) :
  _run_mapper mapper_job rdd
  = List.map (fun p => List.map m_write
                         (map_pairs mapper_job (List.map m_read p) step_num))
             rdd.
Proof.
  unfold _run_mapper.
  destruct (pick_protocols mapper_job step_num mrc_mapper) as [r w].
  cbn [fst snd]. unfold Spark.map, mapPartitions.
  rewrite !List.map_map. reflexivity.
Qed.

(** X11: the mapper stage keeps the partitions of its input (it does not
    shuffle); when the job's [map_pairs] treats a list of pairs piece by
    piece (as a mapper without init and final does), the records the
    stage returns are those of the mapper run on the whole input, however
    the input is partitioned. *)
Theorem run_mapper_any_partitioning (rdd : RDD bytes) :
  (forall pairs1 pairs2,
      map_pairs mapper_job (pairs1 ++ pairs2) step_num
      = map_pairs mapper_job pairs1 step_num
        ++ map_pairs mapper_job pairs2 step_num) ->
  length (_run_mapper mapper_job rdd) = length rdd /\
  collect (_run_mapper mapper_job rdd)
  = List.map m_write
      (map_pairs mapper_job (List.map m_read (collect rdd)) step_num).
Proof.
  intros Hpiecewise. rewrite run_mapper_eq. split; [apply length_map|].
  assert (Hnil : map_pairs mapper_job [] step_num = []).
  { pose proof (Hpiecewise [] []) as H. simpl in H.
    apply (f_equal (@length _)) in H. rewrite length_app in H.
    destruct (map_pairs mapper_job [] step_num); [reflexivity | simpl in H; lia]. }
  unfold collect. induction rdd as [|p rdd' IH]; simpl.
  - rewrite Hnil. reflexivity.
  - rewrite IH, List.map_app, Hpiecewise, List.map_app. reflexivity.
Qed.

End MapperStage.

Section ReducerStage.
Context {K V : Type}.
Variable K_eq_dec : forall a b : K, {a = b} + {a <> b}.
Variable numPartitions : positive.
Variable hash_bytes : bytes -> nat.
Variable reducer_job : MRJob K V.

Local Abbreviation step_num := (options_step_num reducer_job).
Local Abbreviation r_read :=
  (fst (pick_protocols reducer_job step_num mrc_reducer)).
Local Abbreviation r_write :=
  (snd (pick_protocols reducer_job step_num mrc_reducer)).
Local Abbreviation reduce pairs :=
  (reduce_pairs K_eq_dec reducer_job pairs step_num).
Local Abbreviation same_key k :=
  (fun x => if bytes_eq_dec (line_key x) k then true else false).
Local Abbreviation grouped rdd :=
  (groupBy bytes_eq_dec numPartitions hash_bytes line_key rdd).

Lemma run_reducer_eq (rdd : RDD bytes) (sort_values : bool) :
  _run_reducer K_eq_dec reducer_job rdd sort_values
  = List.map (fun p => List.map r_write (reduce (List.map r_read p))) rdd.
Proof.
  unfold _run_reducer.
  destruct (pick_protocols reducer_job step_num mrc_reducer) as [r w].
  cbn [fst snd]. unfold Spark.map, mapPartitions.
  rewrite !List.map_map. reflexivity.
Qed.

(** The reducer call for the lines of one group. *)
Local Abbreviation reducer_call lines :=
  (List.map r_write
     (reducer reducer_job step_num (fst (r_read (hd [] lines)))
        (List.map (fun line => snd (r_read line)) lines))).

Lemma reduce_group (lines : list bytes) :
  (forall l l', In l lines -> In l' lines -> fst (r_read l) = fst (r_read l')) ->
  lines <> [] ->
  List.map r_write (reduce (List.map r_read lines)) = reducer_call lines.
Proof.
  intros Hkey Hne. destruct lines as [|l0 rest]; [congruence|].
  rewrite (reduce_pairs_single_key K_eq_dec reducer_job step_num
             (k := fst (r_read l0))).
  - rewrite List.map_map. reflexivity.
  - apply Forall_forall. intros k_v Hin. apply in_map_iff in Hin.
    destruct Hin as (l & <- & Hl). apply Hkey; [exact Hl | left; reflexivity].
  - discriminate.
Qed.

Lemma group_lines (rdd : RDD bytes) (q : list (bytes * list bytes))
    (k : bytes) (lines : list bytes) (sort_values : bool) (l : bytes) :
  In q (grouped rdd) -> In (k, lines) q -> In l (emitted sort_values lines) ->
  In l (collect rdd) /\ line_key l = k.
Proof.
  intros Hq Hg Hl. apply in_emitted in Hl.
  destruct (groupBy_group bytes_eq_dec numPartitions hash_bytes line_key
              rdd q k lines Hq Hg) as [-> _].
  apply filter_In in Hl. destruct Hl as [Hl Hk]. split; [exact Hl|].
  destruct (bytes_eq_dec (line_key l) k); [assumption | discriminate].
Qed.

(** The reducer stage on one partition of the shuffle-and-sort: one call
    per group. *)
Lemma reduce_partition (rdd : RDD bytes) (q : list (bytes * list bytes))
    (sort_values : bool) :
  (forall l l', In l (collect rdd) -> In l' (collect rdd) ->
                (line_key l = line_key l' <-> fst (r_read l) = fst (r_read l'))) ->
  In q (grouped rdd) ->
  List.map r_write
    (reduce (List.map r_read
               (flat_map (fun g => emitted sort_values (snd g)) q)))
  = flat_map (fun g => reducer_call (emitted sort_values (snd g))) q.
Proof.
  intros Hcodec Hq.
  rewrite map_of_flat_map, reduce_pairs_flat_map, map_of_flat_map.
  - apply flat_map_ext_in. intros [k lines] Hg. cbn [snd].
    apply reduce_group.
    + intros l l' Hl Hl'.
      destruct (group_lines rdd q k lines sort_values l Hq Hg Hl) as [Hin Hk].
      destruct (group_lines rdd q k lines sort_values l' Hq Hg Hl') as [Hin' Hk'].
      apply Hcodec; [exact Hin | exact Hin' | congruence].
    + destruct (groupBy_group bytes_eq_dec numPartitions hash_bytes line_key
                  rdd q k lines Hq Hg) as [_ Hne].
      intros Hnil. apply Hne.
      apply Permutation_nil. rewrite <- Hnil. symmetry. apply emitted_perm.
  - apply (ForallOrdPairs_of_NoDup (@fst bytes (list bytes))).
    + exact (groupBy_NoDup bytes_eq_dec numPartitions hash_bytes line_key rdd q Hq).
    + intros [k lines] [k' lines'] Hg Hg' Hne p p' Hp Hp' Heq.
      cbn [fst snd] in *.
      apply in_map_iff in Hp, Hp'.
      destruct Hp as (l & <- & Hl), Hp' as (l' & <- & Hl').
      destruct (group_lines rdd q k lines sort_values l Hq Hg Hl) as [Hin Hk].
      destruct (group_lines rdd q k' lines' sort_values l' Hq Hg' Hl') as [Hin' Hk'].
      apply Hne. rewrite <- Hk, <- Hk'. apply Hcodec; assumption.
Qed.

(** X12: the shuffle-and-sort stage followed by the reducer stage, with
    [reduce_pairs] one reducer call per run of a key: when two records of
    the input have the same key bytes exactly when they decode to the same
    key, the output is that of one call of the job's reducer per distinct
    key of the input, on the decoded values of all the records of the key
    (sorted by their encoded line with [sort_values]). *)
Theorem shuffle_then_reduce_calls_reducer_per_key (rdd : RDD bytes)
    (sort_values unused : bool) :
  (forall l l', In l (collect rdd) -> In l' (collect rdd) ->
                (line_key l = line_key l' <-> fst (r_read l) = fst (r_read l'))) ->
  exists keys : list bytes,
    NoDup keys /\
    (forall k, In k keys <-> In k (List.map line_key (collect rdd))) /\
    collect (_run_reducer K_eq_dec reducer_job
               (_shuffle_and_sort numPartitions hash_bytes rdd sort_values)
               unused)
    = flat_map
        (fun k =>
           reducer_call (if sort_values
                         then sorted (filter (same_key k) (collect rdd))
                         else filter (same_key k) (collect rdd)))
        keys.
Proof.
  intros Hcodec.
  exists (List.map fst (collect (grouped rdd))). split; [|split].
  - unfold groupBy, groupByKey. apply combineByKey_keys_NoDup.
  - intros k. split.
    + intros Hin. apply in_map_iff in Hin. destruct Hin as ([k' lines] & Hk & Hin).
      simpl in Hk. subst k'.
      destruct (grouped_in_collect _ _ _ _ _ Hin) as [Hl Hne].
      destruct lines as [|l0 rest]; [congruence|].
      assert (Hl0 : In l0 (filter (same_key k) (collect rdd)))
        by (rewrite <- Hl; left; reflexivity).
      apply filter_In in Hl0. destruct Hl0 as [Hl0 Hk].
      destruct (bytes_eq_dec (line_key l0) k) as [<-|]; [|discriminate].
      apply in_map. exact Hl0.
    + intros Hin. apply in_map_iff in Hin. destruct Hin as (l0 & <- & Hl0).
      destruct (groupBy_complete bytes_eq_dec numPartitions hash_bytes line_key
                  rdd l0 Hl0) as (q & Hq & Hin).
      apply in_map_iff. eexists. split; [|apply in_concat; exists q; split; eassumption].
      reflexivity.
  - rewrite run_reducer_eq. unfold _shuffle_and_sort.
    rewrite discard_key_and_flatten_values_eq. unfold flatMap.
    rewrite List.map_map. unfold collect at 1.
    rewrite (map_ext_in _
               (flat_map (fun g => reducer_call (emitted sort_values (snd g)))))
      by (intros q Hq; apply reduce_partition with (rdd := rdd); assumption).
    rewrite concat_map_flat_map, flat_map_map.
    apply flat_map_ext_in. intros [k lines] Hg. cbn [fst snd].
    destruct (grouped_in_collect _ _ _ _ _ Hg) as [<- _].
    destruct sort_values; reflexivity.
Qed.

(** The keys of the groups are the key bytes of the records. *)
Lemma grouped_keys (rdd : RDD bytes) (k : bytes) :
  In k (List.map fst (collect (grouped rdd))) <->
  In k (List.map line_key (collect rdd)).
Proof.
  split.
  - intros Hin. apply in_map_iff in Hin. destruct Hin as ([k' lines] & Hk & Hin).
    simpl in Hk. subst k'.
    destruct (grouped_in_collect _ _ _ _ _ Hin) as [Hl Hne].
    destruct lines as [|l0 rest]; [congruence|].
    assert (Hl0 : In l0 (filter (same_key k) (collect rdd)))
      by (rewrite <- Hl; left; reflexivity).
    apply filter_In in Hl0. destruct Hl0 as [Hl0 Hk].
    destruct (bytes_eq_dec (line_key l0) k) as [<-|]; [|discriminate].
    apply in_map. exact Hl0.
  - intros Hin. apply in_map_iff in Hin. destruct Hin as (l0 & <- & Hl0).
    destruct (groupBy_complete bytes_eq_dec numPartitions hash_bytes line_key
                rdd l0 Hl0) as (q & Hq & Hin).
    apply in_map_iff. eexists. split; [|apply in_concat; exists q; split; eassumption].
    reflexivity.
Qed.

(** The reducer stage on the output of the shuffle-and-sort, key by key. *)
Lemma shuffle_then_reduce_collect (rdd : RDD bytes) (sort_values unused : bool) :
  (forall l l', In l (collect rdd) -> In l' (collect rdd) ->
                (line_key l = line_key l' <-> fst (r_read l) = fst (r_read l'))) ->
  collect (_run_reducer K_eq_dec reducer_job
             (_shuffle_and_sort numPartitions hash_bytes rdd sort_values)
             unused)
  = flat_map
      (fun k =>
         reducer_call (if sort_values
                       then sorted (filter (same_key k) (collect rdd))
                       else filter (same_key k) (collect rdd)))
      (List.map fst (collect (grouped rdd))).
Proof.
  intros Hcodec.
  rewrite run_reducer_eq. unfold _shuffle_and_sort.
  rewrite discard_key_and_flatten_values_eq. unfold flatMap.
  rewrite List.map_map. unfold collect at 1.
  rewrite (map_ext_in _
             (flat_map (fun g => reducer_call (emitted sort_values (snd g)))))
    by (intros q Hq; apply reduce_partition with (rdd := rdd); assumption).
  rewrite concat_map_flat_map, flat_map_map.
  apply flat_map_ext_in. intros [k lines] Hg. cbn [fst snd].
  destruct (grouped_in_collect _ _ _ _ _ Hg) as [<- _].
  destruct sort_values; reflexivity.
Qed.

End ReducerStage.

(** ** The stages on an input without records *)

Section EmptyInput.
Context {K V : Type}.
Variable K_eq_dec : forall a b : K, {a = b} + {a <> b}.
Variable numPartitions : positive.
Variable hash_key : K -> nat.
Variable hash_bytes : bytes -> nat.
Variable job : MRJob K V.

Local Abbreviation n := (Pos.to_nat numPartitions).

Lemma no_record_nil {A} (l : list A) : (forall x, ~ In x l) -> l = [].
Proof.
  destruct l as [|x l]; [reflexivity|].
  intros H. destruct (H x). left; reflexivity.
Qed.

(** X13: on an input that holds no record, the shuffle-and-sort stage and
    the combiner stage return [numPartitions] empty partitions, and the
    reducer stage returns its input: the job's combiner and reducer are
    not called. *)
Theorem stages_on_empty_input (rdd : RDD bytes) (sort_values : bool) :
  collect rdd = [] ->
  _shuffle_and_sort numPartitions hash_bytes rdd sort_values = repeat [] n /\
  _run_combiner K_eq_dec numPartitions hash_key job rdd sort_values
  = repeat [] n /\
  _run_reducer K_eq_dec job rdd sort_values = rdd.
Proof.
  intros Hnil. split; [|split].
  - assert (Hlen : length (_shuffle_and_sort numPartitions hash_bytes rdd
                             sort_values) = Pos.to_nat numPartitions).
    { unfold _shuffle_and_sort. rewrite discard_key_and_flatten_values_eq.
      unfold flatMap. rewrite length_map. unfold groupBy, groupByKey.
      apply combineByKey_length. }
    rewrite <- Hlen. apply Forall_eq_repeat. apply Forall_forall.
    intros p Hp. apply shuffle_and_sort_partitions in Hp.
    destruct Hp as (q & Hq & ->). symmetry. apply no_record_nil.
    intros x Hx. apply in_flat_map in Hx. destruct Hx as ([k lines] & Hg & Hx).
    cbn [snd] in Hx. apply in_emitted in Hx.
    destruct (groupBy_group bytes_eq_dec numPartitions hash_bytes line_key
                rdd q k lines Hq Hg) as [Hl _].
    rewrite Hl, Hnil in Hx. exact Hx.
  - rewrite <- (run_combiner_length K_eq_dec numPartitions hash_key job
                  rdd sort_values).
    apply Forall_eq_repeat. apply Forall_forall.
    intros p Hp. apply run_combiner_partitions in Hp.
    destruct Hp as (q & Hq & ->). symmetry. apply no_record_nil.
    intros x Hx. apply in_flat_map in Hx. destruct Hx as ([k acc] & Hg & _).
    assert (Hk : In k (List.map fst
                         (List.map (fst (pick_protocols job (options_step_num job)
                                           mrc_combiner))
                                   (collect rdd)))).
    { apply combined_key_in with (K_eq_dec := K_eq_dec)
                                 (numPartitions := numPartitions)
                                 (hash_key := hash_key).
      apply in_map_iff. exists (k, acc). split; [reflexivity|].
      apply in_concat. exists q. split; assumption. }
    rewrite Hnil in Hk. exact Hk.
  - rewrite run_reducer_eq.
    apply concat_nil_Forall in Hnil.
    induction Hnil as [|p rdd' Hp _ IH]; simpl; [reflexivity|].
    rewrite IH, Hp. reflexivity.
Qed.

End EmptyInput.

(** ** The stages of a step *)

Section RunStepStages.
Context {K V : Type}.
Variable K_eq_dec : forall a b : K, {a = b} + {a <> b}.
Variable numPartitions : positive.
Variable hash_key : K -> nat.
Variable hash_bytes : bytes -> nat.
Variable make_job : role -> nat -> MRJob K V.

(** A step that passes [_check_step] runs, in this order, the mapper
    stage when it has a mapper; then the combiner stage when it has a
    combiner, or else the shuffle-and-sort stage when it has a reducer
    (never both); then the reducer stage when it has a reducer.  Each
    stage works on the output of the one before; the grouping stage sorts
    values as the reducer's job says, and not at all without a reducer. *)
Lemma run_step_stages (step : MRStep) (step_num : nat) (rdd : RDD bytes) :
  _check_step (description step step_num) step_num = Ok tt ->
  let has mrc := substep_truthy (get_substep (description step step_num) mrc) in
  let job mrc := make_job mrc step_num in
  let sort := if has mrc_reducer then sort_values (job mrc_reducer) else false in
  let mapped := if has mrc_mapper then _run_mapper (job mrc_mapper) rdd else rdd in
  let grouped :=
    if has mrc_combiner
    then _run_combiner K_eq_dec numPartitions hash_key (job mrc_combiner)
                       mapped sort
    else if has mrc_reducer
         then _shuffle_and_sort numPartitions hash_bytes mapped sort
         else mapped in
  let reduced :=
    if has mrc_reducer
    then _run_reducer K_eq_dec (job mrc_reducer) grouped false
    else grouped in
  _run_step K_eq_dec numPartitions hash_key hash_bytes make_job step step_num rdd
  = (Call fn_check_step step_num
       :: (if has mrc_mapper then [Call fn_run_mapper step_num] else [])
       ++ (if has mrc_combiner then [Call fn_run_combiner step_num]
           else if has mrc_reducer then [Call fn_shuffle_and_sort step_num]
                else [])
       ++ (if has mrc_reducer then [Call fn_run_reducer step_num] else []),
     Ok reduced).
Proof.
  intros Hcheck. cbv zeta. unfold _run_step. rewrite Hcheck.
  destruct (substep_truthy (get_substep (description step step_num) mrc_mapper));
    destruct (substep_truthy (get_substep (description step step_num) mrc_reducer));
    destruct (substep_truthy (get_substep (description step step_num) mrc_combiner));
    reflexivity.
Qed.

Lemma shuffle_and_sort_length (rdd : RDD bytes) (sort_values : bool) :
  length (_shuffle_and_sort numPartitions hash_bytes rdd sort_values)
  = Pos.to_nat numPartitions.
Proof.
  unfold _shuffle_and_sort. rewrite discard_key_and_flatten_values_eq.
  unfold flatMap. rewrite length_map. unfold groupBy, groupByKey.
  apply combineByKey_length.
Qed.

(** X14: a step that passes [_check_step] and has a reducer and no combiner
    does not raise, and computes a map, a grouping by key bytes and one
    reducer call per key.  It returns [numPartitions] partitions.  Its
    records are, for each distinct key (the bytes before the first TAB)
    of the mapper's output, or of the step's input when it has no
    mapper, the encoded output of one call of the reducer job's reducer
    on the decoded values of all the records of that key, taken in
    sorted order of their encoded lines when the reducer job asks for
    sorted values and in the order of arrival otherwise.  This holds
    when two records of the mapper's output have the same key bytes
    exactly when the reducer's decoder gives them the same key, with
    [reduce_pairs] one reducer call per run of a key. *)
Theorem run_step_map_shuffle_reduce (step : MRStep) (step_num : nat)
    (rdd : RDD bytes) :
  let d := description step step_num in
  let reducer_job := make_job mrc_reducer step_num in
  let rn := options_step_num reducer_job in
  let r_read := fst (pick_protocols reducer_job rn mrc_reducer) in
  let r_write := snd (pick_protocols reducer_job rn mrc_reducer) in
  let mapped :=
    if substep_truthy (get_substep d mrc_mapper)
    then _run_mapper (make_job mrc_mapper step_num) rdd
    else rdd in
  let lines_of k :=
    let same_key := filter (fun line => if bytes_eq_dec (line_key line) k
                                        then true else false)
                           (collect mapped) in
    if sort_values reducer_job then sorted same_key else same_key in
  _check_step d step_num = Ok tt ->
  substep_truthy (get_substep d mrc_reducer) = true ->
  substep_truthy (get_substep d mrc_combiner) = false ->
  (forall l l', In l (collect mapped) -> In l' (collect mapped) ->
                (line_key l = line_key l' <-> fst (r_read l) = fst (r_read l'))) ->
  exists out keys,
    outcome (_run_step K_eq_dec numPartitions hash_key hash_bytes make_job
                       step step_num rdd) = Ok out /\
    length out = Pos.to_nat numPartitions /\
    NoDup keys /\
    (forall k, In k keys <-> In k (List.map line_key (collect mapped))) /\
    collect out
    = flat_map
        (fun k =>
           List.map r_write
             (reducer reducer_job rn (fst (r_read (hd [] (lines_of k))))
                (List.map (fun line => snd (r_read line)) (lines_of k))))
        keys.
Proof.
  cbv zeta. intros Hcheck Hred Hcomb Hcodec.
  rewrite (run_step_stages step step_num rdd Hcheck). cbv zeta.
  rewrite Hred, Hcomb. unfold outcome. cbn [snd].
  set (mapped := if substep_truthy (get_substep (description step step_num)
                                                mrc_mapper)
                 then _run_mapper (make_job mrc_mapper step_num) rdd
                 else rdd) in *.
  eexists.
  exists (List.map fst
            (collect (groupBy bytes_eq_dec numPartitions hash_bytes line_key
                        mapped))).
  split; [reflexivity|]. split; [|split; [|split]].
  - rewrite run_reducer_eq, length_map. apply shuffle_and_sort_length.
  - unfold groupBy, groupByKey. apply combineByKey_keys_NoDup.
  - intros k. apply grouped_keys.
  - apply shuffle_then_reduce_collect. exact Hcodec.
Qed.

End RunStepStages.

(** ** What the error of [_check_step] says *)

Section CheckStepMessages.

(** X15: the error [_check_step] raises names a flaw the description has.
    For the type of the step it gives the step number it was called with
    and the type as it is.  For a substep it gives that step number and
    the mapper or the reducer (never the combiner), with the type the
    substep has, or with its pre-filter when its type is fine; and it
    names the reducer only when the mapper has no flaw.  The error for
    an input manifest does not tell the step: its message is left with
    ['%d'] unformatted, so it is the same whatever the step number. *)
Theorem check_step_error_names_flaw (d : step_desc) (step_num : nat) (e : exn) :
  _check_step d step_num = Raise e ->
  match e with
  | ValueError msg =>
      msg = step_has_unexpected_type step_num (desc_type d) /\
      ne_str (desc_type d) "streaming" = true
  | NotImplementedError step_uses_input_manifest =>
      truthy (desc_input_manifest d) = true /\
      forall n, _check_step d n = Raise (NotImplementedError step_uses_input_manifest)
  | NotImplementedError (substep_has_unexpected_type n mrc type) =>
      n = step_num /\ mrc <> mrc_combiner /\
      substep_type_unsupported d mrc = true /\
      (exists sd, get_substep d mrc = Some sd /\ type = get sd "type") /\
      (mrc = mrc_reducer ->
       substep_type_unsupported d mrc_mapper = false /\
       substep_has_pre_filter_set d mrc_mapper = false)
  | NotImplementedError (substep_has_pre_filter n mrc) =>
      n = step_num /\ mrc <> mrc_combiner /\
      substep_has_pre_filter_set d mrc = true /\
      substep_type_unsupported d mrc = false /\
      (mrc = mrc_reducer ->
       substep_type_unsupported d mrc_mapper = false /\
       substep_has_pre_filter_set d mrc_mapper = false)
  | NotImplementedError (step_has_unexpected_type _ _) => False
  end.
Proof.
  rewrite check_step_unfold.
  destruct (ne_str (desc_type d) "streaming") eqn:Htype;
    [intros H; injection H as <-; split; reflexivity|].
  destruct (truthy (desc_input_manifest d)) eqn:Hman.
  { intros H; injection H as <-. split; [reflexivity|].
    intros n. rewrite check_step_unfold, Htype, Hman. reflexivity. }
  destruct (substep_type_unsupported d mrc_mapper) eqn:Hmt.
  { intros H; injection H as <-. repeat split; try discriminate; try assumption.
    unfold substep_type_unsupported, get_substep in *.
    destruct (desc_mapper d) as [sd|]; [|discriminate].
    exists sd. split; reflexivity. }
  destruct (substep_has_pre_filter_set d mrc_mapper) eqn:Hmf.
  { intros H; injection H as <-. repeat split; try discriminate; assumption. }
  destruct (substep_type_unsupported d mrc_reducer) eqn:Hrt.
  { intros H; injection H as <-. repeat split; try discriminate; try assumption.
    unfold substep_type_unsupported, get_substep in *.
    destruct (desc_reducer d) as [sd|]; [|discriminate].
    exists sd. split; reflexivity. }
  destruct (substep_has_pre_filter_set d mrc_reducer) eqn:Hrf.
  { intros H; injection H as <-. repeat split; try discriminate; assumption. }
  discriminate.
Qed.

End CheckStepMessages.

(** ** The range of steps [main] runs *)

Section MainRange.
Context {K V : Type}.
Variable K_eq_dec : forall a b : K, {a = b} + {a <> b}.
Variable numPartitions : positive.
Variable hash_key : K -> nat.
Variable hash_bytes : bytes -> nat.
Variable make_job : role -> nat -> MRJob K V.

Local Abbreviation run_main :=
  (main K_eq_dec numPartitions hash_key hash_bytes make_job).
Local Abbreviation body :=
  (main_loop_body K_eq_dec numPartitions hash_key hash_bytes make_job).

Lemma slice_same_bounds {A} (l : list A) (s s' e e' : option Z) :
  slice_bound (Z.of_nat (length l)) 0 s
  = slice_bound (Z.of_nat (length l)) 0 s' ->
  slice_bound (Z.of_nat (length l)) (Z.of_nat (length l)) e
  = slice_bound (Z.of_nat (length l)) (Z.of_nat (length l)) e' ->
  slice l s e = slice l s' e'.
Proof. unfold slice. cbv zeta. intros -> ->. reflexivity. Qed.

Lemma slice_empty {A} (l : list A) (s e : option Z) :
  (slice_bound (Z.of_nat (length l)) (Z.of_nat (length l)) e
   <= slice_bound (Z.of_nat (length l)) 0 s)%Z ->
  slice l s e = [].
Proof.
  unfold slice. cbv zeta. intros Hle.
  replace (Z.to_nat _) with 0 by lia. reflexivity.
Qed.

Lemma main_same_bounds (steps : list MRStep) (s s' e e' : option Z)
    (rdd : RDD bytes) :
  slice_bound (Z.of_nat (length steps)) 0 s
  = slice_bound (Z.of_nat (length steps)) 0 s' ->
  slice_bound (Z.of_nat (length steps)) (Z.of_nat (length steps)) e
  = slice_bound (Z.of_nat (length steps)) (Z.of_nat (length steps)) e' ->
  run_main steps s e rdd = run_main steps s' e' rdd.
Proof.
  intros Hs He. rewrite !main_unfold. f_equal.
  apply slice_same_bounds;
    unfold enumerate; rewrite length_combine, length_seq, Nat.min_id; assumption.
Qed.

(** X16: the bounds of the range of steps are those of a Python slice: a
    missing [start_step] is 0 and a missing [end_step] the number of
    steps, so that without either every step runs, in order; an
    [end_step] past the last step is the number of steps; a negative
    bound counts from the end, and stops at step 0. *)
Theorem main_step_bounds (steps : list MRStep) (rdd : RDD bytes) :
  let N := Z.of_nat (length steps) in
  (forall e, run_main steps None e rdd = run_main steps (Some 0%Z) e rdd) /\
  (forall s, run_main steps s None rdd = run_main steps s (Some N) rdd) /\
  (forall s j, (N <= j)%Z ->
     run_main steps s (Some j) rdd = run_main steps s None rdd) /\
  (forall i e, (i < 0)%Z ->
     run_main steps (Some i) e rdd
     = run_main steps (Some (Z.max 0 (N + i))) e rdd) /\
  (forall s j, (j < 0)%Z ->
     run_main steps s (Some j) rdd
     = run_main steps s (Some (Z.max 0 (N + j))) rdd) /\
  run_main steps None None rdd
  = run_steps_in_order K_eq_dec numPartitions hash_key hash_bytes make_job
      steps 0 rdd.
Proof.
  cbv zeta. repeat apply conj.
  - intros e. apply main_same_bounds; [|reflexivity].
    unfold slice_bound. simpl. lia.
  - intros s. apply main_same_bounds; [reflexivity|].
    unfold slice_bound.
    destruct (Z.ltb_spec (Z.of_nat (length steps)) 0); lia.
  - intros s j Hj. apply main_same_bounds; [reflexivity|].
    unfold slice_bound. destruct (Z.ltb_spec j 0); lia.
  - intros i e Hi. apply main_same_bounds; [|reflexivity].
    unfold slice_bound. destruct (Z.ltb_spec i 0); [|lia].
    destruct (Z.ltb_spec (Z.max 0 (Z.of_nat (length steps) + i)) 0); lia.
  - intros s j Hj. apply main_same_bounds; [reflexivity|].
    unfold slice_bound. destruct (Z.ltb_spec j 0); [|lia].
    destruct (Z.ltb_spec (Z.max 0 (Z.of_nat (length steps) + j)) 0); lia.
  - rewrite main_unfold, slice_enumerate. cbv zeta. unfold slice_bound.
    rewrite Nat2Z.id. simpl (Z.to_nat 0). rewrite Nat.sub_0_r.
    cbn [skipn]. rewrite firstn_all.
    apply main_loop_in_order. lia.
Qed.

(** X17: an empty range runs nothing: with an [end_step] that is 0 or is
    not above a [start_step] that is not negative, or with a [start_step]
    that is not below the number of steps, [main] calls neither
    [_run_step] nor [_check_step] and hands its input on as it is,
    whatever the steps of the job are. *)
Theorem main_empty_range (steps : list MRStep) (rdd : RDD bytes) :
  (forall i j, (0 <= j <= i)%Z ->
     run_main steps (Some i) (Some j) rdd = ([], Ok rdd)) /\
  (forall i e, (Z.of_nat (length steps) <= i)%Z ->
     run_main steps (Some i) e rdd = ([], Ok rdd)) /\
  (forall s, run_main steps s (Some 0%Z) rdd = ([], Ok rdd)).
Proof.
  assert (Hlen : length (enumerate steps) = length steps)
    by (unfold enumerate; rewrite length_combine, length_seq; apply Nat.min_id).
  assert (Hempty : forall s e,
             (slice_bound (Z.of_nat (length steps)) (Z.of_nat (length steps)) e
              <= slice_bound (Z.of_nat (length steps)) 0 s)%Z ->
             run_main steps s e rdd = ([], Ok rdd)).
  { intros s e Hle. rewrite main_unfold, slice_empty; [reflexivity|].
    rewrite Hlen. exact Hle. }
  repeat apply conj.
  - intros i j Hij. apply Hempty. unfold slice_bound.
    destruct (Z.ltb_spec j 0); destruct (Z.ltb_spec i 0); lia.
  - intros i e Hi. apply Hempty.
    pose proof (@slice_bound_range (Z.of_nat (length steps))
                  (Z.of_nat (length steps)) e ltac:(lia)) as Hhi.
    unfold slice_bound at 2. destruct (Z.ltb_spec i 0); lia.
  - intros s. apply Hempty.
    pose proof (@slice_bound_range (Z.of_nat (length steps)) 0 s ltac:(lia))
      as Hlo.
    unfold slice_bound at 1. simpl. lia.
Qed.

Lemma bind_assoc {A B C} (m : M A) (f : A -> M B) (g : B -> M C) :
  bind (bind m f) g = bind m (fun a => bind (f a) g).
Proof.
  destruct m as [t [a|e]]; simpl; [|reflexivity].
  destruct (f a) as [t' [b|e']]; simpl; [|reflexivity].
  destruct (g b) as [t'' r]. rewrite app_assoc. reflexivity.
Qed.

Lemma for_loop_app {A S} (f : S -> A -> M S) (l1 l2 : list A) (s : S) :
  for_loop f (l1 ++ l2) s = bind (for_loop f l1 s) (for_loop f l2).
Proof.
  revert s. induction l1 as [|x l1 IH]; intros s; simpl.
  - destruct (for_loop f l2 s); reflexivity.
  - rewrite bind_assoc. apply bind_ext. exact IH.
Qed.

Lemma firstn_plus {A} (n m : nat) (l : list A) :
  firstn (n + m) l = firstn n l ++ firstn m (skipn n l).
Proof.
  revert l. induction n as [|n IH]; intros l; [reflexivity|].
  destruct l as [|x l]; simpl; [rewrite firstn_nil; reflexivity|].
  rewrite IH. reflexivity.
Qed.

Lemma slice_split {A} (l : list A) (i j k : Z) :
  (0 <= i <= j)%Z -> (j <= k)%Z ->
  slice l (Some i) (Some k) = slice l (Some i) (Some j) ++ slice l (Some j) (Some k).
Proof.
  intros Hij Hjk. unfold slice, slice_bound. cbv zeta.
  destruct (Z.ltb_spec i 0); [lia|].
  destruct (Z.ltb_spec j 0); [lia|].
  destruct (Z.ltb_spec k 0); [lia|].
  set (len := Z.of_nat (length l)).
  replace (Z.to_nat (Z.min k len - Z.min i len))
    with (Z.to_nat (Z.min j len - Z.min i len)
          + Z.to_nat (Z.min k len - Z.min j len)) by lia.
  rewrite firstn_plus, skipn_skipn. do 3 f_equal. lia.
Qed.

(** X18: ranges of steps that follow one another compose: running the
    steps from [i] up to [k] is running the steps from [i] up to [j] and
    then, on what they return, the steps from [j] up to [k]; when the
    first run raises, so does the whole. *)
Theorem main_ranges_compose (steps : list MRStep) (i j k : Z) (rdd : RDD bytes) :
  (0 <= i <= j)%Z -> (j <= k)%Z ->
  run_main steps (Some i) (Some k) rdd
  = bind (run_main steps (Some i) (Some j) rdd)
         (fun rdd' => run_main steps (Some j) (Some k) rdd').
Proof.
  intros Hij Hjk. rewrite main_unfold, (slice_split _ Hij Hjk), for_loop_app.
  rewrite <- main_unfold. apply bind_ext. intros rdd'.
  rewrite main_unfold. reflexivity.
Qed.

End MainRange.

(** ** The job class *)

Section JobClassName.
Import JobClass.

Lemma split_at_last_dot_none (s : string) :
  split_at_last_dot s = None <-> has_dot s = false.
Proof.
  induction s as [|c rest IH]; simpl; [tauto|].
  destruct (split_at_last_dot rest) as [[before after]|].
  - split; [discriminate|]. intros H. apply orb_false_elim in H.
    destruct H as [_ H]. apply IH in H. discriminate.
  - destruct IH as [IH _]. rewrite (IH eq_refl), orb_false_r.
    destruct (Ascii.eqb c "."); split; congruence.
Qed.

Lemma split_at_last_dot_some (s before after : string) :
  split_at_last_dot s = Some (before, after) <->
  s = (before ++ "." ++ after)%string /\ has_dot after = false.
Proof.
  revert before. induction s as [|c rest IH]; intros before; simpl.
  - split; [discriminate|]. intros [H _]. destruct before; discriminate.
  - destruct (split_at_last_dot rest) as [[b a]|] eqn:Hrest.
    + split.
      * intros H. injection H as <- <-.
        destruct (proj1 (IH b) eq_refl) as [-> Hdot]. split; [reflexivity | exact Hdot].
      * intros [Heq Hdot]. destruct before as [|c' before'].
        -- simpl in Heq. injection Heq as -> ->.
           apply split_at_last_dot_none in Hdot. congruence.
        -- simpl in Heq. injection Heq as -> Hr.
           assert (H : Some (b, a) = Some (before', after))
             by (apply IH; split; assumption).
           injection H as -> ->. reflexivity.
    + apply split_at_last_dot_none in Hrest. split.
      * destruct (Ascii.eqb_spec c "."%char) as [->|]; [|discriminate].
        intros H. injection H as <- <-. split; [reflexivity | exact Hrest].
      * intros [Heq Hdot]. destruct before as [|c' before'].
        -- simpl in Heq. injection Heq as -> ->. reflexivity.
        -- simpl in Heq. injection Heq as -> Hr.
           rewrite Hr in Hrest. exfalso. clear - Hrest.
           induction before' as [|x b IHb]; simpl in Hrest; [discriminate|].
           apply orb_false_elim in Hrest. apply IHb. apply Hrest.
Qed.

(** X19: the job class named on the command line is split at its last
    dot into the module and the class: the unpacking fails exactly when
    the name holds no dot, and otherwise the class name is what follows
    the last dot and the module name what is before it. *)
Theorem job_class_split_at_last_dot (job_class : string) :
  (job_module_and_class job_class = None <-> has_dot job_class = false) /\
  (forall job_module_name job_class_name,
      job_module_and_class job_class = Some (job_module_name, job_class_name)
      <->
      job_class = (job_module_name ++ "." ++ job_class_name)%string /\
      has_dot job_class_name = false).
Proof.
  unfold job_module_and_class, rsplit_dot. split.
  - rewrite <- split_at_last_dot_none.
    destruct (split_at_last_dot job_class) as [[b a]|]; simpl;
      split; congruence.
  - intros m c. rewrite <- split_at_last_dot_some.
    destruct (split_at_last_dot job_class) as [[b a]|]; simpl;
      split; congruence.
Qed.

End JobClassName.

(** ** The stages on the counting job *)

Section CountingStages.
Import Counting.

Lemma shuffle_and_sort_values_of_key_witness :
  nth_error (_shuffle_and_sort numPartitions hash_bytes two_partitions true) 1
  = Some [write (1, 1); write (1, 2)] /\
  filter (fun x => if bytes_eq_dec (line_key x) (repeat x6b 1) then true else false)
         [write (1, 1); write (1, 2)]
  = sorted [write (1, 1); write (1, 2)].
Proof.
  assert (H : nth_error (_shuffle_and_sort numPartitions hash_bytes
                           two_partitions true) 1
              = Some [write (1, 1); write (1, 2)]) by reflexivity.
  split; [exact H|].
  exact (proj1 (shuffle_and_sort_values_of_key numPartitions hash_bytes
                  two_partitions true 1 (repeat x6b 1) H)).
Defined.

Lemma run_combiner_placement_witness :
  length (_run_combiner Nat.eq_dec numPartitions hash_key (job 0)
            two_partitions false) = 2 /\
  exists pair, write (1, 3) = write pair /\ 1 = hash_key (fst pair) mod 2.
Proof.
  destruct (run_combiner_placement Nat.eq_dec numPartitions hash_key (job 0)
              two_partitions false counting_keeps_key) as [Hlen Hplace].
  split; [exact Hlen|].
  apply (Hplace 1 [write (1, 3)] (write (1, 3))); [reflexivity | left; reflexivity].
Defined.

Lemma run_combiner_one_record_per_key_witness :
  length (collect (_run_combiner Nat.eq_dec numPartitions hash_key (job 0)
                     two_partitions false)) = 2.
Proof.
  apply (run_combiner_one_record_per_key Nat.eq_dec numPartitions hash_key (job 0)
           two_partitions false).
  intros [k1 v1] p2. reflexivity.
Defined.

Lemma run_combiner_distinct_keys_witness :
  NoDup (List.map (fun line => fst (read line))
                  (collect [[write (1, 1)]; [write (2, 5)]])) /\
  Permutation
    (List.map (fun line => write (read line))
              (collect [[write (1, 1)]; [write (2, 5)]]))
    (collect (_run_combiner Nat.eq_dec numPartitions hash_key (job 0)
                [[write (1, 1)]; [write (2, 5)]] false)).
Proof.
  assert (Hnd : NoDup (List.map (fun line => fst (read line))
                         (collect [[write (1, 1)]; [write (2, 5)]]))).
  { cbv. constructor; [intros [H|[]]; discriminate H|].
    constructor; [intros []|constructor]. }
  split; [exact Hnd|].
  exact (run_combiner_distinct_keys Nat.eq_dec numPartitions hash_key (job 0)
           [[write (1, 1)]; [write (2, 5)]] false Hnd).
Defined.

Lemma discard_key_and_flatten_values_sorted_canonical_witness :
  _discard_key_and_flatten_values [[(0, [[x62]; [x61]])]] true
  = _discard_key_and_flatten_values [[(tt, [[x61]; [x62]])]] true.
Proof.
  refine (proj1 (discard_key_and_flatten_values_sorted_canonical
                   (rdd := [[(0, [[x62]; [x61]])]])
                   (rdd' := [[(tt, [[x61]; [x62]])]]) _)).
  constructor; [|constructor].
  constructor; [|constructor].
  apply perm_swap.
Defined.

Lemma combiner_helper_stops_combining_witness :
  2 <= length [(1, 1); (1, 2)] /\
  fold_left (fun k_v_list k_v => fst (combiner_helper (job 0) 0 k_v_list [k_v]))
            [(1, 3)] [(1, 1); (1, 2)]
  = [(1, 1); (1, 2); (1, 3)].
Proof.
  assert (Hlen : 2 <= length [(1, 1); (1, 2)]) by (simpl; lia).
  split; [exact Hlen|].
  exact (proj2 (combiner_helper_stops_combining (job 0) 0 [(1, 1); (1, 2)] Hlen)
               [(1, 3)]).
Defined.

Lemma run_mapper_any_partitioning_witness :
  length (_run_mapper (job 0) two_partitions) = 2 /\
  collect (_run_mapper (job 0) two_partitions)
  = List.map write (List.map read (collect two_partitions)).
Proof.
  apply (run_mapper_any_partitioning (job 0) two_partitions).
  intros pairs1 pairs2. reflexivity.
Defined.

Lemma shuffle_then_reduce_calls_reducer_per_key_witness :
  exists keys : list bytes,
    NoDup keys /\
    (forall k, In k keys <-> In k (List.map line_key (collect two_partitions))) /\
    collect (_run_reducer Nat.eq_dec (job 0)
               (_shuffle_and_sort numPartitions hash_bytes two_partitions false)
               false)
    = flat_map
        (fun k =>
           List.map write
             (reducer (job 0) 0
                (fst (read (hd [] (filter
                                     (fun x => if bytes_eq_dec (line_key x) k
                                               then true else false)
                                     (collect two_partitions)))))
                (List.map (fun line => snd (read line))
                   (filter (fun x => if bytes_eq_dec (line_key x) k
                                     then true else false)
                           (collect two_partitions)))))
        keys.
Proof.
  exact (shuffle_then_reduce_calls_reducer_per_key Nat.eq_dec numPartitions
           hash_bytes (job 0) two_partitions false false counting_codec_key).
Defined.

Lemma stages_on_empty_input_witness :
  _shuffle_and_sort numPartitions hash_bytes [[]; []] true = repeat [] 2 /\
  _run_combiner Nat.eq_dec numPartitions hash_key (job 0) [[]; []] true
  = repeat [] 2 /\
  _run_reducer Nat.eq_dec (job 0) [[]; []] true = [[]; []].
Proof.
  exact (stages_on_empty_input Nat.eq_dec numPartitions hash_key hash_bytes
           (job 0) [[]; []] true eq_refl).
Defined.

Lemma listing_codec_key (l l' : bytes) :
  In l (collect (_run_mapper (Listing.job 0) Listing.two_keys_unsorted)) ->
  In l' (collect (_run_mapper (Listing.job 0) Listing.two_keys_unsorted)) ->
  (line_key l = line_key l' <-> fst (read l) = fst (read l')).
Proof.
  intros Hl Hl'. vm_compute in Hl, Hl'.
  destruct Hl as [<-|[<-|[<-|[<-|[]]]]]; destruct Hl' as [<-|[<-|[<-|[<-|[]]]]];
    vm_compute; split; intros H; first [reflexivity | discriminate H].
Qed.

Lemma run_step_map_shuffle_reduce_witness :
  collect (_run_mapper (Listing.job 0) Listing.two_keys_unsorted)
  = [write (1, 3); write (2, 1); write (1, 1); write (1, 2)] /\
  _run_step Nat.eq_dec numPartitions hash_key hash_bytes Listing.make_job
            map_reduce_step 0 Listing.two_keys_unsorted
  = ([Call fn_check_step 0; Call fn_run_mapper 0;
      Call fn_shuffle_and_sort 0; Call fn_run_reducer 0],
     Ok [[write (2, 1)]; [write (1, 1); write (1, 2); write (1, 3)]]) /\
  exists out keys,
    outcome (_run_step Nat.eq_dec numPartitions hash_key hash_bytes
                       Listing.make_job map_reduce_step 0
                       Listing.two_keys_unsorted) = Ok out /\
    length out = 2 /\
    NoDup keys /\
    (forall k,
        In k keys <->
        In k (List.map line_key
                [write (1, 3); write (2, 1); write (1, 1); write (1, 2)])) /\
    collect out
    = flat_map
        (fun k =>
           List.map write
             (reducer (Listing.job 0) 0
                (fst (read (hd [] (sorted
                   (filter (fun line => if bytes_eq_dec (line_key line) k
                                        then true else false)
                      [write (1, 3); write (2, 1); write (1, 1); write (1, 2)])))))
                (List.map (fun line => snd (read line))
                   (sorted
                      (filter (fun line => if bytes_eq_dec (line_key line) k
                                           then true else false)
                         [write (1, 3); write (2, 1); write (1, 1);
                          write (1, 2)])))))
        keys.
Proof.
  split; [reflexivity|]. split; [reflexivity|].
  exact (run_step_map_shuffle_reduce Nat.eq_dec numPartitions hash_key hash_bytes
           Listing.make_job map_reduce_step 0 Listing.two_keys_unsorted
           eq_refl eq_refl eq_refl listing_codec_key).
Defined.

Lemma check_step_error_names_flaw_witness :
  _check_step {| desc_type := PyStr "streaming";
                 desc_input_manifest := PyNone;
                 desc_mapper := Some script;
                 desc_reducer := Some script_with_pre_filter;
                 desc_combiner := None |} 3
  = Raise (NotImplementedError (substep_has_pre_filter 3 mrc_reducer)) /\
  3 = 3 /\ mrc_reducer <> mrc_combiner /\
  substep_has_pre_filter_set
    {| desc_type := PyStr "streaming";
       desc_input_manifest := PyNone;
       desc_mapper := Some script;
       desc_reducer := Some script_with_pre_filter;
       desc_combiner := None |} mrc_reducer = true.
Proof.
  assert (H : _check_step {| desc_type := PyStr "streaming";
                             desc_input_manifest := PyNone;
                             desc_mapper := Some script;
                             desc_reducer := Some script_with_pre_filter;
                             desc_combiner := None |} 3
              = Raise (NotImplementedError (substep_has_pre_filter 3 mrc_reducer)))
    by reflexivity.
  split; [exact H|].
  pose proof (@check_step_error_names_flaw _ _ _ H) as Hflaw. cbv beta iota in Hflaw.
  destruct Hflaw as (Hn & Hrole & Hset & _).
  split; [exact Hn|]. split; [exact Hrole | exact Hset].
Defined.

Lemma main_ranges_compose_witness :
  main Nat.eq_dec numPartitions hash_key hash_bytes make_job
       three_steps (Some 0%Z) (Some 2%Z) two_partitions
  = bind (main Nat.eq_dec numPartitions hash_key hash_bytes make_job
               three_steps (Some 0%Z) (Some 1%Z) two_partitions)
         (fun rdd' =>
            main Nat.eq_dec numPartitions hash_key hash_bytes make_job
                 three_steps (Some 1%Z) (Some 2%Z) rdd').
Proof.
  apply main_ranges_compose; lia.
Defined.

Lemma shuffle_and_sort_sorted_by_value_witness :
  In [write (1, 1); write (1, 2)]
     (_shuffle_and_sort numPartitions hash_bytes two_partitions true) /\
  Sorted lex_le
    (List.map line_value
       (filter (fun x => if bytes_eq_dec (line_key x) (repeat x6b 1)
                         then true else false)
               [write (1, 1); write (1, 2)])).
Proof.
  assert (H : In [write (1, 1); write (1, 2)]
                 (_shuffle_and_sort numPartitions hash_bytes two_partitions true))
    by (right; left; reflexivity).
  split; [exact H|].
  exact (@shuffle_and_sort_sorted_by_value numPartitions hash_bytes
           two_partitions _ (repeat x6b 1) H).
Defined.

Lemma listing_keeps_key (k v1 v2 : nat) (o : nat * nat) :
  In o (combine_pairs (Listing.job 0) [(k, v1); (k, v2)] 0) -> fst o = k.
Proof. intros [<-|[<-|[]]]; reflexivity. Qed.

Lemma run_combiner_sorted_values_witness :
  _run_combiner Nat.eq_dec numPartitions hash_key (Listing.job 0)
                Listing.three_values false
  = [[]; [write (1, 3); write (1, 1); write (1, 2)]] /\
  In [write (1, 1); write (1, 2); write (1, 3)]
     (_run_combiner Nat.eq_dec numPartitions hash_key (Listing.job 0)
        Listing.three_values true) /\
  filter (fun line => if bytes_eq_dec (line_key line) (repeat x6b 1)
                      then true else false)
         [write (1, 1); write (1, 2); write (1, 3)]
  = [write (1, 1); write (1, 2); write (1, 3)] /\
  Sorted lex_le
    (filter (fun line => if bytes_eq_dec (line_key line) (repeat x6b 1)
                         then true else false)
            [write (1, 1); write (1, 2); write (1, 3)]).
Proof.
  assert (H : In [write (1, 1); write (1, 2); write (1, 3)]
                 (_run_combiner Nat.eq_dec numPartitions hash_key (Listing.job 0)
                    Listing.three_values true))
    by (right; left; reflexivity).
  split; [reflexivity|]. split; [exact H|]. split; [reflexivity|].
  exact (@run_combiner_sorted_values _ _ Nat.eq_dec numPartitions hash_key
           (Listing.job 0) Listing.three_values _ (repeat x6b 1)
           write_key listing_keeps_key H).
Defined.

End CountingStages.
